(** * Verification of [flax.nnx.nnx.state]: the nested [State] container.

    The development embeds [src/flax/nnx/nnx/state.py] in Rocq:

    - Python dictionaries are insertion-ordered association lists with
      unique keys ([dict_get], [dict_set], [dict_update]);
    - a [State] wraps a raw mapping whose values are leaves or further
      mappings ([Value]);
    - operations that can raise return a [result];
    - the aliasing behaviour of [State.__getitem__] is studied on an
      explicit store of mapping objects ([Store], [StateObj]). *)

From Stdlib Require Import String ZArith List Bool Arith Lia Permutation Sorted.
Import ListNotations.

Set Implicit Arguments.
Set Warnings "-register-all,-notation-for-abbreviation".

(* ================================================================= *)
(** ** Python dictionaries *)

Section PyDict.
Context {K V : Type}.
Variable K_eq_dec : forall a b : K, {a = b} + {a <> b}.

(** [d[k]], with [None] standing for [KeyError]. *)
Fixpoint dict_get (k : K) (d : list (K * V)) : option V :=
  match d with
  | [] => None
  | (k', v) :: d' => if K_eq_dec k k' then Some v else dict_get k d'
  end.

(** [k in d]. *)
Definition dict_contains (k : K) (d : list (K * V)) : bool :=
  match dict_get k d with Some _ => true | None => false end.

(** [d[k] = v]: an existing key keeps its position, a new key is
    appended. *)
Fixpoint dict_set (k : K) (v : V) (d : list (K * V)) : list (K * V) :=
  match d with
  | [] => [(k, v)]
  | (k', v') :: d' =>
      if K_eq_dec k k' then (k, v) :: d' else (k', v') :: dict_set k v d'
  end.

(** [d.update(other)]. *)
Definition dict_update (d other : list (K * V)) : list (K * V) :=
  fold_left (fun acc kv => dict_set (fst kv) (snd kv) acc) other d.

(** A Python dictionary never holds a key twice. *)
Fixpoint nodup_keys (ks : list K) : bool :=
  match ks with
  | [] => true
  | k :: ks' =>
      negb (existsb (fun k' => if K_eq_dec k k' then true else false) ks')
      && nodup_keys ks'
  end.
End PyDict.

(* ================================================================= *)
(** ** The data model *)

Section StateModel.

Variable Key : Type.
Variable Key_eq_dec : forall a b : Key, {a = b} + {a <> b}.
Variable StateLeaf : Type.

(** [PathParts = tuple[Key, ...]]. *)
Local Notation PathParts := (list Key).

Definition PathParts_eq_dec : forall p q : PathParts, {p = q} + {p <> q} :=
  list_eq_dec Key_eq_dec.

(** [FlatState = dict[PathParts, StateLeaf]]. *)
Local Notation FlatState := (list (PathParts * StateLeaf)).

(** What a raw mapping stores under a key: a leaf ([is_state_leaf]) or a
    nested mapping. *)
Inductive Value :=
| Leaf (x : StateLeaf)
| Sub (m : list (Key * Value)).

(** A raw mapping: the dictionary held by a state. *)
Local Notation Mapping := (list (Key * Value)).

(** [class State]: a wrapper around [_mapping]. *)
Record State := mkState { raw_mapping : Mapping }.

(** [State.__len__] and the truth value of a state ([if rest:],
    [if not other:]). *)
Definition State_len (s : State) : nat := length (raw_mapping s).
Definition State_bool (s : State) : bool := negb (State_len s =? 0).

(** [State.__contains__]. *)
Definition State_contains (s : State) (k : Key) : bool :=
  dict_contains Key_eq_dec k (raw_mapping s).

(** Exceptions.  [KeyError] comes from a dictionary lookup.  The three
    [ValueError]s of the module are told apart: [OrderingError i] is
    "`...` or `True` can only be used as the last filters, got ... at
    index i", [NonExhaustiveError rest] is "Non-exhaustive filters, got
    a non-empty remainder: rest", [ConstructionError] is "Expected a
    dictionary when `_copy=False`".  Unflattening can raise two more:
    [IndexError] for the last key of an empty path, and [TypeError k]
    when the value found under [k] on the way to a path is a leaf, which
    is then used as if it were a dictionary. *)
Inductive Error :=
| KeyError (k : Key)
| OrderingError (i : nat)
| NonExhaustiveError (rest : State)
| IndexError
| TypeError (k : Key)
| ConstructionError.

Inductive result (A : Type) :=
| Ok (a : A)
| Err (e : Error).
Arguments Ok {A} a.
Arguments Err {A} e.

Definition bind {A B} (r : result A) (f : A -> result B) : result B :=
  match r with
  | Ok a => f a
  | Err e => Err e
  end.

Notation "x <- r ;; k" := (bind r (fun x => k))
  (at level 61, r at next level, right associativity).

(** [tuple(f(x) for x in xs)] for a raising [f]. *)
Fixpoint mapM {A B} (f : A -> result B) (xs : list A) : result (list B) :=
  match xs with
  | [] => Ok []
  | x :: xs' => y <- f x ;; ys <- mapM f xs' ;; Ok (y :: ys)
  end.

(* ----------------------------------------------------------------- *)
(** *** Flattening *)

(** Modelled from the spec: [traverse_util.flatten_dict] is not among the
    sources.  Depth-first traversal: for every key, a sub-container is
    flattened recursively and the key is prepended to every returned
    path; a leaf is emitted under the one-key path.  Intermediate nodes
    produce no entry. *)
Fixpoint flatten_value (v : Value) : FlatState :=
  match v with
  | Leaf x => [([], x)]
  | Sub m =>
      flat_map
        (fun kv => map (fun px => (fst kv :: fst px, snd px))
                       (flatten_value (snd kv)))
        m
  end.

(** Modelled from the spec: [traverse_util.flatten_dict] applied to a
    raw mapping.  The keys of a dictionary being distinct, so are the
    paths, and the list of entries is the resulting dictionary in its
    iteration order. *)
Definition flatten_dict (m : Mapping) : FlatState := flatten_value (Sub m).

(** [State.flat_state]. *)
Definition State_flat_state (self : State) : FlatState :=
  flatten_dict (raw_mapping self).

(* ----------------------------------------------------------------- *)
(** *** Unflattening *)

(** Modelled from the spec: [traverse_util.unflatten_dict] is not among
    the sources; this is what it does with one entry, placing a leaf at a
    path of the container under construction.  The walk along
    [path[:-1]] creates the intermediate containers on demand
    ([if key not in cursor: cursor[key] = {}]) and ends in the dictionary
    assignment [cursor[path[-1]] = value].  The spec asks for a flat
    state in which a path is a strict prefix of another to be rejected;
    the library makes no test of the kind, nor does [from_flat_path],
    and the definition follows the library: the assignment replaces
    whatever sits under the last key, a leaf or a whole sub-container.
    The empty path has no last key ([IndexError]).  When the walk finds a
    leaf under a key, the library goes on and uses that leaf as a
    dictionary; leaves are opaque here and taken not to be containers,
    for which Python raises [TypeError] (a leaf that implements item
    assignment, such as an array, would be written to in place: such
    leaves are outside this model). *)
Fixpoint insert_path (p : PathParts) (x : StateLeaf) (m : Mapping)
  : result Mapping :=
  match p with
  | [] => Err IndexError
  | k :: p' =>
      match p' with
      | [] => Ok (dict_set Key_eq_dec k (Leaf x) m)
      | _ :: _ =>
          match dict_get Key_eq_dec k m with
          | None =>
              sub <- insert_path p' x [] ;;
              Ok (dict_set Key_eq_dec k (Sub sub) m)
          | Some (Sub cursor) =>
              sub <- insert_path p' x cursor ;;
              Ok (dict_set Key_eq_dec k (Sub sub) m)
          | Some (Leaf _) => Err (TypeError k)
          end
      end
  end.

(** Modelled from the spec: [traverse_util.unflatten_dict], the inverse
    of [flatten_dict]: the entries are placed one after the other, in
    the iteration order of the flat state, into an initially empty
    container, so that paths sharing a key prefix end up in the same
    intermediate container. *)
Definition unflatten_dict (xs : FlatState) : result Mapping :=
  fold_left (fun acc px => m <- acc ;; insert_path (fst px) (snd px) m)
            xs (Ok []).

(** [State.from_flat_path]. *)
Definition State_from_flat_path (flat_state : FlatState) : result State :=
  nested_state <- unflatten_dict flat_state ;;
  Ok (mkState nested_state).

(* ----------------------------------------------------------------- *)
(** *** Filters *)

(** [filterlib.Filter], restricted to the forms the container
    distinguishes: the sentinel [...], the literal [True], and a
    predicate over (path, leaf). *)
Inductive Filter :=
| Ellipsis
| TrueLit
| Predicate (p : PathParts -> StateLeaf -> bool).

(** [filter_ in (..., True)]. *)
Definition is_wildcard (filter_ : Filter) : bool :=
  match filter_ with
  | Ellipsis | TrueLit => true
  | Predicate _ => false
  end.

(** Modelled from the spec: [filterlib.to_predicate] is not among the
    sources.  A wildcard matches unconditionally; a predicate is used as
    it is. *)
Definition to_predicate (filter_ : Filter) : PathParts -> StateLeaf -> bool :=
  match filter_ with
  | Predicate p => p
  | Ellipsis | TrueLit => fun _ _ => true
  end.

(** The test made for [filter_] at index [i] by the first loop of
    [_split_state]: does it raise? *)
Definition misplaced_wildcard (filters : list Filter) (i : nat)
    (filter_ : Filter) : bool :=
  is_wildcard filter_ && negb (i =? length filters - 1) &&
  (let remaining_filters := skipn (i + 1) filters in
   negb (forallb is_wildcard remaining_filters)).

(** [for i, filter_ in enumerate(filters): ...] from index [i] on. *)
Fixpoint check_filters_from (filters : list Filter) (i : nat)
    (todo : list Filter) : result unit :=
  match todo with
  | [] => Ok tt
  | filter_ :: todo' =>
      if misplaced_wildcard filters i filter_
      then Err (OrderingError i)
      else check_filters_from filters (S i) todo'
  end.

Definition check_filters (filters : list Filter) : result unit :=
  check_filters_from filters 0 filters.

(* ----------------------------------------------------------------- *)
(** *** Partitioning *)

(** The inner [for ... else] of [_split_state]: the index of the first
    predicate that holds, or [len(predicates)], the index of the last
    flat state, when none does. *)
Fixpoint first_match (predicates : list (PathParts -> StateLeaf -> bool))
    (path : PathParts) (value : StateLeaf) : nat :=
  match predicates with
  | [] => 0
  | predicate :: rest =>
      if predicate path value then 0 else S (first_match rest path value)
  end.

(** [flat_states[i][path] = value]. *)
Fixpoint bucket_set (i : nat) (path : PathParts) (value : StateLeaf)
    (flat_states : list FlatState) : list FlatState :=
  match flat_states with
  | [] => []
  | fs :: rest =>
      match i with
      | 0 => dict_set PathParts_eq_dec path value fs :: rest
      | S i' => fs :: bucket_set i' path value rest
      end
  end.

(** The second loop of [_split_state], starting from
    [len(predicates) + 1] empty flat states. *)
Definition partition_flat
    (predicates : list (PathParts -> StateLeaf -> bool))
    (flat_state : FlatState) : list FlatState :=
  fold_left
    (fun flat_states pv =>
       bucket_set (first_match predicates (fst pv) (snd pv))
                  (fst pv) (snd pv) flat_states)
    flat_state
    (repeat [] (length predicates + 1)).

(** [_split_state]. *)
Definition _split_state (state : State) (filters : list Filter)
  : result (list State) :=
  _ <- check_filters filters ;;
  let predicates := map to_predicate filters in
  let flat_state := State_flat_state state in
  let flat_states := partition_flat predicates flat_state in
  mapM State_from_flat_path flat_states.

(** The return value of [split] and [filter]: one state, or a tuple. *)
Inductive States :=
| OneState (s : State)
| StateTuple (ss : list State).

Definition pack_states (states_ : list State) : States :=
  match states_ with
  | [s] => OneState s
  | _ => StateTuple states_
  end.

(** [State.split]. *)
Definition State_split (self : State) (first : Filter)
    (filters : list Filter) : result States :=
  let filters := first :: filters in
  all <- _split_state self filters ;;
  let states_ := removelast all in
  let rest := last all (mkState []) in
  if State_bool rest then Err (NonExhaustiveError rest)
  else Ok (pack_states states_).

(** [State.filter].  Its assertion [len(states_) == len(filters) + 1]
    compares with the filters behind [first]; it holds of every result
    of [_split_state], which has one state per filter and one more. *)
Definition State_filter (self : State) (first : Filter)
    (filters : list Filter) : result States :=
  all <- _split_state self (first :: filters) ;;
  let states_ := removelast all in
  Ok (pack_states states_).

(* ----------------------------------------------------------------- *)
(** *** Merge algebra *)

(** [State.merge]. *)
Definition State_merge (state : State) (states : list State)
  : result State :=
  let states := state :: states in
  if length states =? 1 then Ok (hd state states)
  else
    let new_state :=
      fold_left
        (fun new_state state =>
           dict_update PathParts_eq_dec new_state (State_flat_state state))
        states [] in
    State_from_flat_path new_state.

(** [State.__or__]. *)
Definition State_or (self other : State) : result State :=
  if negb (State_bool other) then Ok self
  else State_merge self [other].

(** [State.__sub__]; [diff] is the comprehension
    [{k: v for k, v in self_flat.items() if k not in other_flat}]. *)
Definition State_sub (self other : State) : result State :=
  if negb (State_bool other) then Ok self
  else
    let self_flat := State_flat_state self in
    let other_flat := State_flat_state other in
    let diff :=
      filter (fun kv => negb (dict_contains PathParts_eq_dec (fst kv) other_flat))
             self_flat in
    State_from_flat_path diff.

(* ----------------------------------------------------------------- *)
(** *** Specification vocabulary *)

(** Well-formedness: every mapping of the tree is a dictionary. *)
Fixpoint wf_value (v : Value) : bool :=
  match v with
  | Leaf _ => true
  | Sub m =>
      nodup_keys Key_eq_dec (map fst m)
      && forallb (fun kv => wf_value (snd kv)) m
  end.

Definition wf_mapping (m : Mapping) : bool := wf_value (Sub m).

Definition well_formed (s : State) : Prop := wf_mapping (raw_mapping s) = true.

Definition is_nil {A} (l : list A) : bool :=
  match l with [] => true | _ => false end.

(** No sub-container of the value is empty. *)
Fixpoint no_empty_value (v : Value) : bool :=
  match v with
  | Leaf _ => true
  | Sub m => negb (is_nil m) && forallb (fun kv => no_empty_value (snd kv)) m
  end.

(** No nested container below the root is empty (the root may be). *)
Definition no_empty_sub (m : Mapping) : bool :=
  forallb (fun kv => no_empty_value (snd kv)) m.

(** What sits at the end of a path: a leaf or a sub-container. *)
Fixpoint value_at (m : Mapping) (p : PathParts) : option Value :=
  match p with
  | [] => None
  | k :: p' =>
      match dict_get Key_eq_dec k m with
      | None => None
      | Some v =>
          match p' with
          | [] => Some v
          | _ :: _ =>
              match v with
              | Sub m' => value_at m' p'
              | Leaf _ => None
              end
          end
      end
  end.

Definition leaf_at (m : Mapping) (p : PathParts) : option StateLeaf :=
  match value_at m p with
  | Some (Leaf x) => Some x
  | _ => None
  end.

(** Number of leaves of the whole tree. *)
Fixpoint count_leaves_value (v : Value) : nat :=
  match v with
  | Leaf _ => 1
  | Sub m => list_sum (map (fun kv => count_leaves_value (snd kv)) m)
  end.

Definition count_leaves (s : State) : nat :=
  count_leaves_value (Sub (raw_mapping s)).

(** Depth-first traversal in key iteration order, carrying the path so
    far and emitting [path_so_far + [key]] at each leaf. *)
Fixpoint traverse (path_so_far : PathParts) (v : Value) : FlatState :=
  match v with
  | Leaf x => [(path_so_far, x)]
  | Sub m => flat_map (fun kv => traverse (path_so_far ++ [fst kv]) (snd kv)) m
  end.

(** [p] is a strict prefix of [q]. *)
Fixpoint strict_prefix (p q : PathParts) : bool :=
  match p, q with
  | [], [] => false
  | [], _ :: _ => true
  | _ :: _, [] => false
  | a :: p', b :: q' => if Key_eq_dec a b then strict_prefix p' q' else false
  end.

(** No path of the list is a strict prefix of another one. *)
Definition prefix_free (paths : list PathParts) : bool :=
  forallb (fun p => forallb (fun q => negb (strict_prefix p q)) paths) paths.

(** A flat state as the spec wants it for unflattening: a dictionary
    whose paths are non-empty and prefix-free. *)
Definition conforming (flat : FlatState) : bool :=
  nodup_keys PathParts_eq_dec (map fst flat)
  && forallb (fun p => negb (is_nil p)) (map fst flat)
  && prefix_free (map fst flat).

(** Structural equality of containers: the same keys at every nesting
    level and the same leaf at every path, whatever the insertion
    order. *)
Inductive structurally_equal : Value -> Value -> Prop :=
| se_leaf : forall x, structurally_equal (Leaf x) (Leaf x)
| se_sub : forall m1 m2,
    (forall k, dict_contains Key_eq_dec k m1 = dict_contains Key_eq_dec k m2) ->
    (forall k v1 v2,
        dict_get Key_eq_dec k m1 = Some v1 ->
        dict_get Key_eq_dec k m2 = Some v2 ->
        structurally_equal v1 v2) ->
    structurally_equal (Sub m1) (Sub m2).

Definition State_equal (a b : State) : Prop :=
  structurally_equal (Sub (raw_mapping a)) (Sub (raw_mapping b)).

(** The value the overlay of several flat states holds at a path: the
    one of the last flat state that has the path. *)
Definition last_write (p : PathParts) (flats : list FlatState)
  : option StateLeaf :=
  fold_left
    (fun acc flat =>
       match dict_get PathParts_eq_dec p flat with
       | Some x => Some x
       | None => acc
       end)
    flats None.

(** Wildcards occur only as a trailing run of the filter list: behind a
    wildcard there are only wildcards. *)
Fixpoint wildcards_last (filters : list Filter) : bool :=
  match filters with
  | [] => true
  | f :: rest =>
      (negb (is_wildcard f) || forallb is_wildcard rest)
      && wildcards_last rest
  end.

(** Reading [True] as [...]. *)
Definition as_ellipsis (filter_ : Filter) : Filter :=
  match filter_ with
  | TrueLit => Ellipsis
  | f => f
  end.

(* ================================================================= *)
(** ** Views: states as objects in a store

    [State.__getitem__] hands out [State(value, _copy=False)], an object
    whose [_mapping] is the very dictionary stored in the parent.  To
    speak about this sharing, mapping objects live in a store and are
    referred to by address; a slot of a mapping holds a leaf or the
    address of another mapping object. *)

Definition addr := nat.

Inductive Slot :=
| SlotLeaf (x : StateLeaf)
| SlotMapping (a : addr).

(** The class of a mapping object: [dict], or another implementation of
    [tp.Mapping] (a frozen or read-only mapping). *)
Inductive MappingClass :=
| DictClass
| OtherMappingClass.

Record MappingObj := mkMappingObj {
  class_of : MappingClass;
  entries : list (Key * Slot)
}.

Record Store := mkStore { objects : addr -> MappingObj; next_addr : addr }.

(** A [State] object: its [_mapping] attribute is a reference. *)
Record StateObj := mkStateObj { _mapping : addr }.

(** Replacing the entries of the object at [a]. *)
Definition store_write (h : Store) (a : addr) (d : list (Key * Slot)) : Store :=
  mkStore
    (fun a' =>
       if a' =? a then mkMappingObj (class_of (objects h a)) d
       else objects h a')
    (next_addr h).

(** Allocating a fresh object. *)
Definition store_alloc (h : Store) (obj : MappingObj) : Store * addr :=
  (mkStore (fun a' => if a' =? next_addr h then obj else objects h a')
           (S (next_addr h)),
   next_addr h).

(** [State.__init__] applied to a mapping object of the store: with
    [_copy] the state owns [dict(mapping)], a fresh dictionary with the
    same entries; without, the mapping must be a [dict] and is used as
    it is. *)
Definition StateObj_init (h : Store) (mapping : addr) (_copy : bool)
  : result (Store * StateObj) :=
  if _copy then
    let (h', fresh) :=
      store_alloc h (mkMappingObj DictClass (entries (objects h mapping))) in
    Ok (h', mkStateObj fresh)
  else
    match class_of (objects h mapping) with
    | DictClass => Ok (h, mkStateObj mapping)
    | OtherMappingClass => Err ConstructionError
    end.

(** The result of indexing: a state or a leaf. *)
Inductive Item :=
| ItemState (s : StateObj)
| ItemLeaf (x : StateLeaf).

(** [State.__getitem__]. *)
Definition StateObj_getitem (h : Store) (self : StateObj) (key : Key)
  : result (Store * Item) :=
  match dict_get Key_eq_dec key (entries (objects h (_mapping self))) with
  | None => Err (KeyError key)
  | Some (SlotMapping value) =>
      r <- StateObj_init h value false ;;
      Ok (fst r, ItemState (snd r))
  | Some (SlotLeaf value) => Ok (h, ItemLeaf value)
  end.

(** What [State.__setitem__] stores for a value. *)
Definition slot_of (value : Item) : Slot :=
  match value with
  | ItemState s => SlotMapping (_mapping s)
  | ItemLeaf x => SlotLeaf x
  end.

(** [State.__setitem__]. *)
Definition StateObj_setitem (h : Store) (self : StateObj) (key : Key)
    (value : Item) : Store :=
  store_write h (_mapping self)
    (dict_set Key_eq_dec key (slot_of value)
              (entries (objects h (_mapping self)))).

(** [State.__contains__], [State.__len__] and [State.__iter__] on a
    state object. *)
Definition StateObj_contains (h : Store) (self : StateObj) (key : Key) : bool :=
  dict_contains Key_eq_dec key (entries (objects h (_mapping self))).

Definition StateObj_len (h : Store) (self : StateObj) : nat :=
  length (entries (objects h (_mapping self))).

Definition StateObj_iter (h : Store) (self : StateObj) : list Key :=
  map fst (entries (objects h (_mapping self))).

(** [del d[k]]: the entry of [k] is removed, [None] standing for
    [KeyError]. *)
Fixpoint dict_del {V : Type} (k : Key) (d : list (Key * V))
  : option (list (Key * V)) :=
  match d with
  | [] => None
  | (k', v) :: d' =>
      if Key_eq_dec k k' then Some d'
      else
        match dict_del k d' with
        | Some d'' => Some ((k', v) :: d'')
        | None => None
        end
  end.

(** [State.__delitem__]. *)
Definition StateObj_delitem (h : Store) (self : StateObj) (key : Key)
  : result Store :=
  match dict_del key (entries (objects h (_mapping self))) with
  | None => Err (KeyError key)
  | Some d => Ok (store_write h (_mapping self) d)
  end.

(** What [State.__getattr__] raises: its own [AttributeError], or
    whatever indexing raises. *)
Inductive GetattrError :=
| AttributeError (key : Key)
| IndexingError (e : Error).

(** The method [State.__getattr__] itself: Python calls it only for a
    name that ordinary attribute lookup does not resolve (the names of
    the methods and properties of the class never reach it).  A
    [StateObj] always has its [_mapping], so the test
    ['_mapping' not in vars(self)] is false and the guard is
    [key not in self._mapping]. *)
Definition StateObj_getattr (h : Store) (self : StateObj) (key : Key)
  : GetattrError + (Store * Item) :=
  if negb (dict_contains Key_eq_dec key (entries (objects h (_mapping self))))
  then inl (AttributeError key)
  else
    match StateObj_getitem h self key with
    | Ok r => inr r
    | Err e => inl (IndexingError e)
    end.

(* ================================================================= *)
(** ** The tree-traversal protocol *)

(** [jtu.DictKey]. *)
Inductive DictKey := mkDictKey (key : Key).

(** [sorted(x._mapping.items())], with [Key_leb] the order the keys are
    compared with: the keys of a dictionary are distinct, so the
    comparison of two items is decided by their keys.  The sort is
    stable. *)
Fixpoint insert_item (Key_leb : Key -> Key -> bool) (kv : Key * Value)
    (items : list (Key * Value)) : list (Key * Value) :=
  match items with
  | [] => [kv]
  | kv' :: rest =>
      if Key_leb (fst kv) (fst kv') then kv :: items
      else kv' :: insert_item Key_leb kv rest
  end.

Definition sorted_items (Key_leb : Key -> Key -> bool)
    (items : list (Key * Value)) : list (Key * Value) :=
  fold_right (insert_item Key_leb) [] items.

(** [_state_flatten_with_keys]. *)
Definition _state_flatten_with_keys (Key_leb : Key -> Key -> bool) (x : State)
  : list (DictKey * Value) * list Key :=
  let items := sorted_items Key_leb (raw_mapping x) in
  let children := map (fun kv => (mkDictKey (fst kv), snd kv)) items in
  (children, map fst items).

(** [State(pairs)] for an iterator of pairs: [dict(pairs)] inserts them
    one after the other, a later pair replacing the value of an earlier
    one with the same key. *)
Definition State_of_pairs (pairs : list (Key * Value)) : State :=
  mkState (dict_update Key_eq_dec [] pairs).

(** [_state_unflatten]; [combine] is [zip]. *)
Definition _state_unflatten (static : list Key) (leaves : list Value)
  : State :=
  State_of_pairs (combine static leaves).

(** The states a result of [split] or [filter] consists of, as
    [State.merge] receives them when the result is passed on. *)
Definition unpack_states (r : States) : list State :=
  match r with
  | OneState s => [s]
  | StateTuple ss => ss
  end.

(* ----------------------------------------------------------------- *)
(** *** Key order *)

(** The keys come in ascending order. *)
Fixpoint ascending (Key_leb : Key -> Key -> bool) (ks : list Key) : bool :=
  match ks with
  | [] => true
  | k :: rest => forallb (Key_leb k) rest && ascending Key_leb rest
  end.

(** Every container of the tree holds its keys in ascending order. *)
Fixpoint keys_ascending (Key_leb : Key -> Key -> bool) (v : Value) : bool :=
  match v with
  | Leaf _ => true
  | Sub m =>
      ascending Key_leb (map fst m)
      && forallb (fun kv => keys_ascending Key_leb (snd kv)) m
  end.

(** The tree with the entries of every container put in ascending key
    order. *)
Fixpoint sort_keys (Key_leb : Key -> Key -> bool) (v : Value) : Value :=
  match v with
  | Leaf x => Leaf x
  | Sub m =>
      Sub (sorted_items Key_leb
             (map (fun kv => (fst kv, sort_keys Key_leb (snd kv))) m))
  end.

(** Modelled from the spec: the "depth-first, key-order traversal" by
    which the data model defines the iteration order of a flat state,
    read as the depth-first traversal that visits the keys of every
    container in ascending order. *)
Definition key_order_traversal (Key_leb : Key -> Key -> bool) (c : State)
  : FlatState :=
  traverse [] (sort_keys Key_leb (Sub (raw_mapping c))).

(* ================================================================= *)
(** ** Dictionary lemmas *)

Unset Implicit Arguments.

Section PyDictFacts.
Context {K V : Type}.
Variable K_eq_dec : forall a b : K, {a = b} + {a <> b}.

Local Notation dget := (dict_get K_eq_dec).
Local Notation dset := (dict_set K_eq_dec).

Lemma dict_get_set_same (k : K) (v : V) d : dget k (dset k v d) = Some v.
Proof.
  induction d as [|[k' v'] d IH]; simpl.
  - destruct (K_eq_dec k k); congruence.
  - destruct (K_eq_dec k k') as [e|n]; simpl.
    + destruct (K_eq_dec k k); congruence.
    + destruct (K_eq_dec k k'); congruence.
Qed.

Lemma dict_get_set_other (k k' : K) (v : V) d :
  k <> k' -> dget k' (dset k v d) = dget k' d.
Proof.
  intros Hne. induction d as [|[k0 v0] d IH]; simpl.
  - destruct (K_eq_dec k' k); congruence.
  - destruct (K_eq_dec k k0) as [e|n]; simpl.
    + subst k0. destruct (K_eq_dec k' k); congruence.
    + destruct (K_eq_dec k' k0); congruence.
Qed.

Lemma dict_get_none_keys (k : K) (d : list (K * V)) :
  dget k d = None <-> ~ In k (map fst d).
Proof.
  induction d as [|[k' v'] d IH]; simpl.
  - tauto.
  - destruct (K_eq_dec k k') as [e|n].
    + split; [discriminate | intros H; exfalso; apply H; left; congruence].
    + rewrite IH. split; intros H; [intros [E|I]; [congruence | tauto] | tauto].
Qed.

Lemma dict_get_some_in (k : K) (v : V) d : dget k d = Some v -> In (k, v) d.
Proof.
  induction d as [|[k' v'] d IH]; simpl; [discriminate|].
  destruct (K_eq_dec k k') as [e|n]; intros H.
  - left; congruence.
  - right; auto.
Qed.

Lemma dict_get_in_nodup (k : K) (v : V) d :
  NoDup (map fst d) -> In (k, v) d -> dget k d = Some v.
Proof.
  induction d as [|[k' v'] d IH]; simpl; [tauto|].
  intros Hnd [E|I]; inversion Hnd; subst.
  - inversion E; subst. destruct (K_eq_dec k k); congruence.
  - destruct (K_eq_dec k k') as [e|n]; auto.
    subst k'. exfalso. apply H1. apply (in_map fst) in I. exact I.
Qed.

Lemma dict_set_absent (k : K) (v : V) d :
  dget k d = None -> dset k v d = d ++ [(k, v)].
Proof.
  induction d as [|[k' v'] d IH]; simpl; auto.
  destruct (K_eq_dec k k'); [discriminate|].
  intros H. rewrite IH; auto.
Qed.

Lemma dict_set_set (k : K) (v w : V) d : dset k w (dset k v d) = dset k w d.
Proof.
  induction d as [|[k' v'] d IH]; simpl.
  - destruct (K_eq_dec k k); congruence.
  - destruct (K_eq_dec k k') as [e|n]; simpl.
    + destruct (K_eq_dec k k); congruence.
    + destruct (K_eq_dec k k'); congruence.
Qed.

Lemma dict_set_present_keys (k : K) (v w : V) d :
  dget k d = Some w -> map fst (dset k v d) = map fst d.
Proof.
  induction d as [|[k' v'] d IH]; simpl; [discriminate|].
  destruct (K_eq_dec k k') as [e|n]; simpl; intros H.
  - congruence.
  - rewrite IH; auto.
Qed.

Lemma dict_set_keys_nodup (k : K) (v : V) d :
  NoDup (map fst d) -> NoDup (map fst (dset k v d)).
Proof.
  intros Hnd. destruct (dget k d) as [w|] eqn:E.
  - rewrite (dict_set_present_keys k v w d E). exact Hnd.
  - rewrite (dict_set_absent k v d E), map_app. simpl.
    apply dict_get_none_keys in E.
    apply NoDup_app; auto.
    + constructor; [simpl; tauto | constructor].
    + intros a Ha [<-|[]]. auto.
Qed.

Lemma nodup_keys_spec (ks : list K) :
  nodup_keys K_eq_dec ks = true <-> NoDup ks.
Proof.
  induction ks as [|k ks IH]; simpl.
  - split; [constructor | reflexivity].
  - rewrite andb_true_iff, negb_true_iff, IH.
    split.
    + intros [Hex Hnd]. constructor; auto.
      intros Hin. apply Bool.not_true_iff_false in Hex. apply Hex.
      apply existsb_exists. exists k. split; auto.
      destruct (K_eq_dec k k); congruence.
    + intros Hnd. inversion Hnd; subst. split; auto.
      apply Bool.not_true_iff_false. intros Hex.
      apply existsb_exists in Hex. destruct Hex as [k' [Hin Heq]].
      destruct (K_eq_dec k k'); [subst; auto | discriminate].
Qed.

Lemma dict_contains_in (k : K) (d : list (K * V)) :
  dict_contains K_eq_dec k d = true <-> In k (map fst d).
Proof.
  unfold dict_contains. destruct (dget k d) eqn:E.
  - split; auto. intros _.
    apply dict_get_some_in in E. apply (in_map fst) in E. exact E.
  - apply dict_get_none_keys in E. split; [discriminate | tauto].
Qed.

End PyDictFacts.

(* ================================================================= *)
(** ** Facts about the tree and its flattening *)

Local Notation prepend k :=
  (fun px : list Key * StateLeaf => (k :: fst px, snd px)).

(** Induction over a mapping that also descends into the nested
    mappings. *)
Lemma Mapping_nested_ind (P : Mapping -> Prop) :
  P [] ->
  (forall k x m, P m -> P ((k, Leaf x) :: m)) ->
  (forall k sub m, P sub -> P m -> P ((k, Sub sub) :: m)) ->
  forall m, P m.
Proof.
  intros H0 HL HS.
  assert (HV : forall v : Value,
             match v with Leaf _ => True | Sub m => P m end).
  { fix IH 1. intros [x|m]; [exact I|].
    induction m as [|[k v] m IHm]; [exact H0|].
    pose proof (IH v) as Hv.
    destruct v as [x|sub].
    - apply HL, IHm.
    - apply HS; [exact Hv | exact IHm]. }
  intros m. exact (HV (Sub m)).
Qed.

Lemma flatten_dict_cons (k : Key) (v : Value) (m : Mapping) :
  flatten_dict ((k, v) :: m)
  = map (prepend k) (flatten_value v) ++ flatten_dict m.
Proof. reflexivity. Qed.

Lemma flatten_dict_leaf (k : Key) (x : StateLeaf) (m : Mapping) :
  flatten_dict ((k, Leaf x) :: m) = ([k], x) :: flatten_dict m.
Proof. reflexivity. Qed.

Lemma flatten_dict_sub (k : Key) (sub m : Mapping) :
  flatten_dict ((k, Sub sub) :: m)
  = map (prepend k) (flatten_dict sub) ++ flatten_dict m.
Proof. reflexivity. Qed.

Lemma wf_mapping_cons (k : Key) (v : Value) (m : Mapping) :
  wf_mapping ((k, v) :: m) = true <->
  ~ In k (map fst m) /\ wf_value v = true /\ wf_mapping m = true.
Proof.
  unfold wf_mapping.
  change (wf_value (Sub ((k, v) :: m)))
    with (nodup_keys Key_eq_dec (k :: map fst m)
          && (wf_value v && forallb (fun kv => wf_value (snd kv)) m)).
  change (wf_value (Sub m))
    with (nodup_keys Key_eq_dec (map fst m)
          && forallb (fun kv => wf_value (snd kv)) m).
  rewrite !andb_true_iff, !nodup_keys_spec.
  split.
  - intros [Hnd [Hv Hm]]. inversion Hnd; subst. tauto.
  - intros [Hk [Hv [Hnd Hm]]]. repeat split; auto. constructor; auto.
Qed.

(** Paths of a flattened mapping start with one of its keys. *)
Lemma flatten_dict_head (m : Mapping) (p : PathParts) (x : StateLeaf) :
  In (p, x) (flatten_dict m) ->
  exists k p', p = k :: p' /\ In k (map fst m).
Proof.
  induction m as [|[k v] m IH]; simpl; [tauto|].
  rewrite flatten_dict_cons, in_app_iff, in_map_iff.
  intros [[[p' y] [E _]]|H].
  - inversion E; subst. exists k, p'. auto.
  - destruct (IH H) as [k' [p' [-> Hin]]]. exists k', p'. auto.
Qed.

Lemma leaf_at_nil (p : PathParts) : leaf_at (@nil (Key * Value)) p = None.
Proof. destruct p; reflexivity. Qed.

Lemma leaf_at_empty_path (m : Mapping) : leaf_at m [] = None.
Proof. reflexivity. Qed.

Lemma leaf_at_cons_leaf (k : Key) (x : StateLeaf) (m : Mapping) (p : PathParts) :
  leaf_at ((k, Leaf x) :: m) (k :: p)
  = match p with [] => Some x | _ :: _ => None end.
Proof.
  unfold leaf_at. simpl. destruct (Key_eq_dec k k); [|congruence].
  destruct p; reflexivity.
Qed.

Lemma leaf_at_cons_sub (k : Key) (sub m : Mapping) (p : PathParts) :
  leaf_at ((k, Sub sub) :: m) (k :: p) = leaf_at sub p.
Proof.
  unfold leaf_at. simpl. destruct (Key_eq_dec k k); [|congruence].
  destruct p; reflexivity.
Qed.

Lemma leaf_at_cons_neq (k k' : Key) (v : Value) (m : Mapping) (p : PathParts) :
  k' <> k -> leaf_at ((k, v) :: m) (k' :: p) = leaf_at m (k' :: p).
Proof.
  intros Hne. unfold leaf_at. simpl.
  destruct (Key_eq_dec k' k); [congruence | reflexivity].
Qed.

Lemma leaf_at_absent (k : Key) (m : Mapping) (p : PathParts) :
  ~ In k (map fst m) -> leaf_at m (k :: p) = None.
Proof.
  intros Hk. apply (proj2 (dict_get_none_keys Key_eq_dec k m)) in Hk.
  unfold leaf_at. simpl. rewrite Hk. reflexivity.
Qed.

(** Each leaf is flattened under the path that leads to it, and nothing
    else is. *)
Lemma flatten_dict_leaf_at (m : Mapping) :
  wf_mapping m = true ->
  forall p x, In (p, x) (flatten_dict m) <-> leaf_at m p = Some x.
Proof.
  induction m as [|k y m IHm|k sub m IHsub IHm] using Mapping_nested_ind;
    intros Hwf p x.
  - rewrite leaf_at_nil. simpl. split; [tauto | discriminate].
  - apply wf_mapping_cons in Hwf. destruct Hwf as [Hk [_ Hm]].
    rewrite flatten_dict_leaf. simpl In. rewrite (IHm Hm).
    destruct p as [|k' p].
    { rewrite !leaf_at_empty_path. split; [intros [E|E]; discriminate | discriminate]. }
    destruct (Key_eq_dec k' k) as [->|Hne].
    + rewrite leaf_at_cons_leaf, (leaf_at_absent k m p Hk).
      destruct p; simpl; split.
      * intros [E|E]; [congruence | discriminate].
      * intros E. left. injection E as ->. reflexivity.
      * intros [E|E]; discriminate.
      * discriminate.
    + rewrite leaf_at_cons_neq by assumption. split; [|tauto].
      intros [E|E]; [congruence | assumption].
  - apply wf_mapping_cons in Hwf. destruct Hwf as [Hk [Hs Hm]].
    rewrite flatten_dict_sub, in_app_iff, (IHm Hm), in_map_iff.
    destruct p as [|k' p].
    { rewrite !leaf_at_empty_path.
      split; [intros [[[q y] [E _]]|E]; discriminate | discriminate]. }
    destruct (Key_eq_dec k' k) as [->|Hne].
    + rewrite leaf_at_cons_sub, (leaf_at_absent k m p Hk), <- (IHsub Hs).
      split.
      * intros [[[q y] [E Hin]]|E]; [|discriminate].
        simpl in E. inversion E; subst. exact Hin.
      * intros Hin. left. exists (p, x). auto.
    + rewrite leaf_at_cons_neq by assumption. split; [|tauto].
      intros [[[q y] [E _]]|E]; [simpl in E; congruence | assumption].
Qed.

Lemma leaf_at_step (m : Mapping) (k : Key) (p : PathParts) :
  leaf_at m (k :: p)
  = match dict_get Key_eq_dec k m with
    | None => None
    | Some (Leaf x) => match p with [] => Some x | _ :: _ => None end
    | Some (Sub sub) => leaf_at sub p
    end.
Proof.
  unfold leaf_at. simpl.
  destruct (dict_get Key_eq_dec k m) as [[x|sub]|]; destruct p; reflexivity.
Qed.

Lemma in_paths (flat : FlatState) (p : PathParts) :
  In p (map fst flat) <-> exists x, In (p, x) flat.
Proof.
  rewrite in_map_iff. split.
  - intros [[q x] [E H]]. simpl in E. subst. exists x. exact H.
  - intros [x H]. exists (p, x). auto.
Qed.

Lemma map_fst_prepend (k : Key) (flat : FlatState) :
  map fst (map (prepend k) flat) = map (cons k) (map fst flat).
Proof. rewrite !map_map. reflexivity. Qed.

(** The paths of a flattened container are pairwise distinct. *)
Lemma flatten_dict_paths_nodup (m : Mapping) :
  wf_mapping m = true -> NoDup (map fst (flatten_dict m)).
Proof.
  induction m as [|k y m IHm|k sub m IHsub IHm] using Mapping_nested_ind;
    intros Hwf.
  - constructor.
  - apply wf_mapping_cons in Hwf. destruct Hwf as [Hk [_ Hm]].
    rewrite flatten_dict_leaf. simpl. constructor; auto.
    intros Hin. apply in_paths in Hin. destruct Hin as [x Hin].
    apply flatten_dict_head in Hin. destruct Hin as [k' [p' [E Hin]]].
    inversion E; subst. auto.
  - apply wf_mapping_cons in Hwf. destruct Hwf as [Hk [Hs Hm]].
    rewrite flatten_dict_sub, map_app, map_fst_prepend.
    apply NoDup_app; auto.
    + apply Finite.Injective_map_NoDup; auto.
      intros a b E. inversion E. reflexivity.
    + intros p Hp Hin. apply in_map_iff in Hp. destruct Hp as [p' [<- _]].
      apply in_paths in Hin. destruct Hin as [x Hin].
      apply flatten_dict_head in Hin. destruct Hin as [k' [p'' [E Hin]]].
      inversion E; subst. auto.
Qed.

Lemma flatten_dict_nodup (m : Mapping) :
  wf_mapping m = true -> NoDup (flatten_dict m).
Proof.
  intros H. apply (NoDup_map_inv fst). apply flatten_dict_paths_nodup, H.
Qed.

Lemma strict_prefix_cons (a b : Key) (p q : PathParts) :
  strict_prefix (a :: p) (b :: q) = true <-> a = b /\ strict_prefix p q = true.
Proof.
  simpl. destruct (Key_eq_dec a b); split; intros H; try tauto; try discriminate.
Qed.

Lemma strict_prefix_irrefl (p : PathParts) : strict_prefix p p = false.
Proof.
  induction p as [|a p IH]; simpl; auto.
  destruct (Key_eq_dec a a); congruence.
Qed.

(** Below a leaf there is nothing. *)
Lemma leaf_at_below (p : PathParts) :
  forall (m : Mapping) (q : PathParts) (x : StateLeaf),
    leaf_at m p = Some x -> strict_prefix p q = true -> leaf_at m q = None.
Proof.
  induction p as [|k p IH]; intros m q x Hleaf Hpre.
  - rewrite leaf_at_empty_path in Hleaf. discriminate.
  - destruct q as [|k' q]; [discriminate|].
    apply strict_prefix_cons in Hpre. destruct Hpre as [<- Hpre].
    rewrite leaf_at_step in Hleaf. rewrite leaf_at_step.
    destruct (dict_get Key_eq_dec k m) as [[y|sub]|]; auto.
    + destruct p; [|discriminate]. destruct q; [discriminate | reflexivity].
    + eapply IH; eauto.
Qed.

Lemma prefix_free_spec (paths : list PathParts) :
  prefix_free paths = true <->
  (forall p q, In p paths -> In q paths -> strict_prefix p q = false).
Proof.
  unfold prefix_free. rewrite forallb_forall. split.
  - intros H p q Hp Hq. specialize (H p Hp). rewrite forallb_forall in H.
    specialize (H q Hq). apply negb_true_iff in H. exact H.
  - intros H p Hp. apply forallb_forall. intros q Hq.
    apply negb_true_iff. auto.
Qed.

Lemma flatten_dict_prefix_free (m : Mapping) :
  wf_mapping m = true -> prefix_free (map fst (flatten_dict m)) = true.
Proof.
  intros Hwf. apply prefix_free_spec. intros p q Hp Hq.
  apply in_paths in Hp. destruct Hp as [x Hp].
  apply in_paths in Hq. destruct Hq as [y Hq].
  apply (flatten_dict_leaf_at m Hwf) in Hp.
  apply (flatten_dict_leaf_at m Hwf) in Hq.
  destruct (strict_prefix p q) eqn:E; auto.
  rewrite (leaf_at_below p m q x Hp E) in Hq. discriminate.
Qed.

Lemma flatten_dict_no_empty_path (m : Mapping) :
  forallb (fun p => negb (is_nil p)) (map fst (flatten_dict m)) = true.
Proof.
  apply forallb_forall. intros p Hp. apply in_paths in Hp.
  destruct Hp as [x Hp]. apply flatten_dict_head in Hp.
  destruct Hp as [k [p' [-> _]]]. reflexivity.
Qed.

(** A flattened container is a conforming flat state. *)
Lemma flatten_dict_conforming (m : Mapping) :
  wf_mapping m = true -> conforming (flatten_dict m) = true.
Proof.
  intros Hwf. unfold conforming. rewrite !andb_true_iff. repeat split.
  - apply nodup_keys_spec, flatten_dict_paths_nodup, Hwf.
  - apply flatten_dict_no_empty_path.
  - apply flatten_dict_prefix_free, Hwf.
Qed.

Lemma traverse_cons (pre : PathParts) (k : Key) (v : Value) (m : Mapping) :
  traverse pre (Sub ((k, v) :: m))
  = traverse (pre ++ [k]) v ++ traverse pre (Sub m).
Proof. reflexivity. Qed.

(** Prepending keys on the way back and extending the path on the way
    down give the same entries in the same order. *)
Lemma traverse_flatten_dict (m : Mapping) :
  forall pre,
    traverse pre (Sub m)
    = map (fun px => (pre ++ fst px, snd px)) (flatten_dict m).
Proof.
  induction m as [|k y m IHm|k sub m IHsub IHm] using Mapping_nested_ind;
    intros pre.
  - reflexivity.
  - rewrite traverse_cons, flatten_dict_leaf, IHm. reflexivity.
  - rewrite traverse_cons, flatten_dict_sub, IHm, IHsub, map_app, map_map.
    f_equal. apply map_ext. intros [p x]. simpl.
    rewrite <- app_assoc. reflexivity.
Qed.

Lemma count_leaves_cons (k : Key) (v : Value) (m : Mapping) :
  count_leaves_value (Sub ((k, v) :: m))
  = count_leaves_value v + count_leaves_value (Sub m).
Proof. reflexivity. Qed.

Lemma flatten_dict_length (m : Mapping) :
  length (flatten_dict m) = count_leaves_value (Sub m).
Proof.
  induction m as [|k y m IHm|k sub m IHsub IHm] using Mapping_nested_ind.
  - reflexivity.
  - rewrite flatten_dict_leaf, count_leaves_cons. cbn [length].
    rewrite IHm. reflexivity.
  - rewrite flatten_dict_sub, count_leaves_cons, length_app, length_map.
    rewrite IHm, IHsub. reflexivity.
Qed.

(* ================================================================= *)
(** ** Placing one entry *)

Lemma insert_path_single (k : Key) (x : StateLeaf) (m : Mapping) :
  insert_path [k] x m = Ok (dict_set Key_eq_dec k (Leaf x) m).
Proof. reflexivity. Qed.

Lemma insert_path_deeper (k k2 : Key) (p : PathParts) (x : StateLeaf)
    (m : Mapping) :
  insert_path (k :: k2 :: p) x m
  = match dict_get Key_eq_dec k m with
    | None =>
        sub <- insert_path (k2 :: p) x [] ;;
        Ok (dict_set Key_eq_dec k (Sub sub) m)
    | Some (Sub cursor) =>
        sub <- insert_path (k2 :: p) x cursor ;;
        Ok (dict_set Key_eq_dec k (Sub sub) m)
    | Some (Leaf _) => Err (TypeError k)
    end.
Proof. reflexivity. Qed.

Lemma bind_ok_inv {A B : Type} (r : result A) (f : A -> result B) (b : B) :
  (x <- r ;; f x) = Ok b -> exists a, r = Ok a /\ f a = Ok b.
Proof. destruct r as [a|e]; simpl; [eauto | discriminate]. Qed.

Lemma leaf_at_set_same (k : Key) (v : Value) (m : Mapping) (p : PathParts) :
  leaf_at (dict_set Key_eq_dec k v m) (k :: p)
  = match v with
    | Leaf x => match p with [] => Some x | _ :: _ => None end
    | Sub sub => leaf_at sub p
    end.
Proof. rewrite leaf_at_step, dict_get_set_same. reflexivity. Qed.

Lemma leaf_at_set_other (k k' : Key) (v : Value) (m : Mapping) (p : PathParts) :
  k <> k' ->
  leaf_at (dict_set Key_eq_dec k v m) (k' :: p) = leaf_at m (k' :: p).
Proof.
  intros Hne. rewrite !leaf_at_step, dict_get_set_other by assumption.
  reflexivity.
Qed.

Lemma strict_prefix_single (k : Key) (q : PathParts) :
  q <> [] -> strict_prefix [k] (k :: q) = true.
Proof.
  intros Hq. simpl. destruct (Key_eq_dec k k); [|congruence].
  destruct q; [contradiction | reflexivity].
Qed.

Lemma strict_prefix_same_head (k : Key) (p q : PathParts) :
  strict_prefix (k :: p) (k :: q) = strict_prefix p q.
Proof. simpl. destruct (Key_eq_dec k k); congruence. Qed.

(** After a successful placement the leaf sits at its path ... *)
Lemma insert_path_leaf_at_same (p : PathParts) :
  forall (m m' : Mapping) (x : StateLeaf),
    insert_path p x m = Ok m' -> leaf_at m' p = Some x.
Proof.
  induction p as [|k p IH]; intros m m' x H; [discriminate|].
  destruct p as [|k2 p].
  - rewrite insert_path_single in H. inversion H; subst.
    apply leaf_at_set_same.
  - rewrite insert_path_deeper in H.
    destruct (dict_get Key_eq_dec k m) as [[y|cursor]|]; [discriminate| |];
      apply bind_ok_inv in H; destruct H as [sub [Hsub Hm]];
      inversion Hm; subst; rewrite leaf_at_set_same; eapply IH; eauto.
Qed.

(** ... nothing is left below it ... *)
Lemma insert_path_leaf_at_below (p : PathParts) (m m' : Mapping)
    (x : StateLeaf) (q : PathParts) :
  insert_path p x m = Ok m' -> strict_prefix p q = true -> leaf_at m' q = None.
Proof.
  intros H Hpq. apply (leaf_at_below p m' q x); [|exact Hpq].
  eapply insert_path_leaf_at_same; eauto.
Qed.

(** ... and every path that is neither it nor below it holds what it
    held before. *)
Lemma insert_path_leaf_at_other (p : PathParts) :
  forall (m m' : Mapping) (x : StateLeaf) (q : PathParts),
    insert_path p x m = Ok m' -> q <> p -> strict_prefix p q = false ->
    leaf_at m' q = leaf_at m q.
Proof.
  induction p as [|k p IH]; intros m m' x q H Hne Hpq; [discriminate|].
  destruct q as [|k' q]; [reflexivity|].
  destruct p as [|k2 p].
  - rewrite insert_path_single in H. inversion H; subst.
    destruct (Key_eq_dec k k') as [<-|Hk].
    + exfalso. rewrite strict_prefix_single in Hpq; [discriminate|].
      congruence.
    + apply leaf_at_set_other. exact Hk.
  - rewrite insert_path_deeper in H.
    destruct (Key_eq_dec k k') as [<-|Hk].
    + assert (Hq : q <> k2 :: p) by congruence.
      rewrite strict_prefix_same_head in Hpq.
      rewrite (leaf_at_step m).
      destruct (dict_get Key_eq_dec k m) as [[y|cursor]|]; [discriminate| |];
        apply bind_ok_inv in H; destruct H as [sub [Hsub Hm]];
        inversion Hm; subst; rewrite leaf_at_set_same.
      * eapply IH; eauto.
      * rewrite (IH _ _ _ _ Hsub Hq Hpq). apply leaf_at_nil.
    + destruct (dict_get Key_eq_dec k m) as [[y|cursor]|]; [discriminate| |];
        apply bind_ok_inv in H; destruct H as [sub [Hsub Hm]];
        inversion Hm; subst; apply leaf_at_set_other; exact Hk.
Qed.

Lemma dict_set_not_nil {K V : Type} (dec : forall a b : K, {a = b} + {a <> b})
    (k : K) (v : V) (d : list (K * V)) :
  dict_set dec k v d <> [].
Proof.
  destruct d as [|[k' v'] d]; simpl; [discriminate|].
  destruct (dec k k'); discriminate.
Qed.

Lemma forallb_dict_set {K V : Type} (dec : forall a b : K, {a = b} + {a <> b})
    (f : K * V -> bool) (k : K) (v : V) (d : list (K * V)) :
  forallb f d = true -> f (k, v) = true ->
  forallb f (dict_set dec k v d) = true.
Proof.
  intros Hd Hv. induction d as [|[k' v'] d IH]; simpl.
  - rewrite Hv. reflexivity.
  - simpl in Hd. apply andb_true_iff in Hd. destruct Hd as [H1 H2].
    destruct (dec k k'); simpl; rewrite ?Hv, ?H1, ?H2; auto.
Qed.

Lemma forallb_dict_get {K V : Type} (dec : forall a b : K, {a = b} + {a <> b})
    (f : K * V -> bool) (k : K) (v : V) (d : list (K * V)) :
  forallb f d = true -> dict_get dec k d = Some v -> f (k, v) = true.
Proof.
  intros Hd Hg. apply dict_get_some_in in Hg.
  rewrite forallb_forall in Hd. apply Hd. exact Hg.
Qed.

Lemma insert_path_not_nil (p : PathParts) (x : StateLeaf) (m m' : Mapping) :
  insert_path p x m = Ok m' -> m' <> [].
Proof.
  destruct p as [|k [|k2 p]]; [discriminate| |].
  - rewrite insert_path_single. intros H; inversion H.
    apply dict_set_not_nil.
  - rewrite insert_path_deeper.
    destruct (dict_get Key_eq_dec k m) as [[y|cursor]|]; intros H;
      [discriminate| |];
      apply bind_ok_inv in H; destruct H as [sub [Hsub Hm]]; inversion Hm;
      apply dict_set_not_nil.
Qed.

Lemma wf_mapping_unfold (m : Mapping) :
  wf_mapping m
  = nodup_keys Key_eq_dec (map fst m)
    && forallb (fun kv => wf_value (snd kv)) m.
Proof. reflexivity. Qed.

Lemma wf_mapping_set (k : Key) (v : Value) (m : Mapping) :
  wf_mapping m = true -> wf_value v = true ->
  wf_mapping (dict_set Key_eq_dec k v m) = true.
Proof.
  rewrite !wf_mapping_unfold, !andb_true_iff, !nodup_keys_spec.
  intros [Hnd Hall] Hv. split.
  - apply dict_set_keys_nodup, Hnd.
  - apply forallb_dict_set; auto.
Qed.

Lemma wf_mapping_get (k : Key) (sub m : Mapping) :
  wf_mapping m = true -> dict_get Key_eq_dec k m = Some (Sub sub) ->
  wf_mapping sub = true.
Proof.
  rewrite wf_mapping_unfold, andb_true_iff. intros [_ Hall] Hg.
  apply (forallb_dict_get Key_eq_dec _ k (Sub sub) m Hall Hg).
Qed.

Lemma no_empty_sub_get (k : Key) (sub m : Mapping) :
  no_empty_sub m = true -> dict_get Key_eq_dec k m = Some (Sub sub) ->
  sub <> [] /\ no_empty_sub sub = true.
Proof.
  intros Hall Hg.
  pose proof (forallb_dict_get Key_eq_dec _ k (Sub sub) m Hall Hg) as H.
  simpl in H. apply andb_true_iff in H. destruct H as [Hn Hs].
  split; [|exact Hs]. intros ->. discriminate.
Qed.

Lemma no_empty_sub_set (k : Key) (sub m : Mapping) :
  no_empty_sub m = true -> sub <> [] -> no_empty_sub sub = true ->
  no_empty_sub (dict_set Key_eq_dec k (Sub sub) m) = true.
Proof.
  intros Hm Hn Hs. apply forallb_dict_set; auto.
  simpl. apply andb_true_iff. split; [|exact Hs].
  destruct sub; [contradiction | reflexivity].
Qed.

(** Placing an entry keeps every mapping a dictionary ... *)
Lemma insert_path_wf (p : PathParts) :
  forall (m m' : Mapping) (x : StateLeaf),
    wf_mapping m = true -> insert_path p x m = Ok m' -> wf_mapping m' = true.
Proof.
  induction p as [|k p IH]; intros m m' x Hwf H; [discriminate|].
  destruct p as [|k2 p].
  - rewrite insert_path_single in H. inversion H; subst.
    apply wf_mapping_set; auto.
  - rewrite insert_path_deeper in H.
    destruct (dict_get Key_eq_dec k m) as [[y|cursor]|] eqn:Hg;
      [discriminate| |];
      apply bind_ok_inv in H; destruct H as [sub [Hsub Hm]];
      inversion Hm; subst; apply wf_mapping_set; auto.
    + eapply IH; [|exact Hsub]. eapply wf_mapping_get; eauto.
    + eapply IH; [|exact Hsub]. reflexivity.
Qed.

(** ... and creates no empty sub-container. *)
Lemma insert_path_no_empty (p : PathParts) :
  forall (m m' : Mapping) (x : StateLeaf),
    no_empty_sub m = true -> insert_path p x m = Ok m' ->
    no_empty_sub m' = true.
Proof.
  induction p as [|k p IH]; intros m m' x Hne H; [discriminate|].
  destruct p as [|k2 p].
  - rewrite insert_path_single in H. inversion H; subst.
    apply forallb_dict_set; auto.
  - rewrite insert_path_deeper in H.
    destruct (dict_get Key_eq_dec k m) as [[y|cursor]|] eqn:Hg;
      [discriminate| |];
      apply bind_ok_inv in H; destruct H as [sub [Hsub Hm]];
      inversion Hm; subst; apply no_empty_sub_set; auto;
      try (eapply insert_path_not_nil; exact Hsub).
    + eapply IH; [|exact Hsub]. eapply no_empty_sub_get; eauto.
    + eapply IH; [|exact Hsub]. reflexivity.
Qed.

(** A non-empty container without empty sub-containers has a leaf. *)
Lemma no_empty_has_leaf (m : Mapping) :
  m <> [] -> no_empty_sub m = true ->
  exists q y, leaf_at m q = Some y.
Proof.
  induction m as [|k x m IHm|k sub m IHsub IHm] using Mapping_nested_ind;
    intros Hn Hne.
  - contradiction.
  - exists [k], x. apply leaf_at_cons_leaf.
  - simpl in Hne. rewrite !andb_true_iff in Hne.
    destruct Hne as [[Hnil Hsub] _].
    destruct IHsub as [q [y Hq]]; auto.
    { intros ->. discriminate. }
    exists (k :: q), y. rewrite leaf_at_cons_sub. exact Hq.
Qed.

Lemma leaf_at_not_empty (m : Mapping) (q : PathParts) (y : StateLeaf) :
  leaf_at m q = Some y -> q <> [].
Proof. intros H ->. discriminate. Qed.

(** An entry is placed unless its path is empty or runs through a
    leaf. *)
Lemma insert_path_total (p : PathParts) :
  forall (m : Mapping) (x : StateLeaf),
    p <> [] ->
    (forall q y, leaf_at m q = Some y -> strict_prefix q p = false) ->
    exists m', insert_path p x m = Ok m'.
Proof.
  induction p as [|k p IH]; intros m x Hp Hfree; [contradiction|].
  destruct p as [|k2 p].
  - rewrite insert_path_single. eauto.
  - rewrite insert_path_deeper.
    destruct (dict_get Key_eq_dec k m) as [[y|cursor]|] eqn:Hg.
    + exfalso. specialize (Hfree [k] y).
      rewrite leaf_at_step, Hg in Hfree.
      rewrite strict_prefix_single in Hfree by discriminate.
      specialize (Hfree eq_refl). discriminate.
    + destruct (IH cursor x) as [sub Hsub].
      * discriminate.
      * intros q y Hq. specialize (Hfree (k :: q) y).
        rewrite leaf_at_step, Hg, strict_prefix_same_head in Hfree. auto.
      * rewrite Hsub. simpl. eauto.
    + destruct (IH [] x) as [sub Hsub].
      * discriminate.
      * intros q y Hq. rewrite leaf_at_nil in Hq. discriminate.
      * rewrite Hsub. simpl. eauto.
Qed.

(* ================================================================= *)
(** ** Unflattening *)

Local Notation insert_all xs start :=
  (fold_left (fun acc px => m <- acc ;; insert_path (fst px) (snd px) m)
             xs start).

Lemma insert_all_err (xs : FlatState) (e : Error) :
  insert_all xs (Err e) = Err e.
Proof. induction xs as [|px xs IH]; simpl; auto. Qed.

Lemma insert_all_cons (p : PathParts) (x : StateLeaf) (xs : FlatState)
    (m : Mapping) :
  insert_all ((p, x) :: xs) (Ok m) = insert_all xs (insert_path p x m).
Proof. reflexivity. Qed.

Lemma unflatten_dict_unfold (xs : FlatState) :
  unflatten_dict xs = insert_all xs (Ok []).
Proof. reflexivity. Qed.

(** Acceptance: entries with distinct, non-empty, prefix-free paths that
    conflict with no leaf already placed are all placed, and the result
    holds exactly the old leaves and the new entries. *)
Lemma insert_all_accept (xs : FlatState) :
  forall m : Mapping,
    wf_mapping m = true ->
    no_empty_sub m = true ->
    conforming xs = true ->
    (forall q y r, leaf_at m q = Some y -> In r (map fst xs) ->
                   q <> r /\ strict_prefix q r = false /\
                   strict_prefix r q = false) ->
    exists t,
      insert_all xs (Ok m) = Ok t /\
      wf_mapping t = true /\
      no_empty_sub t = true /\
      forall p, leaf_at t p
                = match dict_get PathParts_eq_dec p xs with
                  | Some x => Some x
                  | None => leaf_at m p
                  end.
Proof.
  induction xs as [|[p x] xs IH]; intros m Hwf Hne Hconf Hfree.
  - exists m. simpl. auto.
  - unfold conforming in Hconf. simpl map in Hconf.
    rewrite !andb_true_iff in Hconf. destruct Hconf as [[Hnd Hnn] Hpf].
    apply nodup_keys_spec in Hnd. inversion Hnd as [|? ? Hnotin Hnd']; subst.
    simpl in Hnn. apply andb_true_iff in Hnn. destruct Hnn as [Hp Hnn].
    rewrite prefix_free_spec in Hpf.
    assert (Hclear : forall q y, leaf_at m q = Some y ->
                                 strict_prefix p q = false).
    { intros q y Hq. destruct (Hfree q y p Hq) as [_ [_ H2]]; simpl; auto. }
    destruct (insert_path_total p m x) as [m' Hins].
    { destruct p; [discriminate | discriminate]. }
    { intros q y Hq. destruct (Hfree q y p Hq) as [_ [H1 _]]; simpl; auto. }
    rewrite insert_all_cons, Hins.
    destruct (IH m') as [t [Ht [Hwt [Hnt Hleaf]]]].
    + eapply insert_path_wf; eauto.
    + eapply insert_path_no_empty; eauto.
    + unfold conforming. rewrite !andb_true_iff. repeat split; auto.
      * apply nodup_keys_spec, Hnd'.
      * apply prefix_free_spec. intros a b Ha Hb. apply Hpf; simpl; auto.
    + intros q y r Hq Hr.
      destruct (PathParts_eq_dec q p) as [->|Hqp].
      * repeat split.
        -- intros ->. contradiction.
        -- apply Hpf; simpl; auto.
        -- apply Hpf; simpl; auto.
      * assert (Hpq : strict_prefix p q = false).
        { destruct (strict_prefix p q) eqn:E; auto.
          rewrite (insert_path_leaf_at_below p m m' x q Hins E) in Hq.
          discriminate. }
        rewrite (insert_path_leaf_at_other p m m' x q Hins Hqp Hpq) in Hq.
        apply (Hfree q y r Hq). simpl. auto.
    + exists t. repeat split; auto. intros q. rewrite Hleaf. simpl.
      destruct (PathParts_eq_dec q p) as [->|Hqp].
      * assert (Hnone : dict_get PathParts_eq_dec p xs = None)
          by (apply dict_get_none_keys; exact Hnotin).
        rewrite Hnone. eapply insert_path_leaf_at_same; eauto.
      * destruct (dict_get PathParts_eq_dec q xs); auto.
        destruct (strict_prefix p q) eqn:E.
        -- rewrite (insert_path_leaf_at_below p m m' x q Hins E).
           destruct (leaf_at m q) as [y|] eqn:Hq; auto.
           rewrite (Hclear q y Hq) in E. discriminate.
        -- eapply insert_path_leaf_at_other; eauto.
Qed.

Lemma insert_all_app (xs ys : FlatState) (start : result Mapping) :
  insert_all (xs ++ ys) start = insert_all ys (insert_all xs start).
Proof. apply fold_left_app. Qed.

Lemma insert_all_ok_inv (xs : FlatState) (p : PathParts) (x : StateLeaf)
    (m t : Mapping) :
  insert_all ((p, x) :: xs) (Ok m) = Ok t ->
  exists m', insert_path p x m = Ok m' /\ insert_all xs (Ok m') = Ok t.
Proof.
  rewrite insert_all_cons.
  destruct (insert_path p x m) as [m'|e]; [eauto|].
  rewrite insert_all_err. discriminate.
Qed.

Lemma dict_set_get_same {K V : Type} (dec : forall a b : K, {a = b} + {a <> b})
    (k : K) (v : V) (d : list (K * V)) :
  dict_get dec k d = Some v -> dict_set dec k v d = d.
Proof.
  induction d as [|[k' v'] d IH]; simpl; [discriminate|].
  destruct (dec k k'); intros H.
  - congruence.
  - rewrite IH; auto.
Qed.

(** Placing below [k] the entries of a sub-container rebuilds that
    sub-container under [k]. *)
Lemma insert_all_under (k : Key) (L : FlatState) :
  forall (sub0 sub1 m : Mapping),
    insert_all L (Ok sub0) = Ok sub1 ->
    (forall p, In p (map fst L) -> p <> []) ->
    dict_get Key_eq_dec k m = Some (Sub sub0)
    \/ (dict_get Key_eq_dec k m = None /\ sub0 = [] /\ L <> []) ->
    insert_all (map (prepend k) L) (Ok m)
    = Ok (dict_set Key_eq_dec k (Sub sub1) m).
Proof.
  induction L as [|[p x] L IH]; intros sub0 sub1 m Hall Hnn Hk.
  - simpl in Hall. inversion Hall; subst.
    destruct Hk as [Hk|[_ [_ Hk]]]; [|contradiction].
    simpl. rewrite (dict_set_get_same Key_eq_dec k (Sub sub1) m Hk).
    reflexivity.
  - apply insert_all_ok_inv in Hall. destruct Hall as [s' [Hins Hall]].
    destruct p as [|k2 p]; [exfalso; apply (Hnn []); simpl; auto|].
    simpl map. rewrite insert_all_cons. simpl fst. simpl snd.
    rewrite insert_path_deeper.
    assert (Hstep :
      match dict_get Key_eq_dec k m with
      | None =>
          sub <- insert_path (k2 :: p) x [] ;;
          Ok (dict_set Key_eq_dec k (Sub sub) m)
      | Some (Sub cursor) =>
          sub <- insert_path (k2 :: p) x cursor ;;
          Ok (dict_set Key_eq_dec k (Sub sub) m)
      | Some (Leaf _) => Err (TypeError k)
      end = Ok (dict_set Key_eq_dec k (Sub s') m)).
    { destruct Hk as [Hk|[Hk [-> _]]]; rewrite Hk, Hins; reflexivity. }
    rewrite Hstep.
    rewrite (IH s' sub1 (dict_set Key_eq_dec k (Sub s') m) Hall).
    + rewrite dict_set_set. reflexivity.
    + intros q Hq. apply Hnn. simpl. auto.
    + left. apply dict_get_set_same.
Qed.

Lemma no_empty_sub_cons (k : Key) (v : Value) (m : Mapping) :
  no_empty_sub ((k, v) :: m) = true <->
  no_empty_value v = true /\ no_empty_sub m = true.
Proof. unfold no_empty_sub. simpl. apply andb_true_iff. Qed.

Lemma no_empty_value_sub (sub : Mapping) :
  no_empty_value (Sub sub) = true <-> sub <> [] /\ no_empty_sub sub = true.
Proof.
  simpl. rewrite andb_true_iff. unfold no_empty_sub.
  destruct sub; simpl; split; intros [H1 H2]; split; auto; congruence.
Qed.

(** Rebuilding a container from its own entries, on top of a container
    with other keys, appends it unchanged. *)
Lemma insert_all_flatten (m : Mapping) :
  wf_mapping m = true ->
  no_empty_sub m = true ->
  forall acc : Mapping,
    (forall k, In k (map fst m) -> ~ In k (map fst acc)) ->
    insert_all (flatten_dict m) (Ok acc) = Ok (acc ++ m).
Proof.
  induction m as [|k x m IHm|k sub m IHsub IHm] using Mapping_nested_ind;
    intros Hwf Hne acc Hdisj.
  - simpl. rewrite app_nil_r. reflexivity.
  - apply wf_mapping_cons in Hwf. destruct Hwf as [Hk [_ Hm]].
    apply no_empty_sub_cons in Hne. destruct Hne as [_ Hne].
    rewrite flatten_dict_leaf, insert_all_cons, insert_path_single.
    assert (Hnone : dict_get Key_eq_dec k acc = None).
    { apply dict_get_none_keys. apply Hdisj. simpl. auto. }
    rewrite (dict_set_absent Key_eq_dec k (Leaf x) acc Hnone).
    rewrite (IHm Hm Hne).
    + rewrite <- app_assoc. reflexivity.
    + intros k' Hk' Hin. rewrite map_app, in_app_iff in Hin.
      destruct Hin as [Hin|[<-|[]]]; [|contradiction].
      apply (Hdisj k'); simpl; auto.
  - apply wf_mapping_cons in Hwf. destruct Hwf as [Hk [Hs Hm]].
    apply no_empty_sub_cons in Hne. destruct Hne as [Hsub Hne].
    apply no_empty_value_sub in Hsub. destruct Hsub as [Hsn Hsne].
    rewrite flatten_dict_sub, insert_all_app.
    assert (Hnone : dict_get Key_eq_dec k acc = None).
    { apply dict_get_none_keys. apply Hdisj. simpl. auto. }
    rewrite (insert_all_under k (flatten_dict sub) [] sub acc).
    + rewrite (dict_set_absent Key_eq_dec k (Sub sub) acc Hnone).
      rewrite (IHm Hm Hne).
      * rewrite <- app_assoc. reflexivity.
      * intros k' Hk' Hin. rewrite map_app, in_app_iff in Hin.
        destruct Hin as [Hin|[<-|[]]]; [|contradiction].
        apply (Hdisj k'); simpl; auto.
    + apply (IHsub Hs Hsne []). intros k' _ [].
    + intros p Hp ->. apply in_paths in Hp. destruct Hp as [y Hp].
      apply flatten_dict_head in Hp. destruct Hp as [k' [p' [E _]]].
      discriminate.
    + right. repeat split; auto.
      destruct (no_empty_has_leaf sub Hsn Hsne) as [q [y Hq]].
      apply (flatten_dict_leaf_at sub Hs) in Hq.
      intros E. rewrite E in Hq. destruct Hq.
Qed.

(** Unflattening undoes flattening, insertion order included, as long as
    no sub-container is empty. *)
Lemma unflatten_flatten_dict (m : Mapping) :
  wf_mapping m = true -> no_empty_sub m = true ->
  unflatten_dict (flatten_dict m) = Ok m.
Proof.
  intros Hwf Hne. rewrite unflatten_dict_unfold.
  rewrite (insert_all_flatten m Hwf Hne []); [reflexivity|].
  intros k _ [].
Qed.

(** [unflatten_dict] accepts a conforming flat state and builds the
    container that holds exactly its entries. *)
Lemma unflatten_dict_accept (xs : FlatState) :
  conforming xs = true ->
  exists t,
    unflatten_dict xs = Ok t /\
    wf_mapping t = true /\
    no_empty_sub t = true /\
    (forall p, leaf_at t p = dict_get PathParts_eq_dec p xs) /\
    Permutation (flatten_dict t) xs.
Proof.
  intros Hconf.
  destruct (insert_all_accept xs [] eq_refl eq_refl Hconf)
    as [t [Ht [Hwf [Hne Hleaf]]]].
  { intros q y r Hq. rewrite leaf_at_nil in Hq. discriminate. }
  assert (Hleaf' : forall p, leaf_at t p = dict_get PathParts_eq_dec p xs).
  { intros p. rewrite Hleaf, leaf_at_nil.
    destruct (dict_get PathParts_eq_dec p xs); reflexivity. }
  exists t. repeat split; auto.
  unfold conforming in Hconf. rewrite !andb_true_iff in Hconf.
  destruct Hconf as [[Hnd _] _]. apply nodup_keys_spec in Hnd.
  apply NoDup_Permutation.
  - apply flatten_dict_nodup, Hwf.
  - apply (NoDup_map_inv fst), Hnd.
  - intros [p x]. rewrite (flatten_dict_leaf_at t Hwf), Hleaf'. split.
    + apply dict_get_some_in.
    + apply dict_get_in_nodup, Hnd.
Qed.

(* ================================================================= *)
(** ** Partitioning *)

Local Notation Pred := (PathParts -> StateLeaf -> bool).
Local Notation matched_by predicates j :=
  (fun pv : PathParts * StateLeaf =>
     first_match predicates (fst pv) (snd pv) =? j).

Lemma first_match_le (predicates : list Pred) (path : PathParts)
    (value : StateLeaf) :
  first_match predicates path value <= length predicates.
Proof.
  induction predicates as [|f fs IH]; simpl; [lia|].
  destruct (f path value); lia.
Qed.

(** [first_match] returns the index of the first predicate that holds,
    and the number of predicates when none holds. *)
Lemma first_match_spec (predicates : list Pred) (d : Pred) (path : PathParts)
    (value : StateLeaf) :
  forall i,
    first_match predicates path value = i <->
    i <= length predicates /\
    (forall j, j < i -> nth j predicates d path value = false) /\
    (i < length predicates -> nth i predicates d path value = true).
Proof.
  induction predicates as [|f fs IH]; intros i; simpl.
  - split.
    + intros <-. repeat split; auto; intros; lia.
    + intros [H _]. lia.
  - destruct (f path value) eqn:Ef.
    + split.
      * intros <-. repeat split; auto; try lia; intros; lia.
      * intros [_ [Hlt _]]. destruct i as [|i]; auto.
        specialize (Hlt 0 (Nat.lt_0_succ i)). simpl in Hlt. congruence.
    + destruct i as [|i].
      * split; [discriminate|]. intros [_ [_ H]].
        specialize (H (Nat.lt_0_succ _)). congruence.
      * split.
        -- intros H. injection H as H. apply IH in H.
           destruct H as [H1 [H2 H3]]. repeat split; try lia.
           ++ intros [|j] Hj; auto. apply H2. lia.
           ++ intros Hi. apply H3. lia.
        -- intros [H1 [H2 H3]]. f_equal. apply IH. repeat split; try lia.
           ++ intros j Hj. apply (H2 (S j)). lia.
           ++ intros Hi. apply H3. lia.
Qed.

Lemma bucket_set_length (i : nat) (path : PathParts) (value : StateLeaf)
    (flat_states : list FlatState) :
  length (bucket_set i path value flat_states) = length flat_states.
Proof.
  revert i. induction flat_states as [|fs rest IH]; intros [|i]; simpl; auto.
Qed.

Lemma bucket_set_nth_same (i : nat) (path : PathParts) (value : StateLeaf)
    (flat_states : list FlatState) :
  i < length flat_states ->
  nth i (bucket_set i path value flat_states) []
  = dict_set PathParts_eq_dec path value (nth i flat_states []).
Proof.
  revert i. induction flat_states as [|fs rest IH]; intros [|i] Hi;
    simpl in *; try lia; auto.
  apply IH. lia.
Qed.

Lemma bucket_set_nth_other (i j : nat) (path : PathParts) (value : StateLeaf)
    (flat_states : list FlatState) :
  j <> i ->
  nth j (bucket_set i path value flat_states) [] = nth j flat_states [].
Proof.
  revert i j. induction flat_states as [|fs rest IH]; intros [|i] [|j] Hne;
    simpl; auto; try lia.
Qed.

(** With distinct paths, every assignment into a bucket appends: bucket
    [j] collects, in order, the entries whose first match is [j]. *)
Lemma partition_fold_nth (predicates : list Pred) (flat : FlatState) :
  forall flat_states : list FlatState,
    NoDup (map fst flat) ->
    (forall j p, In p (map fst (nth j flat_states [])) ->
                 ~ In p (map fst flat)) ->
    forall j, j < length flat_states ->
      nth j (fold_left
               (fun flat_states pv =>
                  bucket_set (first_match predicates (fst pv) (snd pv))
                             (fst pv) (snd pv) flat_states)
               flat flat_states) []
      = nth j flat_states [] ++ filter (matched_by predicates j) flat.
Proof.
  induction flat as [|[p v] flat IH]; intros flat_states Hnd Hfresh j Hj.
  - simpl. rewrite app_nil_r. reflexivity.
  - simpl map in Hnd. inversion Hnd as [|? ? Hp Hnd']; subst.
    simpl fold_left. rewrite IH; auto.
    + simpl filter. simpl fst. simpl snd.
      destruct (Nat.eqb_spec (first_match predicates p v) j) as [E|E].
      * rewrite E, (bucket_set_nth_same j p v flat_states Hj).
        rewrite dict_set_absent, <- app_assoc; [reflexivity|].
        apply dict_get_none_keys. intros Hin.
        apply (Hfresh j p Hin). simpl. auto.
      * rewrite bucket_set_nth_other by congruence. reflexivity.
    + intros j' q Hq Hin. simpl fst in Hq. simpl snd in Hq.
      destruct (Nat.eq_dec j' (first_match predicates p v)) as [->|Hne].
      * destruct (Nat.lt_ge_cases (first_match predicates p v)
                                  (length flat_states)) as [Hlt|Hge].
        -- rewrite bucket_set_nth_same in Hq by assumption.
           destruct (PathParts_eq_dec q p) as [->|Hqp]; [contradiction|].
           apply (Hfresh (first_match predicates p v) q); [|simpl; auto].
           apply dict_contains_in with (K_eq_dec := PathParts_eq_dec).
           apply (dict_contains_in PathParts_eq_dec) in Hq.
           unfold dict_contains in *.
           rewrite dict_get_set_other in Hq by congruence. exact Hq.
        -- rewrite nth_overflow in Hq; [destruct Hq|].
           rewrite bucket_set_length. exact Hge.
      * rewrite bucket_set_nth_other in Hq by assumption.
        apply (Hfresh j' q Hq). simpl. auto.
    + rewrite bucket_set_length. exact Hj.
Qed.

Lemma partition_flat_length (predicates : list Pred) (flat : FlatState) :
  length (partition_flat predicates flat) = length predicates + 1.
Proof.
  unfold partition_flat.
  generalize (repeat (@nil (PathParts * StateLeaf)) (length predicates + 1))
             (repeat_length (@nil (PathParts * StateLeaf))
                            (length predicates + 1)).
  induction flat as [|pv flat IH]; intros flat_states Hlen; simpl; auto.
  apply IH. rewrite bucket_set_length. exact Hlen.
Qed.

(** The flat states built by the second loop of [_split_state]. *)
Lemma partition_flat_seq (predicates : list Pred) (flat : FlatState) :
  NoDup (map fst flat) ->
  partition_flat predicates flat
  = map (fun j => filter (matched_by predicates j) flat)
        (seq 0 (length predicates + 1)).
Proof.
  intros Hnd.
  apply (nth_ext _ _ [] []).
  - rewrite partition_flat_length, length_map, length_seq. reflexivity.
  - intros j Hj. rewrite partition_flat_length in Hj.
    unfold partition_flat. rewrite partition_fold_nth; auto.
    + rewrite nth_repeat. simpl.
      rewrite (nth_indep _ [] (filter (matched_by predicates 0) flat))
        by (rewrite length_map, length_seq; exact Hj).
      rewrite (map_nth (fun j => filter (matched_by predicates j) flat)).
      rewrite seq_nth by exact Hj. reflexivity.
    + intros j' p Hp. rewrite nth_repeat in Hp. destruct Hp.
    + rewrite repeat_length. exact Hj.
Qed.

Lemma filter_lt_succ {A : Type} (g : A -> nat) (n : nat) (l : list A) :
  length (filter (fun x => g x <? S n) l)
  = length (filter (fun x => g x <? n) l)
    + length (filter (fun x => g x =? n) l).
Proof.
  induction l as [|a l IH]; simpl; auto.
  destruct (Nat.ltb_spec (g a) (S n)), (Nat.ltb_spec (g a) n),
    (Nat.eqb_spec (g a) n); simpl; lia.
Qed.

(** The buckets below [n] hold together the entries whose index is
    below [n]. *)
Lemma filter_index_sum {A : Type} (g : A -> nat) (n : nat) (l : list A) :
  list_sum (map (fun j => length (filter (fun x => g x =? j) l)) (seq 0 n))
  = length (filter (fun x => g x <? n) l).
Proof.
  induction n as [|n IH].
  - simpl. induction l; simpl; auto.
  - rewrite seq_S, map_app, list_sum_app, IH, filter_lt_succ. simpl. lia.
Qed.

Lemma filter_all {A : Type} (f : A -> bool) (l : list A) :
  (forall x, In x l -> f x = true) -> filter f l = l.
Proof.
  induction l as [|a l IH]; intros H; simpl; auto.
  rewrite (H a) by (simpl; auto). f_equal. apply IH.
  intros x Hx. apply H. simpl. auto.
Qed.

Lemma filter_none {A : Type} (f : A -> bool) (l : list A) :
  (forall x, In x l -> f x = false) -> filter f l = [].
Proof.
  induction l as [|a l IH]; intros H; simpl; auto.
  rewrite (H a) by (simpl; auto). apply IH.
  intros x Hx. apply H. simpl. auto.
Qed.

(** A sub-dictionary of a conforming flat state is conforming. *)
Lemma conforming_filter (f : PathParts * StateLeaf -> bool) (xs : FlatState) :
  conforming xs = true -> conforming (filter f xs) = true.
Proof.
  unfold conforming. rewrite !andb_true_iff, !nodup_keys_spec.
  rewrite !prefix_free_spec, !forallb_forall.
  intros [[Hnd Hnn] Hpf].
  assert (Hincl : forall p, In p (map fst (filter f xs)) -> In p (map fst xs)).
  { intros p Hp. apply in_map_iff in Hp. destruct Hp as [px [<- Hin]].
    apply filter_In in Hin. apply in_map. tauto. }
  repeat split; auto.
  clear Hnn Hpf Hincl. induction xs as [|[p x] xs IH]; simpl; [constructor|].
  simpl in Hnd. inversion Hnd as [|? ? Hp Hnd']; subst.
  destruct (f (p, x)); simpl; auto.
  constructor; auto. intros Hin. apply Hp.
  apply in_map_iff in Hin. destruct Hin as [px [<- Hin]].
  apply filter_In in Hin. apply in_map. tauto.
Qed.

(** [mapM] succeeds when its function does, element by element. *)
Lemma mapM_exists {A B : Type} (f : A -> result B) (Q : A -> B -> Prop)
    (xs : list A) :
  (forall x, In x xs -> exists y, f x = Ok y /\ Q x y) ->
  exists ys, mapM f xs = Ok ys /\ Forall2 Q xs ys.
Proof.
  induction xs as [|x xs IH]; intros H; simpl.
  - exists []. auto.
  - destruct (H x) as [y [Hy HQ]]; [simpl; auto|].
    destruct IH as [ys [Hys HF]]; [intros z Hz; apply H; simpl; auto|].
    exists (y :: ys). rewrite Hy, Hys. simpl. auto.
Qed.

Lemma Forall2_nth {A B : Type} (Q : A -> B -> Prop) (xs : list A)
    (ys : list B) (dx : A) (dy : B) :
  Forall2 Q xs ys ->
  forall i, i < length xs -> Q (nth i xs dx) (nth i ys dy).
Proof.
  induction 1 as [|x y xs ys HQ HF IH]; intros i Hi; simpl in *; [lia|].
  destruct i as [|i]; auto. apply IH. lia.
Qed.

(* ================================================================= *)
(** ** Validation of the filter list *)

Lemma misplaced_wildcard_at (done todo : list Filter) (f : Filter) :
  misplaced_wildcard (done ++ f :: todo) (length done) f
  = is_wildcard f && negb (forallb is_wildcard todo).
Proof.
  unfold misplaced_wildcard.
  assert (Hskip : skipn (length done + 1) (done ++ f :: todo) = todo).
  { rewrite skipn_app, skipn_all2 by lia.
    replace (length done + 1 - length done) with 1 by lia. reflexivity. }
  rewrite Hskip, length_app. simpl length.
  destruct todo as [|g todo].
  - simpl. rewrite !andb_false_r. reflexivity.
  - match goal with
    | |- context [?a =? ?b] =>
        destruct (Nat.eqb_spec a b) as [E|E]; [simpl in E; lia|]
    end.
    destruct (is_wildcard f); reflexivity.
Qed.

Lemma check_filters_from_step (done todo : list Filter) (f : Filter) :
  check_filters_from (done ++ f :: todo) (length done) (f :: todo)
  = if is_wildcard f && negb (forallb is_wildcard todo)
    then Err (OrderingError (length done))
    else check_filters_from ((done ++ [f]) ++ todo) (length (done ++ [f])) todo.
Proof.
  simpl check_filters_from. rewrite misplaced_wildcard_at.
  rewrite <- app_assoc, length_app. simpl.
  replace (length done + 1) with (S (length done)) by lia. reflexivity.
Qed.

Lemma check_filters_from_ok_iff (todo : list Filter) :
  forall done,
    check_filters_from (done ++ todo) (length done) todo = Ok tt <->
    wildcards_last todo = true.
Proof.
  induction todo as [|f todo IH]; intros done.
  - simpl. tauto.
  - rewrite check_filters_from_step. simpl wildcards_last.
    rewrite andb_true_iff, <- (IH (done ++ [f])).
    destruct (is_wildcard f), (forallb is_wildcard todo); simpl;
      split; try tauto; try discriminate.
    intros [H _]. discriminate.
Qed.

(** Validation either passes or raises the ordering error at the index
    of a wildcard. *)
Lemma check_filters_from_cases (d : Filter) (todo : list Filter) :
  forall done,
    check_filters_from (done ++ todo) (length done) todo = Ok tt
    \/ exists i,
        i < length todo /\ is_wildcard (nth i todo d) = true /\
        check_filters_from (done ++ todo) (length done) todo
        = Err (OrderingError (length done + i)).
Proof.
  induction todo as [|f todo IH]; intros done.
  - left. reflexivity.
  - rewrite check_filters_from_step.
    destruct (is_wildcard f) eqn:Ew; simpl andb.
    + destruct (forallb is_wildcard todo) eqn:Ea; simpl negb.
      * destruct (IH (done ++ [f])) as [H|[i [Hi [Hw H]]]]; [left; exact H|].
        right. exists (S i). rewrite H, length_app. simpl.
        repeat split; auto; try lia. do 2 f_equal. lia.
      * right. exists 0. simpl. rewrite Nat.add_0_r.
        repeat split; auto. lia.
    + destruct (IH (done ++ [f])) as [H|[i [Hi [Hw H]]]]; [left; exact H|].
      right. exists (S i). rewrite H, length_app. simpl.
      repeat split; auto; try lia. do 2 f_equal. lia.
Qed.

Lemma check_filters_ok_iff (filters : list Filter) :
  check_filters filters = Ok tt <-> wildcards_last filters = true.
Proof. apply (check_filters_from_ok_iff filters []). Qed.

Lemma check_filters_cases (d : Filter) (filters : list Filter) :
  check_filters filters = Ok tt
  \/ exists i,
      i < length filters /\ is_wildcard (nth i filters d) = true /\
      check_filters filters = Err (OrderingError i).
Proof. apply (check_filters_from_cases d filters []). Qed.

(** A wildcard followed, anywhere behind it, by a filter that is not a
    wildcard breaks the ordering rule. *)
Lemma wildcards_last_false (d : Filter) (filters : list Filter) :
  forall i j,
    i < j -> j < length filters ->
    is_wildcard (nth i filters d) = true ->
    is_wildcard (nth j filters d) = false ->
    wildcards_last filters = false.
Proof.
  induction filters as [|f fs IH]; intros i j Hij Hj Hi Hjw; simpl in Hj;
    [lia|].
  simpl. destruct j as [|j]; [lia|]. simpl in Hjw.
  destruct i as [|i]; simpl in Hi.
  - rewrite Hi. simpl.
    assert (Hall : forallb is_wildcard fs = false).
    { destruct (forallb is_wildcard fs) eqn:E; auto.
      rewrite forallb_forall in E.
      rewrite (E (nth j fs d)) in Hjw; [discriminate|].
      apply nth_In. lia. }
    rewrite Hall. reflexivity.
  - rewrite (IH i j) by (auto; lia). apply andb_false_r.
Qed.

Lemma wildcards_last_all (filters : list Filter) :
  forallb is_wildcard filters = true -> wildcards_last filters = true.
Proof.
  induction filters as [|f fs IH]; simpl; auto.
  rewrite andb_true_iff. intros [Hf Hfs].
  rewrite Hfs, orb_true_r, IH; auto.
Qed.

(** Predicates first, then any number of wildcards: the ordering rule
    holds. *)
Lemma wildcards_last_app (preds wilds : list Filter) :
  forallb (fun f => negb (is_wildcard f)) preds = true ->
  forallb is_wildcard wilds = true ->
  wildcards_last (preds ++ wilds) = true.
Proof.
  intros Hp Hw. induction preds as [|f fs IH]; simpl.
  - apply wildcards_last_all, Hw.
  - simpl in Hp. apply andb_true_iff in Hp. destruct Hp as [Hf Hfs].
    rewrite Hf, IH; auto.
Qed.

Lemma wildcards_last_none (filters : list Filter) :
  forallb (fun f => negb (is_wildcard f)) filters = true ->
  wildcards_last filters = true.
Proof.
  intros H. rewrite <- (app_nil_r filters).
  apply wildcards_last_app; auto.
Qed.

(* ================================================================= *)
(** ** The result of [_split_state] *)

Local Notation bucket_of self filters j :=
  (filter (matched_by (map to_predicate filters) j) (State_flat_state self)).

(** [s] is the state built from the flat state [b]. *)
Local Notation built_from b s :=
  (State_from_flat_path b = Ok s /\ well_formed s /\
   Permutation (State_flat_state s) b).

Lemma from_flat_path_accept (xs : FlatState) :
  conforming xs = true -> exists s, built_from xs s.
Proof.
  intros Hc. destruct (unflatten_dict_accept xs Hc) as [t [Ht [Hwf [_ [_ Hp]]]]].
  exists (mkState t). unfold State_from_flat_path. rewrite Ht.
  repeat split; auto.
Qed.

Lemma nth_map_seq {A : Type} (h : nat -> A) (m i : nat) (d : A) :
  i < m -> nth i (map h (seq 0 m)) d = h i.
Proof.
  intros Hi. rewrite (nth_indep _ d (h 0)) by (rewrite length_map, length_seq; lia).
  rewrite map_nth, seq_nth by lia. reflexivity.
Qed.

(** With a well-formed state and a filter list that passes validation,
    [_split_state] returns one state per filter, built from that
    filter's bucket, followed by the state of the remainder. *)
Lemma split_state_ok (self : State) (filters : list Filter) :
  well_formed self ->
  check_filters filters = Ok tt ->
  exists (states : list State) (rest : State),
    _split_state self filters = Ok (states ++ [rest]) /\
    length states = length filters /\
    (forall i, i < length filters ->
               built_from (bucket_of self filters i)
                          (nth i states (mkState []))) /\
    built_from (bucket_of self filters (length filters)) rest.
Proof.
  intros Hwf Hcheck. unfold _split_state. rewrite Hcheck. simpl bind.
  rewrite partition_flat_seq by (apply flatten_dict_paths_nodup, Hwf).
  rewrite length_map.
  replace (length filters + 1) with (S (length filters)) by lia.
  rewrite seq_S, map_app. simpl map at 2. simpl Nat.add.
  destruct (mapM_exists State_from_flat_path
              (fun b s => built_from b s)
              (map (fun j => bucket_of self filters j) (seq 0 (length filters))
               ++ [bucket_of self filters (length filters)]))
    as [all [Hall HF]].
  { intros b Hb.
    assert (Hex : exists j, b = bucket_of self filters j).
    { apply in_app_iff in Hb. destruct Hb as [Hb|[<-|[]]]; eauto.
      apply in_map_iff in Hb. destruct Hb as [j [<- _]]. eauto. }
    destruct Hex as [j ->].
    destruct (from_flat_path_accept (bucket_of self filters j)) as [s Hs].
    { apply conforming_filter. apply flatten_dict_conforming, Hwf. }
    exists s. split; [apply Hs | exact Hs]. }
  apply Forall2_app_inv_l in HF.
  destruct HF as [states [last_ [HF1 [HF2 ->]]]].
  inversion HF2 as [|? rest ? tl Hrest Hnil]; subst.
  inversion Hnil; subst.
  exists states, rest. split; [exact Hall|].
  pose proof (Forall2_length HF1) as Hlen.
  rewrite length_map, length_seq in Hlen.
  split; [symmetry; exact Hlen|]. split; [|exact Hrest].
  intros i Hi.
  pose proof (Forall2_nth _ _ _ [] (mkState []) HF1 i) as Hnth.
  rewrite length_map, length_seq in Hnth. specialize (Hnth Hi).
  rewrite (nth_map_seq (fun j => bucket_of self filters j)) in Hnth by exact Hi.
  exact Hnth.
Qed.

Lemma insert_all_not_nil (xs : FlatState) :
  forall m t : Mapping,
    insert_all xs (Ok m) = Ok t -> m <> [] \/ xs <> [] -> t <> [].
Proof.
  induction xs as [|[p x] xs IH]; intros m t H Hne.
  - simpl in H. inversion H; subst. destruct Hne; congruence.
  - apply insert_all_ok_inv in H. destruct H as [m' [Hins H]].
    apply (IH m' t H). left. eapply insert_path_not_nil; eauto.
Qed.

(** The state built from a flat state is empty exactly when the flat
    state is. *)
Lemma from_flat_path_bool (xs : FlatState) (s : State) :
  State_from_flat_path xs = Ok s -> State_bool s = negb (is_nil xs).
Proof.
  unfold State_from_flat_path. intros H.
  apply bind_ok_inv in H. destruct H as [t [Ht Hs]]. inversion Hs; subst.
  unfold State_bool, State_len. simpl raw_mapping.
  destruct xs as [|px xs].
  - inversion Ht; subst. reflexivity.
  - rewrite unflatten_dict_unfold in Ht.
    apply insert_all_not_nil in Ht; [|right; discriminate].
    destruct t; [contradiction | reflexivity].
Qed.

Lemma nodup_paths_functional (xs : FlatState) (p : PathParts)
    (x y : StateLeaf) :
  NoDup (map fst xs) -> In (p, x) xs -> In (p, y) xs -> x = y.
Proof.
  intros Hnd Hx Hy.
  apply (dict_get_in_nodup PathParts_eq_dec) in Hx; auto.
  apply (dict_get_in_nodup PathParts_eq_dec) in Hy; auto.
  congruence.
Qed.

Lemma last_nth {A : Type} (l : list A) (d : A) :
  last l d = nth (length l - 1) l d.
Proof.
  induction l as [|a l IH]; auto.
  destruct l as [|b l]; auto.
  change (last (a :: b :: l) d) with (last (b :: l) d). rewrite IH.
  simpl. rewrite Nat.sub_0_r. reflexivity.
Qed.

Lemma list_sum_nth {A : Type} (f : A -> nat) (g : nat -> nat) (l : list A)
    (d : A) :
  (forall i, i < length l -> f (nth i l d) = g i) ->
  list_sum (map f l) = list_sum (map g (seq 0 (length l))).
Proof.
  intros H. f_equal. apply (nth_ext _ _ 0 0).
  - rewrite !length_map, length_seq. reflexivity.
  - intros i Hi. rewrite length_map in Hi.
    rewrite (nth_map_seq g) by exact Hi.
    rewrite (nth_indep _ 0 (f d)) by (rewrite length_map; exact Hi).
    rewrite map_nth. apply H, Hi.
Qed.

(** What it means for an entry to land in bucket [i]: filter [i] is the
    first one whose predicate holds. *)
Lemma matched_by_spec (filters : list Filter) (d : Filter) (i : nat)
    (path : PathParts) (value : StateLeaf) :
  first_match (map to_predicate filters) path value = i <->
  i <= length filters /\
  (forall j, j < i -> to_predicate (nth j filters d) path value = false) /\
  (i < length filters -> to_predicate (nth i filters d) path value = true).
Proof.
  rewrite (first_match_spec _ (to_predicate d)), length_map.
  split; intros [H1 [H2 H3]]; repeat split; auto.
  - intros j Hj. rewrite <- (map_nth to_predicate). auto.
  - intros Hi. rewrite <- (map_nth to_predicate). auto.
  - intros j Hj. rewrite (map_nth to_predicate). auto.
  - intros Hi. rewrite (map_nth to_predicate). auto.
Qed.

Lemma in_bucket_of (self : State) (filters : list Filter) (d : Filter)
    (i : nat) (path : PathParts) (value : StateLeaf) :
  In (path, value) (bucket_of self filters i) <->
  In (path, value) (State_flat_state self) /\
  i <= length filters /\
  (forall j, j < i -> to_predicate (nth j filters d) path value = false) /\
  (i < length filters -> to_predicate (nth i filters d) path value = true).
Proof.
  rewrite filter_In. simpl fst. simpl snd.
  rewrite Nat.eqb_eq, (matched_by_spec filters d). tauto.
Qed.

Lemma to_predicate_wildcard (f : Filter) (path : PathParts)
    (value : StateLeaf) :
  is_wildcard f = true -> to_predicate f path value = true.
Proof. destruct f; simpl; auto; discriminate. Qed.

(** With a trailing wildcard every entry is matched by some filter. *)
Lemma wildcard_last_matches (first : Filter) (filters : list Filter)
    (path : PathParts) (value : StateLeaf) :
  is_wildcard (last (first :: filters) first) = true ->
  first_match (map to_predicate (first :: filters)) path value
  < length (first :: filters).
Proof.
  intros Hw.
  pose proof (first_match_le (map to_predicate (first :: filters)) path value)
    as Hle.
  rewrite length_map in Hle.
  destruct (Nat.eq_dec
              (first_match (map to_predicate (first :: filters)) path value)
              (length (first :: filters))) as [E|E]; [|lia].
  exfalso. apply (matched_by_spec (first :: filters) first) in E.
  destruct E as [_ [Hnone _]].
  specialize (Hnone (length (first :: filters) - 1)).
  rewrite <- last_nth in Hnone.
  rewrite to_predicate_wildcard in Hnone by exact Hw.
  simpl length in Hnone. assert (false = true) by (symmetry; apply Hnone; lia).
  discriminate.
Qed.

Lemma unpack_pack_states (states : list State) :
  unpack_states (pack_states states) = states.
Proof. destruct states as [|s [|s' ss]]; reflexivity. Qed.

(** One state per filter: a single state for one filter, a tuple for
    two or more. *)
Lemma pack_states_shape (states : list State) (first : Filter)
    (filters : list Filter) :
  length states = length (first :: filters) ->
  match filters with
  | [] => exists s, states = [s] /\ pack_states states = OneState s
  | _ :: _ => pack_states states = StateTuple states
  end.
Proof.
  intros Hlen. destruct filters as [|f fs].
  - destruct states as [|s [|s' ss]]; try discriminate. eauto.
  - destruct states as [|s [|s' ss]]; try discriminate. reflexivity.
Qed.

Lemma from_flat_path_empty (s : State) :
  State_from_flat_path [] = Ok s -> s = mkState [].
Proof. intros H. inversion H. reflexivity. Qed.

(** C2.  Partitioning puts every flattened (path, leaf) pair of a
    well-formed container into the bucket of the first filter, in list
    order, whose predicate holds (a wildcard holds for every pair), and
    the pairs no filter matches into the trailing remainder bucket.
    When the filter list passes the ordering validation, the states
    [_split_state] returns hold exactly these buckets; when it also ends
    in a wildcard, the remainder is empty and [split] returns exactly
    the states of the [n] buckets (the state itself for one filter, the
    tuple of the [n] states otherwise): their path sets are pairwise
    disjoint and their leaf counts add up to the number of leaves of the
    container. *)
Theorem split_partition_first_match (self : State) (first : Filter)
    (filters : list Filter) :
  well_formed self ->
  (forall f path value,
      is_wildcard f = true -> to_predicate f path value = true)
  /\
  (forall i path value,
      In (path, value)
         (nth i (partition_flat (map to_predicate (first :: filters))
                                (State_flat_state self)) []) <->
      In (path, value) (State_flat_state self) /\
      i <= length (first :: filters) /\
      (forall j, j < i ->
         to_predicate (nth j (first :: filters) first) path value = false) /\
      (i < length (first :: filters) ->
       to_predicate (nth i (first :: filters) first) path value = true))
  /\
  (check_filters (first :: filters) = Ok tt ->
   exists (states : list State) (rest : State),
     _split_state self (first :: filters) = Ok (states ++ [rest]) /\
     length states = length (first :: filters) /\
     (forall i path value,
         i < length (first :: filters) ->
         (In (path, value) (State_flat_state (nth i states (mkState []))) <->
          In (path, value) (State_flat_state self) /\
          to_predicate (nth i (first :: filters) first) path value = true /\
          forall j, j < i ->
            to_predicate (nth j (first :: filters) first) path value = false))
     /\
     (forall path value,
         In (path, value) (State_flat_state rest) <->
         In (path, value) (State_flat_state self) /\
         forall j, j < length (first :: filters) ->
           to_predicate (nth j (first :: filters) first) path value = false)
     /\
     (is_wildcard (last (first :: filters) first) = true ->
      rest = mkState [] /\
      (exists r,
          State_split self first filters = Ok r /\
          unpack_states r = states /\
          match filters with
          | [] => exists s, states = [s] /\ r = OneState s
          | _ :: _ => r = StateTuple states
          end) /\
      (forall i j path,
          i < j -> j < length (first :: filters) ->
          In path (map fst (State_flat_state (nth i states (mkState [])))) ->
          ~ In path (map fst (State_flat_state (nth j states (mkState []))))) /\
      list_sum (map (fun s => length (State_flat_state s)) states)
      = count_leaves self)).
Proof.
  intros Hwf. split; [intros f path value; apply to_predicate_wildcard|].
  split.
  { intros i path value.
    rewrite partition_flat_seq by (apply flatten_dict_paths_nodup, Hwf).
    rewrite length_map.
    destruct (Nat.lt_ge_cases i (length (first :: filters) + 1)) as [Hi|Hi].
    - rewrite (nth_map_seq
                 (fun j => bucket_of self (first :: filters) j)) by exact Hi.
      apply (in_bucket_of self (first :: filters) first).
    - rewrite nth_overflow by (rewrite length_map, length_seq; exact Hi).
      split; [intros [] | intros [_ [Hle _]]; lia]. }
  intros Hcheck.
  destruct (split_state_ok self (first :: filters) Hwf Hcheck)
    as [states [rest [Hsplit [Hlen [Hbuckets Hrest]]]]].
  exists states, rest.
  assert (Hin : forall i path value,
             i < length (first :: filters) ->
             (In (path, value) (State_flat_state (nth i states (mkState []))) <->
              In (path, value) (bucket_of self (first :: filters) i))).
  { intros i path value Hi. destruct (Hbuckets i Hi) as [_ [_ Hperm]].
    split; apply Permutation_in; [exact Hperm | apply Permutation_sym, Hperm]. }
  split; [exact Hsplit|]. split; [exact Hlen|]. split; [|split].
  - intros i path value Hi.
    rewrite (Hin i path value Hi), (in_bucket_of self (first :: filters) first).
    split.
    + intros [H1 [_ [H2 H3]]]. auto.
    + intros [H1 [H2 H3]]. repeat split; auto. lia.
  - intros path value. destruct Hrest as [_ [_ Hperm]].
    assert (Hiff : In (path, value) (State_flat_state rest) <->
                   In (path, value)
                      (bucket_of self (first :: filters)
                                 (length (first :: filters)))).
    { split; apply Permutation_in;
        [exact Hperm | apply Permutation_sym, Hperm]. }
    rewrite Hiff, (in_bucket_of self (first :: filters) first).
    split.
    + intros [H1 [_ [H2 _]]]. auto.
    + intros [H1 H2]. repeat split; auto. intros Habs. lia.
  - intros Hw.
    assert (Hlt : forall pv,
               first_match (map to_predicate (first :: filters))
                           (fst pv) (snd pv)
               < length (first :: filters)).
    { intros pv. apply wildcard_last_matches, Hw. }
    assert (Hempty : bucket_of self (first :: filters)
                               (length (first :: filters)) = []).
    { apply filter_none. intros pv _. apply Nat.eqb_neq.
      specialize (Hlt pv). lia. }
    assert (Hr : rest = mkState []).
    { destruct Hrest as [Hok _]. rewrite Hempty in Hok.
      apply from_flat_path_empty, Hok. }
    split; [exact Hr|]. split; [|split].
    + exists (pack_states states). split; [|split].
      * unfold State_split. rewrite Hsplit. simpl bind.
        rewrite removelast_last, last_last, Hr. reflexivity.
      * apply unpack_pack_states.
      * apply (pack_states_shape states first filters Hlen).
    + intros i j path Hij Hj Hi_in Hj_in.
      apply in_paths in Hi_in. destruct Hi_in as [x Hx].
      apply in_paths in Hj_in. destruct Hj_in as [y Hy].
      apply Hin in Hx; [|lia]. apply Hin in Hy; [|exact Hj].
      apply filter_In in Hx. destruct Hx as [Hx Hix].
      apply filter_In in Hy. destruct Hy as [Hy Hjy].
      simpl in Hix, Hjy. apply Nat.eqb_eq in Hix. apply Nat.eqb_eq in Hjy.
      assert (x = y).
      { eapply nodup_paths_functional; eauto.
        apply flatten_dict_paths_nodup, Hwf. }
      subst y. lia.
    + rewrite (list_sum_nth _
                 (fun i => length (bucket_of self (first :: filters) i))
                 states (mkState [])).
      * rewrite Hlen.
        rewrite (filter_index_sum
                   (fun pv => first_match (map to_predicate (first :: filters))
                                          (fst pv) (snd pv))).
        rewrite filter_all.
        -- apply flatten_dict_length.
        -- intros pv _. apply Nat.ltb_lt, Hlt.
      * intros i Hi. rewrite Hlen in Hi.
        destruct (Hbuckets i Hi) as [_ [_ Hperm]].
        apply Permutation_length, Hperm.
Qed.

(* ================================================================= *)
(** ** [split] against [filter] *)

Lemma split_state_invalid (self : State) (filters : list Filter) (i : nat) :
  check_filters filters = Err (OrderingError i) ->
  _split_state self filters = Err (OrderingError i).
Proof. intros H. unfold _split_state. rewrite H. reflexivity. Qed.

Lemma State_split_of_parts (self : State) (first : Filter)
    (filters : list Filter) (states : list State) (rest : State) :
  _split_state self (first :: filters) = Ok (states ++ [rest]) ->
  State_split self first filters
  = if State_bool rest then Err (NonExhaustiveError rest)
    else Ok (pack_states states).
Proof.
  intros H. unfold State_split. rewrite H. simpl bind.
  rewrite removelast_last, last_last. reflexivity.
Qed.

Lemma State_filter_of_parts (self : State) (first : Filter)
    (filters : list Filter) (states : list State) (rest : State) :
  _split_state self (first :: filters) = Ok (states ++ [rest]) ->
  State_filter self first filters = Ok (pack_states states).
Proof.
  intros H. unfold State_filter. rewrite H. simpl bind.
  rewrite removelast_last. reflexivity.
Qed.

(** The remainder bucket of the partition is the last flat state. *)
Lemma remainder_bucket (self : State) (filters : list Filter) :
  well_formed self ->
  last (partition_flat (map to_predicate filters) (State_flat_state self)) []
  = bucket_of self filters (length filters).
Proof.
  intros Hwf.
  rewrite partition_flat_seq by (apply flatten_dict_paths_nodup, Hwf).
  rewrite length_map.
  replace (length filters + 1) with (S (length filters)) by lia.
  rewrite seq_S, map_app. simpl map at 2. apply last_last.
Qed.

(** An entry in the remainder bucket shows that the list has no
    wildcard, hence that it passes validation. *)
Lemma remainder_valid (self : State) (filters : list Filter) :
  bucket_of self filters (length filters) <> [] ->
  check_filters filters = Ok tt.
Proof.
  intros Hne. apply check_filters_ok_iff, wildcards_last_none.
  destruct (bucket_of self filters (length filters)) as [|[path value] b] eqn:E;
    [contradiction|].
  assert (Hin : In (path, value) (bucket_of self filters (length filters)))
    by (rewrite E; simpl; auto).
  apply forallb_forall. intros f Hf.
  apply (in_bucket_of self filters f) in Hin.
  destruct Hin as [_ [_ [Hnone _]]].
  destruct (In_nth filters f f Hf) as [j [Hj Hnth]].
  specialize (Hnone j Hj). rewrite Hnth in Hnone.
  destruct (is_wildcard f) eqn:Ew; auto.
  rewrite to_predicate_wildcard in Hnone by exact Ew. discriminate.
Qed.

(** C3. [split] raises the non-exhaustive-filters error exactly when the
    remainder bucket of the partition is non-empty, and then returns
    nothing else; [filter] never raises that error: whenever the filter
    list passes validation, and in particular whenever the remainder is
    non-empty, it returns exactly the [N] states of the [N] buckets
    (the state itself for one filter, the tuple of the [N] states
    otherwise), each holding the entries of its bucket, and drops the
    remainder, where [split] returns the same value only if the
    remainder is empty. *)
Theorem split_non_exhaustive_filter_silent (self : State) (first : Filter)
    (filters : list Filter) :
  well_formed self ->
  ((exists rest, State_split self first filters
                 = Err (NonExhaustiveError rest))
   <->
   last (partition_flat (map to_predicate (first :: filters))
                        (State_flat_state self)) [] <> [])
  /\
  (forall rest,
      State_filter self first filters <> Err (NonExhaustiveError rest))
  /\
  (check_filters (first :: filters) = Ok tt
   \/ last (partition_flat (map to_predicate (first :: filters))
                           (State_flat_state self)) [] <> [] ->
   exists (states : list State) (rest : State) (r : States),
     _split_state self (first :: filters) = Ok (states ++ [rest]) /\
     length states = length (first :: filters) /\
     State_filter self first filters = Ok r /\
     unpack_states r = states /\
     match filters with
     | [] => exists s, states = [s] /\ r = OneState s
     | _ :: _ => r = StateTuple states
     end /\
     (forall i, i < length (first :: filters) ->
        Permutation
          (State_flat_state (nth i states (mkState [])))
          (nth i (partition_flat (map to_predicate (first :: filters))
                                 (State_flat_state self)) [])) /\
     State_split self first filters
     = if State_bool rest then Err (NonExhaustiveError rest) else Ok r).
Proof.
  intros Hwf. rewrite (remainder_bucket self (first :: filters) Hwf).
  assert (Hvalid : check_filters (first :: filters) = Ok tt ->
            exists (states : list State) (rest : State),
              _split_state self (first :: filters) = Ok (states ++ [rest]) /\
              length states = length (first :: filters) /\
              (forall i, i < length (first :: filters) ->
                 Permutation
                   (State_flat_state (nth i states (mkState [])))
                   (bucket_of self (first :: filters) i)) /\
              State_bool rest
              = negb (is_nil (bucket_of self (first :: filters)
                                        (length (first :: filters))))).
  { intros Hcheck.
    destruct (split_state_ok self (first :: filters) Hwf Hcheck)
      as [states [rest [Hsplit [Hlen [Hbuckets [Hrest _]]]]]].
    exists states, rest. repeat split; auto.
    - intros i Hi. apply (Hbuckets i Hi).
    - apply from_flat_path_bool, Hrest. }
  split; [|split].
  - split.
    + intros [r Hr].
      destruct (check_filters_cases first (first :: filters))
        as [Hcheck|[i [_ [_ Hcheck]]]].
      * destruct (Hvalid Hcheck) as [states [rest [Hsplit [_ [_ Hbool]]]]].
        rewrite (State_split_of_parts self first filters states rest Hsplit)
          in Hr.
        destruct (State_bool rest); [|discriminate].
        intros E. rewrite E in Hbool. discriminate.
      * unfold State_split in Hr.
        rewrite (split_state_invalid self (first :: filters) i Hcheck) in Hr.
        discriminate.
    + intros Hne.
      destruct (Hvalid (remainder_valid self (first :: filters) Hne))
        as [states [rest [Hsplit [_ [_ Hbool]]]]].
      exists rest.
      rewrite (State_split_of_parts self first filters states rest Hsplit).
      rewrite Hbool.
      destruct (bucket_of self (first :: filters) (length (first :: filters)));
        [contradiction | reflexivity].
  - intros r Hr.
    destruct (check_filters_cases first (first :: filters))
      as [Hcheck|[i [_ [_ Hcheck]]]].
    + destruct (Hvalid Hcheck) as [states [rest [Hsplit _]]].
      rewrite (State_filter_of_parts self first filters states rest Hsplit)
        in Hr.
      discriminate.
    + unfold State_filter in Hr.
      rewrite (split_state_invalid self (first :: filters) i Hcheck) in Hr.
      discriminate.
  - intros Hpre.
    assert (Hcheck : check_filters (first :: filters) = Ok tt).
    { destruct Hpre as [H|H]; [exact H | apply (remainder_valid self), H]. }
    destruct (Hvalid Hcheck) as [states [rest [Hsplit [Hlen [Hbuckets _]]]]].
    exists states, rest, (pack_states states).
    split; [exact Hsplit|]. split; [exact Hlen|]. split; [|split; [|split]].
    + apply (State_filter_of_parts self first filters states rest Hsplit).
    + apply unpack_pack_states.
    + apply (pack_states_shape states first filters Hlen).
    + split.
      * intros i Hi.
        rewrite partition_flat_seq by (apply flatten_dict_paths_nodup, Hwf).
        rewrite length_map.
        rewrite (nth_map_seq (fun j => bucket_of self (first :: filters) j))
          by lia.
        apply (Hbuckets i Hi).
      * apply (State_split_of_parts self first filters states rest Hsplit).
Qed.

(* ================================================================= *)
(** ** The ordering rule for wildcards *)

Lemma wildcards_last_true (d : Filter) (filters : list Filter) :
  (forall i j, i < j -> j < length filters ->
               is_wildcard (nth i filters d) = true ->
               is_wildcard (nth j filters d) = true) ->
  wildcards_last filters = true.
Proof.
  induction filters as [|f fs IH]; intros H; simpl; auto.
  apply andb_true_iff. split.
  - destruct (is_wildcard f) eqn:Ew; simpl; auto.
    apply forallb_forall. intros g Hg.
    destruct (In_nth fs g d Hg) as [j [Hj Hnth]].
    rewrite <- Hnth. apply (H 0 (S j)); simpl; auto; lia.
  - apply IH. intros i j Hij Hj Hi.
    apply (H (S i) (S j)); simpl; auto; lia.
Qed.

Lemma State_split_invalid (self : State) (first : Filter)
    (filters : list Filter) (i : nat) :
  check_filters (first :: filters) = Err (OrderingError i) ->
  State_split self first filters = Err (OrderingError i).
Proof.
  intros H. unfold State_split.
  rewrite (split_state_invalid self (first :: filters) i H). reflexivity.
Qed.

Lemma State_filter_invalid (self : State) (first : Filter)
    (filters : list Filter) (i : nat) :
  check_filters (first :: filters) = Err (OrderingError i) ->
  State_filter self first filters = Err (OrderingError i).
Proof.
  intros H. unfold State_filter.
  rewrite (split_state_invalid self (first :: filters) i H). reflexivity.
Qed.

(** A wildcard in front of a filter that is not one makes validation
    raise, at the index of a wildcard. *)
Lemma check_filters_violation (d : Filter) (filters : list Filter) (i j : nat) :
  i < j -> j < length filters ->
  is_wildcard (nth i filters d) = true ->
  is_wildcard (nth j filters d) = false ->
  exists i', i' < length filters /\
             is_wildcard (nth i' filters d) = true /\
             check_filters filters = Err (OrderingError i').
Proof.
  intros Hij Hj Hi Hjw.
  destruct (check_filters_cases d filters) as [Hok|[i' H]]; [|eauto].
  apply check_filters_ok_iff in Hok.
  rewrite (wildcards_last_false d filters i j Hij Hj Hi Hjw) in Hok.
  discriminate.
Qed.

(** With a trailing wildcard [split] succeeds and returns one state per
    filter. *)
Lemma State_split_wildcard_last (self : State) (first : Filter)
    (filters : list Filter) :
  well_formed self ->
  check_filters (first :: filters) = Ok tt ->
  is_wildcard (last (first :: filters) first) = true ->
  exists states,
    length states = length (first :: filters) /\
    State_split self first filters = Ok (pack_states states).
Proof.
  intros Hwf Hcheck Hw.
  destruct (split_state_ok self (first :: filters) Hwf Hcheck)
    as [states [rest [Hsplit [Hlen [_ [Hrest _]]]]]].
  exists states. split; [exact Hlen|].
  rewrite (State_split_of_parts self first filters states rest Hsplit).
  rewrite (from_flat_path_bool _ rest Hrest).
  rewrite filter_none; [reflexivity|].
  intros pv _. apply Nat.eqb_neq.
  pose proof (wildcard_last_matches first filters (fst pv) (snd pv) Hw). lia.
Qed.

(** C4, amended.  Wildcards may only form the tail of the filter list.
    If a wildcard stands at an index before the last and some later
    filter is not a wildcard, [split] and [filter] fail with the
    ordering error, whatever the state: nothing is partitioned.  If
    every filter behind a wildcard is a wildcard, validation passes, so
    a wildcard may occur more than once.  [split(f1, wildcard)]
    succeeds and returns two states. *)
Theorem wildcard_ordering_rule (first : Filter) (filters : list Filter) :
  (forall i j,
      i < j -> j < length (first :: filters) ->
      is_wildcard (nth i (first :: filters) first) = true ->
      is_wildcard (nth j (first :: filters) first) = false ->
      exists i',
        i' < length (first :: filters) /\
        is_wildcard (nth i' (first :: filters) first) = true /\
        forall self : State,
          _split_state self (first :: filters) = Err (OrderingError i') /\
          State_split self first filters = Err (OrderingError i') /\
          State_filter self first filters = Err (OrderingError i'))
  /\
  ((forall i j,
       i < j -> j < length (first :: filters) ->
       is_wildcard (nth i (first :: filters) first) = true ->
       is_wildcard (nth j (first :: filters) first) = true) ->
   check_filters (first :: filters) = Ok tt)
  /\
  (forall (self : State) (f1 w : Filter),
      well_formed self -> is_wildcard w = true ->
      exists s1 s2, State_split self f1 [w] = Ok (StateTuple [s1; s2])).
Proof.
  split; [|split].
  - intros i j Hij Hj Hi Hjw.
    destruct (check_filters_violation first (first :: filters) i j Hij Hj Hi Hjw)
      as [i' [Hi' [Hw Herr]]].
    exists i'. repeat split; auto.
    + apply split_state_invalid, Herr.
    + apply State_split_invalid, Herr.
    + apply State_filter_invalid, Herr.
  - intros H. apply check_filters_ok_iff.
    apply (wildcards_last_true first), H.
  - intros self f1 w Hwf Hw.
    assert (Hcheck : check_filters [f1; w] = Ok tt).
    { apply check_filters_ok_iff. simpl. rewrite Hw.
      destruct (is_wildcard f1); reflexivity. }
    destruct (State_split_wildcard_last self f1 [w] Hwf Hcheck Hw)
      as [states [Hlen Hsplit]].
    destruct states as [|s1 [|s2 [|s3 states]]]; try discriminate.
    exists s1, s2. exact Hsplit.
Qed.

(* ================================================================= *)
(** ** The literal [True] *)

Lemma is_wildcard_as_ellipsis (f : Filter) :
  is_wildcard (as_ellipsis f) = is_wildcard f.
Proof. destruct f; reflexivity. Qed.

Lemma to_predicate_as_ellipsis (f : Filter) :
  to_predicate (as_ellipsis f) = to_predicate f.
Proof. destruct f; reflexivity. Qed.

Lemma forallb_wildcard_as_ellipsis (filters : list Filter) :
  forallb is_wildcard (map as_ellipsis filters) = forallb is_wildcard filters.
Proof.
  induction filters as [|f fs IH]; simpl; auto.
  rewrite is_wildcard_as_ellipsis, IH. reflexivity.
Qed.

Lemma misplaced_wildcard_as_ellipsis (filters : list Filter) (i : nat)
    (f : Filter) :
  misplaced_wildcard (map as_ellipsis filters) i (as_ellipsis f)
  = misplaced_wildcard filters i f.
Proof.
  unfold misplaced_wildcard.
  rewrite is_wildcard_as_ellipsis, length_map, skipn_map.
  rewrite forallb_wildcard_as_ellipsis. reflexivity.
Qed.

Lemma check_filters_from_as_ellipsis (filters todo : list Filter) :
  forall i,
    check_filters_from (map as_ellipsis filters) i (map as_ellipsis todo)
    = check_filters_from filters i todo.
Proof.
  induction todo as [|f todo IH]; intros i; simpl; auto.
  rewrite misplaced_wildcard_as_ellipsis, IH. reflexivity.
Qed.

Lemma split_state_as_ellipsis (self : State) (filters : list Filter) :
  _split_state self (map as_ellipsis filters) = _split_state self filters.
Proof.
  unfold _split_state, check_filters.
  rewrite check_filters_from_as_ellipsis, map_map.
  rewrite (map_ext _ to_predicate to_predicate_as_ellipsis). reflexivity.
Qed.

(** C10. The literal [True] is a wildcard like [...]: reading every
    [True] of a filter list as [...] changes neither the validation nor
    the result of [split] and [filter]; a [True] in front of a filter
    that is not a wildcard raises the ordering error; and a list made of
    predicates followed by any number of wildcards, [...] and [True]
    mixed, passes validation. *)
Theorem true_literal_is_wildcard :
  (is_wildcard TrueLit = true /\ is_wildcard Ellipsis = true /\
   to_predicate TrueLit = to_predicate Ellipsis)
  /\
  (forall (self : State) (first : Filter) (filters : list Filter),
      check_filters (map as_ellipsis (first :: filters))
      = check_filters (first :: filters) /\
      State_split self (as_ellipsis first) (map as_ellipsis filters)
      = State_split self first filters /\
      State_filter self (as_ellipsis first) (map as_ellipsis filters)
      = State_filter self first filters)
  /\
  (forall (self : State) (first : Filter) (filters : list Filter) (i j : nat),
      i < j -> j < length (first :: filters) ->
      nth i (first :: filters) first = TrueLit ->
      is_wildcard (nth j (first :: filters) first) = false ->
      exists i',
        State_split self first filters = Err (OrderingError i') /\
        State_filter self first filters = Err (OrderingError i'))
  /\
  (forall preds wilds : list Filter,
      forallb (fun f => negb (is_wildcard f)) preds = true ->
      forallb is_wildcard wilds = true ->
      check_filters (preds ++ wilds) = Ok tt).
Proof.
  split; [repeat split|]. split; [|split].
  - intros self first filters. repeat split.
    + apply (check_filters_from_as_ellipsis (first :: filters)
                                            (first :: filters) 0).
    + unfold State_split.
      change (as_ellipsis first :: map as_ellipsis filters)
        with (map as_ellipsis (first :: filters)).
      rewrite split_state_as_ellipsis. reflexivity.
    + unfold State_filter.
      change (as_ellipsis first :: map as_ellipsis filters)
        with (map as_ellipsis (first :: filters)).
      rewrite split_state_as_ellipsis. reflexivity.
  - intros self first filters i j Hij Hj Hi Hjw.
    destruct (check_filters_violation first (first :: filters) i j Hij Hj)
      as [i' [_ [_ Herr]]]; auto.
    { rewrite Hi. reflexivity. }
    exists i'. split.
    + apply State_split_invalid, Herr.
    + apply State_filter_invalid, Herr.
  - intros preds wilds Hp Hw.
    apply check_filters_ok_iff, wildcards_last_app; auto.
Qed.

(* ================================================================= *)
(** ** Flatten and unflatten *)

Lemma structurally_equal_refl_values (m : Mapping) :
  forall k v, dict_get Key_eq_dec k m = Some v -> structurally_equal v v.
Proof.
  induction m as [|k0 x m IHm|k0 sub m IHsub IHm] using Mapping_nested_ind;
    intros k v; simpl.
  - discriminate.
  - destruct (Key_eq_dec k k0); [|apply IHm].
    intros E. inversion E. constructor.
  - destruct (Key_eq_dec k k0); [|apply IHm].
    intros E. inversion E. constructor; auto.
    intros k' v1 v2 H1 H2. rewrite H1 in H2. inversion H2; subst.
    eapply IHsub; eauto.
Qed.

Lemma State_equal_refl (s : State) : State_equal s s.
Proof.
  unfold State_equal. constructor; auto.
  intros k v1 v2 H1 H2. rewrite H1 in H2. inversion H2; subst.
  eapply structurally_equal_refl_values; eauto.
Qed.

(** C1, amended.  For every well-formed container none of whose nested
    sub-containers is empty, unflattening its flat state succeeds and
    gives back the container itself, hence a structurally equal one. *)
Theorem round_trip_no_empty_sub (c : State) :
  well_formed c ->
  no_empty_sub (raw_mapping c) = true ->
  exists c',
    State_from_flat_path (State_flat_state c) = Ok c' /\
    c' = c /\
    State_equal c' c.
Proof.
  intros Hwf Hne. exists c. unfold State_from_flat_path, State_flat_state.
  rewrite (unflatten_flatten_dict (raw_mapping c) Hwf Hne).
  destruct c as [m]. simpl. repeat split. apply State_equal_refl.
Qed.

Lemma leaf_at_value_at (m : Mapping) (p : PathParts) (x : StateLeaf) :
  leaf_at m p = Some x <-> value_at m p = Some (Leaf x).
Proof.
  unfold leaf_at. destruct (value_at m p) as [[y|sub]|]; split; intros H;
    inversion H; reflexivity.
Qed.

Lemma traverse_nil_flatten_dict (m : Mapping) :
  traverse [] (Sub m) = flatten_dict m.
Proof.
  rewrite traverse_flatten_dict. rewrite <- (map_id (flatten_dict m)) at 2.
  apply map_ext. intros [p x]. reflexivity.
Qed.

Lemma sorted_items_ascending (leb : Key -> Key -> bool) (m : Mapping) :
  ascending leb (map fst m) = true -> sorted_items leb m = m.
Proof.
  induction m as [|kv m IH]; intros H; [reflexivity|].
  simpl in H. apply andb_true_iff in H. destruct H as [Hall Hasc].
  unfold sorted_items in *. simpl. rewrite (IH Hasc).
  destruct m as [|kv' m']; [reflexivity|].
  simpl in Hall. apply andb_true_iff in Hall. destruct Hall as [Hle _].
  simpl. rewrite Hle. reflexivity.
Qed.

Lemma sort_keys_cons (leb : Key -> Key -> bool) (k : Key) (v : Value)
    (m : Mapping) :
  map (fun kv => (fst kv, sort_keys leb (snd kv))) ((k, v) :: m)
  = (k, sort_keys leb v)
      :: map (fun kv => (fst kv, sort_keys leb (snd kv))) m.
Proof. reflexivity. Qed.

(** Sorting the keys changes nothing in a tree whose containers hold
    their keys in ascending order. *)
Lemma sort_keys_ascending (leb : Key -> Key -> bool) (m : Mapping) :
  keys_ascending leb (Sub m) = true ->
  map (fun kv => (fst kv, sort_keys leb (snd kv))) m = m /\
  sort_keys leb (Sub m) = Sub m.
Proof.
  assert (Hmap : forall m : Mapping,
             forallb (fun kv => keys_ascending leb (snd kv)) m = true ->
             map (fun kv => (fst kv, sort_keys leb (snd kv))) m = m).
  { clear m.
    induction m as [|k x m IHm|k sub m IHsub IHm] using Mapping_nested_ind;
      intros H.
    - reflexivity.
    - simpl in H. rewrite sort_keys_cons, (IHm H). reflexivity.
    - change (keys_ascending leb (Sub sub)
              && forallb (fun kv => keys_ascending leb (snd kv)) m = true) in H.
      apply andb_true_iff in H. destruct H as [Hsub Hm].
      rewrite sort_keys_cons, (IHm Hm).
      change (keys_ascending leb (Sub sub))
        with (ascending leb (map fst sub)
              && forallb (fun kv => keys_ascending leb (snd kv)) sub) in Hsub.
      apply andb_true_iff in Hsub. destruct Hsub as [Hasc Hall].
      change (sort_keys leb (Sub sub))
        with (Sub (sorted_items leb
                     (map (fun kv => (fst kv, sort_keys leb (snd kv))) sub))).
      rewrite (IHsub Hall), (sorted_items_ascending leb sub Hasc).
      reflexivity. }
  intros H.
  change (ascending leb (map fst m)
          && forallb (fun kv => keys_ascending leb (snd kv)) m = true) in H.
  apply andb_true_iff in H. destruct H as [Hasc Hall].
  split; [apply Hmap, Hall|].
  change (sort_keys leb (Sub m))
    with (Sub (sorted_items leb
                 (map (fun kv => (fst kv, sort_keys leb (snd kv))) m))).
  rewrite (Hmap m Hall), (sorted_items_ascending leb m Hasc). reflexivity.
Qed.

(** C8, amended.  The flat state of a well-formed container has an entry
    (path, leaf) exactly for the leaves of the tree, each under the path
    of keys that leads to it from the root; no path occurs twice, the
    number of entries is the number of leaves, a path that leads to a
    sub-container has no entry, and the entries come in the order of the
    depth-first traversal that visits the keys of every container in
    the container's own iteration order.  That order is the key order
    when every container of the tree holds its keys in ascending
    order. *)
Theorem flat_state_one_entry_per_leaf (c : State) :
  well_formed c ->
  (forall p x,
      In (p, x) (State_flat_state c) <->
      value_at (raw_mapping c) p = Some (Leaf x))
  /\ NoDup (map fst (State_flat_state c))
  /\ length (State_flat_state c) = count_leaves c
  /\ (forall p sub,
         value_at (raw_mapping c) p = Some (Sub sub) ->
         ~ In p (map fst (State_flat_state c)))
  /\ State_flat_state c = traverse [] (Sub (raw_mapping c))
  /\ (forall Key_leb : Key -> Key -> bool,
         keys_ascending Key_leb (Sub (raw_mapping c)) = true ->
         State_flat_state c = key_order_traversal Key_leb c).
Proof.
  intros Hwf. unfold State_flat_state, count_leaves.
  assert (Hleaf : forall p x,
             In (p, x) (flatten_dict (raw_mapping c)) <->
             value_at (raw_mapping c) p = Some (Leaf x)).
  { intros p x. rewrite (flatten_dict_leaf_at _ Hwf). apply leaf_at_value_at. }
  split; [exact Hleaf|]. split; [apply flatten_dict_paths_nodup, Hwf|].
  split; [apply flatten_dict_length|]. split.
  - intros p sub Hsub Hin. apply in_paths in Hin. destruct Hin as [x Hx].
    apply Hleaf in Hx. rewrite Hx in Hsub. discriminate.
  - split; [symmetry; apply traverse_nil_flatten_dict|].
    intros leb Hasc. unfold key_order_traversal.
    destruct (sort_keys_ascending leb (raw_mapping c) Hasc) as [_ ->].
    symmetry. apply traverse_nil_flatten_dict.
Qed.




(* ================================================================= *)
(** ** Merge, union and difference *)

Lemma dict_update_cons {K V : Type} (dec : forall a b : K, {a = b} + {a <> b})
    (d : list (K * V)) (k : K) (v : V) (other : list (K * V)) :
  dict_update dec d ((k, v) :: other)
  = dict_update dec (dict_set dec k v d) other.
Proof. reflexivity. Qed.

(** [update] is last-write-wins. *)
Lemma dict_get_update {K V : Type} (dec : forall a b : K, {a = b} + {a <> b})
    (other : list (K * V)) :
  NoDup (map fst other) ->
  forall (d : list (K * V)) (k : K),
    dict_get dec k (dict_update dec d other)
    = match dict_get dec k other with
      | Some v => Some v
      | None => dict_get dec k d
      end.
Proof.
  induction other as [|[k0 v0] other IH]; intros Hnd d k; [reflexivity|].
  simpl map in Hnd. inversion Hnd as [|? ? Hk0 Hnd']; subst.
  rewrite dict_update_cons, (IH Hnd'). simpl.
  destruct (dec k k0) as [->|Hne].
  - apply (proj2 (dict_get_none_keys dec k0 other)) in Hk0.
    rewrite Hk0. apply dict_get_set_same.
  - destruct (dict_get dec k other); auto.
    apply dict_get_set_other. congruence.
Qed.

Lemma dict_update_nodup {K V : Type} (dec : forall a b : K, {a = b} + {a <> b})
    (other : list (K * V)) :
  forall d, NoDup (map fst d) -> NoDup (map fst (dict_update dec d other)).
Proof.
  induction other as [|[k0 v0] other IH]; intros d Hnd; [exact Hnd|].
  rewrite dict_update_cons. apply IH, dict_set_keys_nodup, Hnd.
Qed.

Lemma dict_set_keys_in {K V : Type} (dec : forall a b : K, {a = b} + {a <> b})
    (k k' : K) (v : V) (d : list (K * V)) :
  In k' (map fst (dict_set dec k v d)) -> k' = k \/ In k' (map fst d).
Proof.
  induction d as [|[k0 v0] d IH]; simpl.
  - intros [H|[]]; auto.
  - destruct (dec k k0); simpl; intros [H|H]; auto.
    destruct (IH H); auto.
Qed.

Lemma dict_update_keys_in {K V : Type}
    (dec : forall a b : K, {a = b} + {a <> b}) (other : list (K * V)) :
  forall d k,
    In k (map fst (dict_update dec d other)) ->
    In k (map fst d) \/ In k (map fst other).
Proof.
  induction other as [|[k0 v0] other IH]; intros d k H; [auto|].
  rewrite dict_update_cons in H. apply IH in H. simpl.
  destruct H as [H|H]; auto.
  apply dict_set_keys_in in H. destruct H; auto.
Qed.

(** Updating with a dictionary that shares no key appends it. *)
Lemma dict_update_disjoint {K V : Type}
    (dec : forall a b : K, {a = b} + {a <> b}) (other : list (K * V)) :
  NoDup (map fst other) ->
  forall d,
    (forall k, In k (map fst other) -> ~ In k (map fst d)) ->
    dict_update dec d other = d ++ other.
Proof.
  induction other as [|[k0 v0] other IH]; intros Hnd d Hdisj.
  - simpl. rewrite app_nil_r. reflexivity.
  - simpl map in Hnd. inversion Hnd as [|? ? Hk0 Hnd']; subst.
    rewrite dict_update_cons, dict_set_absent.
    + rewrite (IH Hnd').
      * rewrite <- app_assoc. reflexivity.
      * intros k Hk Hin. rewrite map_app, in_app_iff in Hin.
        destruct Hin as [Hin|[<-|[]]]; [|contradiction].
        apply (Hdisj k); simpl; auto.
    + apply dict_get_none_keys. apply Hdisj. simpl. auto.
Qed.

Local Notation overlay flats start :=
  (fold_left
     (fun new_state state =>
        dict_update PathParts_eq_dec new_state (State_flat_state state))
     flats start).

Lemma overlay_get (states : list State) :
  Forall well_formed states ->
  forall (start : FlatState) (p : PathParts),
    dict_get PathParts_eq_dec p (overlay states start)
    = fold_left
        (fun acc flat =>
           match dict_get PathParts_eq_dec p flat with
           | Some x => Some x
           | None => acc
           end)
        (map State_flat_state states)
        (dict_get PathParts_eq_dec p start).
Proof.
  induction 1 as [|s states Hs Hall IH]; intros start p; [reflexivity|].
  simpl. rewrite IH, dict_get_update; [reflexivity|].
  apply flatten_dict_paths_nodup, Hs.
Qed.

Lemma overlay_nodup (states : list State) :
  forall start : FlatState,
    NoDup (map fst start) -> NoDup (map fst (overlay states start)).
Proof.
  induction states as [|s states IH]; intros start Hnd; [exact Hnd|].
  simpl. apply IH, dict_update_nodup, Hnd.
Qed.

Lemma overlay_no_empty_path (states : list State) :
  forall start : FlatState,
    ~ In [] (map fst start) -> ~ In [] (map fst (overlay states start)).
Proof.
  induction states as [|s states IH]; intros start Hne; [exact Hne|].
  simpl. apply IH. intros Hin. apply dict_update_keys_in in Hin.
  destruct Hin as [Hin|Hin]; [contradiction|].
  apply in_paths in Hin. destruct Hin as [x Hx].
  apply flatten_dict_head in Hx. destruct Hx as [k [p' [E _]]]. discriminate.
Qed.

Lemma State_merge_two (a b : State) :
  State_merge a [b]
  = State_from_flat_path
      (dict_update PathParts_eq_dec
         (dict_update PathParts_eq_dec [] (State_flat_state a))
         (State_flat_state b)).
Proof. reflexivity. Qed.


Lemma leaf_at_dict_get (m : Mapping) (p : PathParts) :
  wf_mapping m = true ->
  dict_get PathParts_eq_dec p (flatten_dict m) = leaf_at m p.
Proof.
  intros Hwf. destruct (leaf_at m p) as [x|] eqn:E.
  - apply (flatten_dict_leaf_at m Hwf) in E.
    apply dict_get_in_nodup; auto. apply flatten_dict_paths_nodup, Hwf.
  - destruct (dict_get PathParts_eq_dec p (flatten_dict m)) as [x|] eqn:G; auto.
    apply dict_get_some_in in G. apply (flatten_dict_leaf_at m Hwf) in G.
    congruence.
Qed.

Lemma last_write_fold_some (p : PathParts) (flats : list FlatState) :
  forall (acc : option StateLeaf) (x : StateLeaf),
    fold_left
      (fun acc flat =>
         match dict_get PathParts_eq_dec p flat with
         | Some y => Some y
         | None => acc
         end) flats acc = Some x ->
    acc = Some x
    \/ exists f, In f flats /\ dict_get PathParts_eq_dec p f = Some x.
Proof.
  induction flats as [|f flats IH]; intros acc x H; simpl in H; auto.
  apply IH in H. destruct H as [H|[g [Hg Hx]]].
  - destruct (dict_get PathParts_eq_dec p f) as [y|] eqn:E; auto.
    right. exists f. split; [simpl; auto | congruence].
  - right. exists g. simpl. auto.
Qed.

Lemma last_write_some (p : PathParts) (flats : list FlatState) (x : StateLeaf) :
  last_write p flats = Some x ->
  exists f, In f flats /\ dict_get PathParts_eq_dec p f = Some x.
Proof.
  intros H. apply last_write_fold_some in H.
  destruct H as [H|H]; [discriminate | exact H].
Qed.

Lemma last_write_fold_agree (p : PathParts) (x : StateLeaf)
    (flats : list FlatState) :
  (forall f y, In f flats -> dict_get PathParts_eq_dec p f = Some y -> y = x) ->
  forall acc : option StateLeaf,
    acc = Some x
    \/ (exists f, In f flats /\ dict_get PathParts_eq_dec p f = Some x) ->
    fold_left
      (fun acc flat =>
         match dict_get PathParts_eq_dec p flat with
         | Some y => Some y
         | None => acc
         end) flats acc = Some x.
Proof.
  induction flats as [|f flats IH]; intros Hagree acc H; simpl.
  - destruct H as [H|[f [[] _]]]. exact H.
  - apply IH.
    + intros g y Hg. apply Hagree. simpl. auto.
    + destruct (dict_get PathParts_eq_dec p f) as [y|] eqn:E.
      * left. f_equal. apply (Hagree f y); simpl; auto.
      * destruct H as [H|[g [[<-|Hg] Hx]]]; auto; [congruence|].
        right. exists g. auto.
Qed.

(** When the flat states agree on a path, the overlay holds the common
    leaf. *)
Lemma last_write_agree (p : PathParts) (x : StateLeaf)
    (flats : list FlatState) :
  (exists f, In f flats /\ dict_get PathParts_eq_dec p f = Some x) ->
  (forall f y, In f flats -> dict_get PathParts_eq_dec p f = Some y -> y = x) ->
  last_write p flats = Some x.
Proof.
  intros Hex Hagree. apply last_write_fold_agree; auto.
Qed.

Lemma last_write_two (p : PathParts) (f1 f2 : FlatState) :
  last_write p [f1; f2]
  = match dict_get PathParts_eq_dec p f2 with
    | Some x => Some x
    | None => dict_get PathParts_eq_dec p f1
    end.
Proof.
  unfold last_write. simpl.
  destruct (dict_get PathParts_eq_dec p f2); auto.
  destruct (dict_get PathParts_eq_dec p f1); auto.
Qed.

Lemma last_write_one (p : PathParts) (f : FlatState) :
  last_write p [f] = dict_get PathParts_eq_dec p f.
Proof.
  unfold last_write. simpl. destruct (dict_get PathParts_eq_dec p f); auto.
Qed.

Lemma overlay_keys_in (states : list State) :
  forall (start : FlatState) (p : PathParts),
    In p (map fst (overlay states start)) ->
    In p (map fst start)
    \/ exists s, In s states /\ In p (map fst (State_flat_state s)).
Proof.
  induction states as [|s states IH]; intros start p H; simpl in H; auto.
  apply IH in H. destruct H as [H|[s' [Hs' Hp]]].
  - apply dict_update_keys_in in H. destruct H as [H|H]; auto.
    right. exists s. simpl. auto.
  - right. exists s'. simpl. auto.
Qed.

Lemma dict_get_some_key {K V : Type}
    (dec : forall a b : K, {a = b} + {a <> b}) (k : K) (v : V)
    (d : list (K * V)) :
  dict_get dec k d = Some v -> In k (map fst d).
Proof.
  intros H. apply dict_get_some_in in H. apply (in_map fst) in H. exact H.
Qed.

Lemma dict_get_key_some {K V : Type}
    (dec : forall a b : K, {a = b} + {a <> b}) (k : K) (d : list (K * V)) :
  In k (map fst d) -> exists v, dict_get dec k d = Some v.
Proof.
  intros H. destruct (dict_get dec k d) as [v|] eqn:E; eauto.
  apply dict_get_none_keys in E. contradiction.
Qed.

(** The merge of well-formed states whose overlay is prefix-free. *)
Lemma State_merge_accept (state : State) (states : list State) :
  Forall well_formed (state :: states) ->
  prefix_free (map fst (overlay (state :: states) [])) = true ->
  exists merged,
    State_merge state states = Ok merged /\
    well_formed merged /\
    forall p, leaf_at (raw_mapping merged) p
              = last_write p (map State_flat_state (state :: states)).
Proof.
  intros Hall Hpf. destruct states as [|s2 states].
  - exists state. split; [reflexivity|]. inversion Hall; subst.
    split; auto. intros p. simpl map. rewrite last_write_one.
    symmetry. apply leaf_at_dict_get. assumption.
  - destruct (unflatten_dict_accept (overlay (state :: s2 :: states) []))
      as [t [Ht [Hwf [_ [Hleaf _]]]]].
    { unfold conforming. rewrite !andb_true_iff. repeat split; auto.
      - apply nodup_keys_spec, overlay_nodup. constructor.
      - apply forallb_forall. intros p Hp.
        destruct p; [|reflexivity].
        exfalso. revert Hp. apply overlay_no_empty_path. intros []. }
    exists (mkState t).
    assert (Hm : State_merge state (s2 :: states)
                 = State_from_flat_path (overlay (state :: s2 :: states) []))
      by reflexivity.
    rewrite Hm. unfold State_from_flat_path. rewrite Ht.
    repeat split; auto.
    intros p. simpl raw_mapping. rewrite Hleaf.
    rewrite (overlay_get (state :: s2 :: states) Hall). reflexivity.
Qed.

Lemma overlay_two_paths (a b : State) (p : PathParts) :
  well_formed a -> well_formed b ->
  (In p (map fst (overlay [a; b] [])) <->
   In p (map fst (State_flat_state a)) \/ In p (map fst (State_flat_state b))).
Proof.
  intros Ha Hb. split.
  - intros H. apply overlay_keys_in in H.
    destruct H as [[]|[s [[<-|[<-|[]]] Hs]]]; auto.
  - intros H.
    assert (Hget : exists x,
               dict_get PathParts_eq_dec p (overlay [a; b] []) = Some x).
    { rewrite (overlay_get [a; b]) by (repeat constructor; assumption).
      change (fold_left _ (map State_flat_state [a; b])
                        (dict_get PathParts_eq_dec p []))
        with (last_write p [State_flat_state a; State_flat_state b]).
      rewrite last_write_two.
      destruct H as [H|H];
        apply (dict_get_key_some PathParts_eq_dec) in H; destruct H as [x Hx].
      - rewrite Hx.
        destruct (dict_get PathParts_eq_dec p (State_flat_state b)); eauto.
      - rewrite Hx. eauto. }
    destruct Hget as [x Hx].
    apply (dict_get_some_key PathParts_eq_dec p x). exact Hx.
Qed.

(** The overlay of two well-formed states has a prefix-free set of
    paths when no leaf path of the one is a strict prefix of a leaf path
    of the other. *)
Lemma overlay_two_prefix_free (a b : State) :
  well_formed a -> well_formed b ->
  prefix_free (map fst (State_flat_state a ++ State_flat_state b)) = true ->
  prefix_free (map fst (overlay [a; b] [])) = true.
Proof.
  intros Ha Hb Hpf. rewrite prefix_free_spec in Hpf. apply prefix_free_spec.
  intros p q Hp Hq.
  apply (overlay_two_paths a b p Ha Hb) in Hp.
  apply (overlay_two_paths a b q Ha Hb) in Hq.
  apply Hpf; rewrite map_app, in_app_iff; assumption.
Qed.

Lemma prefix_free_app_comm (l1 l2 : list PathParts) :
  prefix_free (l1 ++ l2) = true -> prefix_free (l2 ++ l1) = true.
Proof.
  rewrite !prefix_free_spec. intros H p q Hp Hq.
  apply H; rewrite in_app_iff in *; tauto.
Qed.

(** Merging two well-formed states none of whose leaf paths is a strict
    prefix of a leaf path of the other: the merge returns, and holds at
    every path the leaf of the second state if it has one there, and the
    leaf of the first otherwise. *)
Lemma State_merge_two_accept (a b : State) :
  well_formed a -> well_formed b ->
  prefix_free (map fst (State_flat_state a ++ State_flat_state b)) = true ->
  exists u,
    State_merge a [b] = Ok u /\
    well_formed u /\
    forall p,
      leaf_at (raw_mapping u) p
      = match leaf_at (raw_mapping b) p with
        | Some x => Some x
        | None => leaf_at (raw_mapping a) p
        end.
Proof.
  intros Ha Hb Hpf.
  assert (Hab : Forall well_formed [a; b]) by (repeat constructor; assumption).
  destruct (State_merge_accept a [b] Hab) as [u [Hu [Hwu Hleaf]]].
  { apply overlay_two_prefix_free; assumption. }
  exists u. split; [exact Hu|]. split; [exact Hwu|].
  intros p. rewrite Hleaf. simpl map. rewrite last_write_two.
  unfold State_flat_state. rewrite !leaf_at_dict_get by assumption.
  reflexivity.
Qed.


(** Membership in a dictionary looks at the keys only. *)
Lemma dict_contains_keys {K V : Type}
    (dec : forall a b : K, {a = b} + {a <> b}) (k : K) :
  forall d d' : list (K * V),
    map fst d = map fst d' ->
    dict_contains dec k d = dict_contains dec k d'.
Proof.
  unfold dict_contains.
  induction d as [|[k0 v0] d IH]; intros [|[k1 v1] d'] E; simpl in *;
    try discriminate; auto.
  injection E as -> E. destruct (dec k k1); auto.
Qed.

Lemma dict_get_filter_keys (f : PathParts -> bool) (xs : FlatState)
    (p : PathParts) :
  dict_get PathParts_eq_dec p (filter (fun kv => f (fst kv)) xs)
  = if f p then dict_get PathParts_eq_dec p xs else None.
Proof.
  induction xs as [|[q x] xs IH]; simpl.
  - destruct (f p); reflexivity.
  - destruct (f q) eqn:Eq; simpl; destruct (PathParts_eq_dec p q) as [->|Hne];
      rewrite ?IH, ?Eq; auto.
Qed.

(** C6.  [a - b] and [a | b] return [a] when [b] is empty.  Otherwise
    [a - b] unflattens exactly the entries of the flat state of [a]
    whose path is not a path of the flat state of [b]: the result holds
    at a path nothing when [b] has that path and what [a] holds there
    when not, so two subtrahends with the same paths give the same
    difference, whatever their leaves. *)
Theorem difference_by_path_membership (a b : State) :
  (State_bool b = false -> State_sub a b = Ok a /\ State_or a b = Ok a)
  /\
  (State_bool b = true ->
   well_formed a ->
   State_sub a b
   = State_from_flat_path
       (filter (fun kv => negb (dict_contains PathParts_eq_dec (fst kv)
                                              (State_flat_state b)))
               (State_flat_state a)) /\
   exists d,
     State_sub a b = Ok d /\
     well_formed d /\
     forall p,
       leaf_at (raw_mapping d) p
       = if dict_contains PathParts_eq_dec p (State_flat_state b)
         then None
         else leaf_at (raw_mapping a) p)
  /\
  (forall b' : State,
      State_bool b' = State_bool b ->
      map fst (State_flat_state b') = map fst (State_flat_state b) ->
      State_sub a b' = State_sub a b).
Proof.
  split; [|split].
  - intros Hb. unfold State_sub, State_or. rewrite Hb. auto.
  - intros Hb Hwf.
    assert (Hsub : State_sub a b
                   = State_from_flat_path
                       (filter (fun kv =>
                                  negb (dict_contains PathParts_eq_dec (fst kv)
                                                      (State_flat_state b)))
                               (State_flat_state a))).
    { unfold State_sub. rewrite Hb. reflexivity. }
    split; [exact Hsub|].
    destruct (unflatten_dict_accept
                (filter (fun kv =>
                           negb (dict_contains PathParts_eq_dec (fst kv)
                                               (State_flat_state b)))
                        (State_flat_state a)))
      as [t [Ht [Hwt [_ [Hleaf _]]]]].
    { apply conforming_filter, flatten_dict_conforming, Hwf. }
    exists (mkState t). rewrite Hsub. unfold State_from_flat_path.
    rewrite Ht. repeat split; auto.
    intros p. simpl raw_mapping. rewrite Hleaf.
    rewrite (dict_get_filter_keys
               (fun q => negb (dict_contains PathParts_eq_dec q
                                             (State_flat_state b)))).
    destruct (dict_contains PathParts_eq_dec p (State_flat_state b)); simpl;
      [reflexivity|].
    destruct (leaf_at (raw_mapping a) p) as [x|] eqn:E.
    + apply (flatten_dict_leaf_at _ Hwf) in E.
      apply dict_get_in_nodup; auto.
      apply flatten_dict_paths_nodup, Hwf.
    + destruct (dict_get PathParts_eq_dec p (State_flat_state a)) as [x|] eqn:G;
        auto.
      apply dict_get_some_in in G.
      apply (flatten_dict_leaf_at _ Hwf) in G. congruence.
  - intros b' Hbool Hkeys. unfold State_sub. rewrite Hbool.
    destruct (negb (State_bool b)); [reflexivity|].
    f_equal. apply filter_ext. intros [p x]. simpl. f_equal.
    apply dict_contains_keys, Hkeys.
Qed.

(* ================================================================= *)
(** ** Views *)

Lemma store_write_same (h : Store) (a : addr) (d : list (Key * Slot)) :
  entries (objects (store_write h a d) a) = d.
Proof. simpl. rewrite Nat.eqb_refl. reflexivity. Qed.

Lemma store_write_other (h : Store) (a a' : addr) (d : list (Key * Slot)) :
  a' <> a -> objects (store_write h a d) a' = objects h a'.
Proof.
  intros Hne. simpl. destruct (Nat.eqb_spec a' a); [contradiction|reflexivity].
Qed.

(** C7, amended.  Indexing a state fails with the lookup error when the
    key is absent and returns the leaf when the stored value is a leaf.
    When the stored value is a dictionary it returns a state whose
    [_mapping] is that dictionary itself: the store is unchanged,
    nothing is allocated, a write through the view is a write to the
    dictionary the parent refers to, and the parent, indexed again,
    returns the same view.  When the stored value is a mapping that is
    not a dictionary, the no-copy construction of the view is rejected
    with the construction error. *)
Theorem getitem_returns_view (h : Store) (self : StateObj) (key : Key) :
  (dict_get Key_eq_dec key (entries (objects h (_mapping self))) = None ->
   StateObj_getitem h self key = Err (KeyError key))
  /\
  (forall x,
      dict_get Key_eq_dec key (entries (objects h (_mapping self)))
      = Some (SlotLeaf x) ->
      StateObj_getitem h self key = Ok (h, ItemLeaf x))
  /\
  (forall a,
      dict_get Key_eq_dec key (entries (objects h (_mapping self)))
      = Some (SlotMapping a) ->
      class_of (objects h a) = DictClass ->
      exists view,
        StateObj_getitem h self key = Ok (h, ItemState view) /\
        _mapping view = a /\
        (forall k v,
            entries (objects (StateObj_setitem h view k v) a)
            = dict_set Key_eq_dec k (slot_of v) (entries (objects h a))) /\
        (forall k v,
            a <> _mapping self ->
            StateObj_getitem (StateObj_setitem h view k v) self key
            = Ok (StateObj_setitem h view k v, ItemState view)))
  /\
  (forall a,
      dict_get Key_eq_dec key (entries (objects h (_mapping self)))
      = Some (SlotMapping a) ->
      class_of (objects h a) = OtherMappingClass ->
      StateObj_getitem h self key = Err ConstructionError).
Proof.
  unfold StateObj_getitem. split; [|split; [|split]].
  - intros H. rewrite H. reflexivity.
  - intros x H. rewrite H. reflexivity.
  - intros a H Hc. rewrite H. unfold StateObj_init. rewrite Hc.
    exists (mkStateObj a). simpl bind. simpl fst. simpl snd.
    split; [reflexivity|]. split; [reflexivity|]. split.
    + intros k v. unfold StateObj_setitem. apply store_write_same.
    + intros k v Hne. unfold StateObj_setitem. simpl _mapping.
      rewrite store_write_other by congruence. rewrite H.
      rewrite Nat.eqb_refl. simpl class_of. rewrite Hc. reflexivity.
  - intros a H Hc. rewrite H. unfold StateObj_init. rewrite Hc. reflexivity.
Qed.


(* ================================================================= *)
(** ** Further properties: flat states and merging *)

(** What a successful [split] of a well-formed state returns. *)
Lemma State_split_ok_inv (self : State) (first : Filter)
    (filters : list Filter) (r : States) :
  well_formed self ->
  State_split self first filters = Ok r ->
  exists states,
    r = pack_states states /\
    length states = length (first :: filters) /\
    (forall i, i < length (first :: filters) ->
               built_from (bucket_of self (first :: filters) i)
                          (nth i states (mkState []))) /\
    bucket_of self (first :: filters) (length (first :: filters)) = [].
Proof.
  intros Hwf Hr.
  destruct (check_filters_cases first (first :: filters))
    as [Hcheck|[i [_ [_ Hcheck]]]].
  - destruct (split_state_ok self (first :: filters) Hwf Hcheck)
      as [states [rest [Hsplit [Hlen [Hbuckets Hrest]]]]].
    rewrite (State_split_of_parts self first filters states rest Hsplit) in Hr.
    destruct Hrest as [Hok _].
    pose proof (from_flat_path_bool _ rest Hok) as Hbool.
    destruct (State_bool rest); [discriminate|].
    inversion Hr; subst. exists states. repeat split; auto; try apply Hbuckets;
      auto.
    destruct (bucket_of self (first :: filters) (length (first :: filters)));
      [reflexivity | discriminate].
  - rewrite (State_split_invalid self first filters i Hcheck) in Hr.
    discriminate.
Qed.

(** X1.  Merging the states a successful [split] returns gives back the
    leaves of the state that was split: the merge succeeds and holds at
    every path what the original holds there. *)
Theorem split_then_merge (self : State) (first : Filter)
    (filters : list Filter) (r : States) :
  well_formed self ->
  State_split self first filters = Ok r ->
  exists s ss merged,
    unpack_states r = s :: ss /\
    State_merge s ss = Ok merged /\
    well_formed merged /\
    forall p, leaf_at (raw_mapping merged) p = leaf_at (raw_mapping self) p.
Proof.
  intros Hwf Hr.
  destruct (State_split_ok_inv self first filters r Hwf Hr)
    as [states [-> [Hlen [Hbuckets Hempty]]]].
  rewrite unpack_pack_states.
  destruct states as [|s ss]; [discriminate|].
  assert (Hnth : forall t, In t (s :: ss) ->
             exists i, i < length (first :: filters) /\
                       nth i (s :: ss) (mkState []) = t).
  { intros t Ht. destruct (In_nth _ _ (mkState []) Ht) as [i [Hi E]].
    exists i. rewrite <- Hlen. auto. }
  assert (Hsub : forall t p x,
             In t (s :: ss) -> In (p, x) (State_flat_state t) ->
             In (p, x) (State_flat_state self)).
  { intros t p x Ht Hx. destruct (Hnth t Ht) as [i [Hi <-]].
    destruct (Hbuckets i Hi) as [_ [_ Hperm]].
    apply (Permutation_in _ Hperm) in Hx. apply filter_In in Hx. tauto. }
  assert (Hall : Forall well_formed (s :: ss)).
  { apply Forall_forall. intros t Ht. destruct (Hnth t Ht) as [i [Hi <-]].
    apply (Hbuckets i Hi). }
  assert (Hpf : prefix_free (map fst (overlay (s :: ss) [])) = true).
  { apply prefix_free_spec. intros p q Hp Hq.
    assert (Hself : forall p', In p' (map fst (overlay (s :: ss) [])) ->
                               In p' (map fst (State_flat_state self))).
    { intros p' Hp'. apply overlay_keys_in in Hp'.
      destruct Hp' as [[]|[t [Ht Hin]]].
      apply in_paths in Hin. destruct Hin as [x Hx].
      apply in_paths. exists x. eapply Hsub; eauto. }
    pose proof (flatten_dict_prefix_free (raw_mapping self) Hwf) as Hfree.
    rewrite prefix_free_spec in Hfree. apply Hfree; apply Hself; assumption. }
  destruct (State_merge_accept s ss Hall Hpf) as [merged [Hm [Hwm Hleaf]]].
  exists s, ss, merged. repeat split; auto.
  intros p. rewrite Hleaf.
  assert (HA : forall x, In (p, x) (State_flat_state self) ->
                         last_write p (map State_flat_state (s :: ss)) = Some x).
  { intros x Hx.
    pose proof (first_match_le (map to_predicate (first :: filters)) p x) as Hle.
    rewrite length_map in Hle.
    assert (Hi : first_match (map to_predicate (first :: filters)) p x
                 < length (first :: filters)).
    { destruct (Nat.eq_dec
                  (first_match (map to_predicate (first :: filters)) p x)
                  (length (first :: filters))) as [E|E]; [|lia].
      exfalso.
      assert (Hin : In (p, x) (bucket_of self (first :: filters)
                                         (length (first :: filters)))).
      { apply filter_In. split; auto. simpl. apply Nat.eqb_eq. exact E. }
      rewrite Hempty in Hin. destruct Hin. }
    destruct (Hbuckets _ Hi) as [_ [Hwi Hperm]].
    apply last_write_agree.
    - exists (State_flat_state
                (nth (first_match (map to_predicate (first :: filters)) p x)
                     (s :: ss) (mkState []))).
      split.
      + apply in_map, nth_In. rewrite Hlen. exact Hi.
      + apply dict_get_in_nodup.
        * apply flatten_dict_paths_nodup, Hwi.
        * apply (Permutation_in _ (Permutation_sym Hperm)).
          apply filter_In. split; auto. simpl. apply Nat.eqb_refl.
    - intros f y Hf Hy. apply in_map_iff in Hf. destruct Hf as [t [<- Ht]].
      apply dict_get_some_in in Hy.
      eapply nodup_paths_functional.
      + apply flatten_dict_paths_nodup, Hwf.
      + eapply Hsub; eauto.
      + exact Hx. }
  destruct (leaf_at (raw_mapping self) p) as [x|] eqn:E.
  - apply HA. apply (flatten_dict_leaf_at _ Hwf). exact E.
  - destruct (last_write p (map State_flat_state (s :: ss))) as [x|] eqn:G; auto.
    apply last_write_some in G. destruct G as [f [Hf Hx]].
    apply in_map_iff in Hf. destruct Hf as [t [<- Ht]].
    apply dict_get_some_in in Hx.
    apply (Hsub t p x Ht) in Hx.
    apply (flatten_dict_leaf_at _ Hwf) in Hx. congruence.
Qed.

Lemma mapM_length {A B : Type} (f : A -> result B) (xs : list A) :
  forall ys, mapM f xs = Ok ys -> length ys = length xs.
Proof.
  induction xs as [|x xs IH]; intros ys H; simpl in H.
  - inversion H. reflexivity.
  - destruct (f x) as [y|e]; [|discriminate]. simpl in H.
    destruct (mapM f xs) as [ys'|e]; [|discriminate]. simpl in H.
    inversion H; subst. simpl. f_equal. apply IH. reflexivity.
Qed.

Lemma split_state_length (self : State) (filters : list Filter)
    (all : list State) :
  _split_state self filters = Ok all -> length all = length filters + 1.
Proof.
  unfold _split_state. intros H.
  destruct (check_filters filters) as [u|e]; [|discriminate]. simpl in H.
  apply mapM_length in H. rewrite H, partition_flat_length, length_map.
  reflexivity.
Qed.

Lemma removelast_length {A : Type} (l : list A) :
  length (removelast l) = length l - 1.
Proof.
  destruct l as [|a l]; [reflexivity|].
  rewrite (app_removelast_last a (l := a :: l)) at 2 by discriminate.
  rewrite length_app. simpl. lia.
Qed.

(** X2.  Whatever the state, a [split] or a [filter] that returns,
    returns as many states as it was given filters: a single state for
    one filter, a tuple for two or more. *)
Theorem split_filter_result_shape (self : State) (first : Filter)
    (filters : list Filter) (r : States) :
  State_split self first filters = Ok r
  \/ State_filter self first filters = Ok r ->
  length (unpack_states r) = S (length filters) /\
  (filters = [] -> exists s, r = OneState s) /\
  (filters <> [] -> exists ss, r = StateTuple ss).
Proof.
  intros H.
  assert (Hex : exists all,
             _split_state self (first :: filters) = Ok all /\
             r = pack_states (removelast all)).
  { destruct H as [H|H]; [unfold State_split in H | unfold State_filter in H];
      destruct (_split_state self (first :: filters)) as [all|e];
      try discriminate; simpl in H; exists all; split; auto.
    - destruct (State_bool (last all (mkState []))); [discriminate|].
      inversion H. reflexivity.
    - inversion H. reflexivity. }
  destruct Hex as [all [Hall ->]].
  apply split_state_length in Hall.
  pose proof (removelast_length all) as Hlen. rewrite Hall in Hlen.
  simpl length in Hlen.
  rewrite unpack_pack_states. revert Hlen.
  destruct (removelast all) as [|s [|s' ss]]; intros Hlen; simpl in Hlen;
    simpl length.
  - lia.
  - split; [lia|]. split; [intros _; exists s; reflexivity|].
    intros Hne. destruct filters; [contradiction | simpl in Hlen; lia].
  - split; [lia|]. split.
    + intros ->. simpl in Hlen. lia.
    + intros _. exists (s :: s' :: ss). reflexivity.
Qed.

(** X3.  No leaf is lost or duplicated by partitioning: the states
    [_split_state] returns for a well-formed state, remainder included,
    hold together as many leaves as the state. *)
Theorem split_state_conserves_leaves (self : State) (filters : list Filter)
    (all : list State) :
  well_formed self ->
  _split_state self filters = Ok all ->
  list_sum (map (fun s => length (State_flat_state s)) all)
  = count_leaves self.
Proof.
  intros Hwf Hall.
  destruct (check_filters_cases Ellipsis filters)
    as [Hcheck|[i [_ [_ Hcheck]]]].
  - destruct (split_state_ok self filters Hwf Hcheck)
      as [states [rest [Hsplit [Hlen [Hbuckets Hrest]]]]].
    rewrite Hsplit in Hall. inversion Hall; subst.
    rewrite map_app, list_sum_app.
    rewrite (list_sum_nth _ (fun i => length (bucket_of self filters i))
                          states (mkState [])).
    + destruct Hrest as [_ [_ Hperm]].
      simpl map. simpl list_sum. rewrite (Permutation_length Hperm), Hlen.
      rewrite Nat.add_0_r.
      rewrite (filter_index_sum
                 (fun pv => first_match (map to_predicate filters)
                                        (fst pv) (snd pv))).
      rewrite <- filter_lt_succ, filter_all.
      * apply flatten_dict_length.
      * intros pv _. apply Nat.ltb_lt.
        pose proof (first_match_le (map to_predicate filters) (fst pv) (snd pv))
          as Hle.
        rewrite length_map in Hle. lia.
    + intros i Hi. rewrite Hlen in Hi.
      destruct (Hbuckets i Hi) as [_ [_ Hperm]].
      apply Permutation_length, Hperm.
  - rewrite (split_state_invalid self filters i Hcheck) in Hall. discriminate.
Qed.

(** X4.  The union is right-biased: for well-formed [a] and [b] none of
    whose leaf paths is a strict prefix of a leaf path of the other,
    [a | b] returns a well-formed state that holds at every path the
    leaf of [b] if [b] has one there, and the leaf of [a] otherwise. *)
Theorem union_right_biased (a b : State) :
  well_formed a -> well_formed b ->
  prefix_free (map fst (State_flat_state a ++ State_flat_state b)) = true ->
  exists u,
    State_or a b = Ok u /\
    well_formed u /\
    forall p,
      leaf_at (raw_mapping u) p
      = match leaf_at (raw_mapping b) p with
        | Some x => Some x
        | None => leaf_at (raw_mapping a) p
        end.
Proof.
  intros Ha Hb Hpf. unfold State_or.
  destruct (State_bool b) eqn:Eb; simpl.
  - apply State_merge_two_accept; assumption.
  - exists a. split; [reflexivity|]. split; [exact Ha|]. intros p.
    assert (Hnil : raw_mapping b = []).
    { unfold State_bool, State_len in Eb.
      destruct (raw_mapping b); [reflexivity | discriminate]. }
    rewrite Hnil, leaf_at_nil. reflexivity.
Qed.

(** X5.  Merging two well-formed states that have no leaf path in
    common, and none that is a strict prefix of a leaf path of the
    other, does not depend on their order: [merge(a, b)] and
    [merge(b, a)] both return, with the same leaf at every path, namely
    the one [a] or [b] holds there. *)
Theorem merge_disjoint_commutes (a b : State) :
  well_formed a -> well_formed b ->
  (forall p, leaf_at (raw_mapping a) p = None
             \/ leaf_at (raw_mapping b) p = None) ->
  prefix_free (map fst (State_flat_state a ++ State_flat_state b)) = true ->
  exists u v,
    State_merge a [b] = Ok u /\
    State_merge b [a] = Ok v /\
    (forall p, leaf_at (raw_mapping v) p = leaf_at (raw_mapping u) p) /\
    (forall p,
        leaf_at (raw_mapping u) p
        = match leaf_at (raw_mapping a) p with
          | Some x => Some x
          | None => leaf_at (raw_mapping b) p
          end).
Proof.
  intros Ha Hb Hdisj Hpf.
  destruct (State_merge_two_accept a b Ha Hb Hpf) as [u [Hu [_ Hleaf_u]]].
  destruct (State_merge_two_accept b a Hb Ha) as [v [Hv [_ Hleaf_v]]].
  { rewrite map_app. apply prefix_free_app_comm. rewrite <- map_app.
    exact Hpf. }
  exists u, v. split; [exact Hu|]. split; [exact Hv|]. split.
  - intros p. rewrite Hleaf_v, Hleaf_u.
    destruct (Hdisj p) as [E|E]; rewrite E;
      [destruct (leaf_at (raw_mapping b) p)
      |destruct (leaf_at (raw_mapping a) p)];
      reflexivity.
  - intros p. rewrite Hleaf_u.
    destruct (Hdisj p) as [E|E]; rewrite E;
      [destruct (leaf_at (raw_mapping b) p)
      |destruct (leaf_at (raw_mapping a) p)];
      reflexivity.
Qed.

Lemma dict_update_same {K V : Type}
    (dec : forall a b : K, {a = b} + {a <> b}) (other : list (K * V)) :
  forall d,
    (forall k v, In (k, v) other -> dict_get dec k d = Some v) ->
    dict_update dec d other = d.
Proof.
  induction other as [|[k v] other IH]; intros d H; [reflexivity|].
  rewrite dict_update_cons, dict_set_get_same by (apply H; simpl; auto).
  apply IH. intros k' v' Hin. apply H. simpl. auto.
Qed.

(** X6.  Merging a well-formed state with itself is the round trip
    through its flat state; it returns the state itself when no
    sub-container is empty. *)
Theorem merge_with_itself (a : State) :
  well_formed a ->
  State_merge a [a] = State_from_flat_path (State_flat_state a) /\
  (no_empty_sub (raw_mapping a) = true -> State_merge a [a] = Ok a).
Proof.
  intros Ha.
  assert (Hm : State_merge a [a] = State_from_flat_path (State_flat_state a)).
  { pose proof (flatten_dict_paths_nodup (raw_mapping a) Ha) as Hnd.
    rewrite State_merge_two.
    rewrite (dict_update_disjoint PathParts_eq_dec (State_flat_state a) Hnd [])
      by (intros k _ []).
    rewrite app_nil_l, dict_update_same; [reflexivity|].
    intros k v Hin. apply dict_get_in_nodup; auto. }
  split; [exact Hm|]. intros Hne. rewrite Hm.
  unfold State_from_flat_path, State_flat_state.
  rewrite (unflatten_flatten_dict (raw_mapping a) Ha Hne).
  destruct a. reflexivity.
Qed.

(** X7.  The difference of a state with itself is the empty state. *)
Theorem difference_with_itself (a : State) :
  State_sub a a = Ok (mkState []).
Proof.
  unfold State_sub. destruct (State_bool a) eqn:Eb; simpl.
  - rewrite filter_none; [reflexivity|].
    intros [p x] Hin. simpl. apply negb_false_iff.
    apply dict_contains_in. apply in_paths. exists x. exact Hin.
  - unfold State_bool, State_len in Eb. destruct a as [m]. simpl in Eb.
    destruct m; [reflexivity | discriminate].
Qed.

(** X8.  The round trip through the flat state normalises a well-formed
    container: it succeeds, keeps the leaf of every path, leaves no
    empty sub-container, and its result is a fixed point of the round
    trip. *)
Theorem round_trip_normalises (c : State) :
  well_formed c ->
  exists c',
    State_from_flat_path (State_flat_state c) = Ok c' /\
    well_formed c' /\
    no_empty_sub (raw_mapping c') = true /\
    (forall p, leaf_at (raw_mapping c') p = leaf_at (raw_mapping c) p) /\
    Permutation (State_flat_state c') (State_flat_state c) /\
    State_from_flat_path (State_flat_state c') = Ok c'.
Proof.
  intros Hwf.
  destruct (unflatten_dict_accept (State_flat_state c))
    as [t [Ht [Hwt [Hne [Hleaf Hperm]]]]].
  { apply flatten_dict_conforming, Hwf. }
  exists (mkState t). unfold State_from_flat_path at 1. rewrite Ht.
  repeat split; auto.
  - intros p. simpl raw_mapping. rewrite Hleaf.
    apply leaf_at_dict_get, Hwf.
  - unfold State_from_flat_path, State_flat_state. simpl raw_mapping.
    rewrite (unflatten_flatten_dict t Hwt Hne). reflexivity.
Qed.

(* ================================================================= *)
(** ** Further properties: the tree-traversal protocol *)

Lemma insert_item_perm (leb : Key -> Key -> bool) (kv : Key * Value)
    (items : list (Key * Value)) :
  Permutation (insert_item leb kv items) (kv :: items).
Proof.
  induction items as [|kv' rest IH]; simpl; auto.
  destruct (leb (fst kv) (fst kv')); auto.
  apply perm_trans with (kv' :: kv :: rest); [|apply perm_swap].
  apply perm_skip, IH.
Qed.

Lemma sorted_items_perm (leb : Key -> Key -> bool)
    (items : list (Key * Value)) :
  Permutation (sorted_items leb items) items.
Proof.
  induction items as [|kv rest IH]; simpl; auto.
  apply perm_trans with (kv :: sorted_items leb rest).
  - apply insert_item_perm.
  - apply perm_skip, IH.
Qed.

Lemma insert_item_sorted (leb : Key -> Key -> bool) (kv : Key * Value)
    (items : list (Key * Value)) :
  (forall a b, leb a b = true \/ leb b a = true) ->
  (forall a b c, leb a b = true -> leb b c = true -> leb a c = true) ->
  StronglySorted (fun a b => leb (fst a) (fst b) = true) items ->
  StronglySorted (fun a b => leb (fst a) (fst b) = true)
                 (insert_item leb kv items).
Proof.
  intros Htotal Htrans. induction 1 as [|kv' rest Hs IH Hall]; simpl.
  - constructor; constructor.
  - destruct (leb (fst kv) (fst kv')) eqn:E.
    + constructor.
      * constructor; assumption.
      * constructor; auto.
        rewrite Forall_forall in *. intros c Hc. eapply Htrans; eauto.
    + constructor; auto.
      rewrite Forall_forall in *. intros c Hc.
      apply (Permutation_in _ (insert_item_perm leb kv rest)) in Hc.
      destruct Hc as [<-|Hc]; auto.
      destruct (Htotal (fst kv) (fst kv')); congruence.
Qed.

Lemma sorted_items_sorted (leb : Key -> Key -> bool)
    (items : list (Key * Value)) :
  (forall a b, leb a b = true \/ leb b a = true) ->
  (forall a b c, leb a b = true -> leb b c = true -> leb a c = true) ->
  StronglySorted (fun a b => leb (fst a) (fst b) = true)
                 (sorted_items leb items).
Proof.
  intros Htotal Htrans. induction items as [|kv rest IH]; simpl.
  - constructor.
  - apply insert_item_sorted; auto.
Qed.

Lemma combine_fst_snd {A B : Type} (l : list (A * B)) :
  combine (map fst l) (map snd l) = l.
Proof.
  induction l as [|[a b] l IH]; simpl; [reflexivity|]. rewrite IH.
  reflexivity.
Qed.

Lemma dict_update_nil {K V : Type}
    (dec : forall a b : K, {a = b} + {a <> b}) (l : list (K * V)) :
  NoDup (map fst l) -> dict_update dec [] l = l.
Proof.
  intros Hnd. rewrite (dict_update_disjoint dec l Hnd []); [reflexivity|].
  intros k _ [].
Qed.

Lemma dict_get_perm {V : Type} (m1 m2 : list (Key * V)) (k : Key) :
  NoDup (map fst m1) -> Permutation m1 m2 ->
  dict_get Key_eq_dec k m1 = dict_get Key_eq_dec k m2.
Proof.
  intros Hnd Hperm.
  assert (Hnd2 : NoDup (map fst m2)).
  { eapply Permutation_NoDup; [|exact Hnd]. apply Permutation_map, Hperm. }
  destruct (dict_get Key_eq_dec k m1) as [v|] eqn:E.
  - symmetry. apply dict_get_in_nodup; auto.
    apply (Permutation_in _ Hperm). apply dict_get_some_in in E. exact E.
  - destruct (dict_get Key_eq_dec k m2) as [v|] eqn:G; auto.
    apply dict_get_some_in in G.
    apply (Permutation_in _ (Permutation_sym Hperm)) in G.
    apply (dict_get_in_nodup Key_eq_dec) in G; auto. congruence.
Qed.

Lemma leaf_at_perm (m1 m2 : Mapping) (p : PathParts) :
  NoDup (map fst m1) -> Permutation m1 m2 -> leaf_at m1 p = leaf_at m2 p.
Proof.
  intros Hnd Hperm. destruct p as [|k p]; [reflexivity|].
  rewrite !leaf_at_step, (dict_get_perm m1 m2 k Hnd Hperm). reflexivity.
Qed.

Lemma State_equal_perm (m1 m2 : Mapping) :
  NoDup (map fst m1) -> Permutation m1 m2 ->
  State_equal (mkState m1) (mkState m2).
Proof.
  intros Hnd Hperm. unfold State_equal. simpl. constructor.
  - intros k. unfold dict_contains.
    rewrite (dict_get_perm m1 m2 k Hnd Hperm). reflexivity.
  - intros k v1 v2 H1 H2. rewrite (dict_get_perm m1 m2 k Hnd Hperm) in H1.
    rewrite H1 in H2. inversion H2; subst.
    eapply structurally_equal_refl_values; eauto.
Qed.

Lemma wf_mapping_keys_nodup (m : Mapping) :
  wf_mapping m = true -> NoDup (map fst m).
Proof.
  rewrite wf_mapping_unfold, andb_true_iff. intros [H _].
  apply nodup_keys_spec in H. exact H.
Qed.

Lemma wf_mapping_perm (m1 m2 : Mapping) :
  wf_mapping m1 = true -> Permutation m1 m2 -> wf_mapping m2 = true.
Proof.
  rewrite !wf_mapping_unfold, !andb_true_iff, !nodup_keys_spec.
  rewrite !forallb_forall.
  intros [Hnd Hall] Hperm. split.
  - eapply Permutation_NoDup; [|exact Hnd]. apply Permutation_map, Hperm.
  - intros kv Hin. apply Hall.
    apply (Permutation_in _ (Permutation_sym Hperm)). exact Hin.
Qed.

(** X9.  Rebuilding a well-formed state from what
    [_state_flatten_with_keys] returns gives the state with its items in
    key order: a well-formed state, structurally equal to the original,
    with the same leaf at every path. *)
Theorem pytree_round_trip (leb : Key -> Key -> bool) (x : State) :
  well_formed x ->
  raw_mapping
    (_state_unflatten (snd (_state_flatten_with_keys leb x))
                      (map snd (fst (_state_flatten_with_keys leb x))))
  = sorted_items leb (raw_mapping x)
  /\
  well_formed
    (_state_unflatten (snd (_state_flatten_with_keys leb x))
                      (map snd (fst (_state_flatten_with_keys leb x))))
  /\
  State_equal
    (_state_unflatten (snd (_state_flatten_with_keys leb x))
                      (map snd (fst (_state_flatten_with_keys leb x))))
    x
  /\
  forall p,
    leaf_at
      (raw_mapping
         (_state_unflatten (snd (_state_flatten_with_keys leb x))
                           (map snd (fst (_state_flatten_with_keys leb x)))))
      p
    = leaf_at (raw_mapping x) p.
Proof.
  intros Hwf.
  pose proof (sorted_items_perm leb (raw_mapping x)) as Hperm.
  assert (Hnd : NoDup (map fst (sorted_items leb (raw_mapping x)))).
  { eapply Permutation_NoDup.
    - apply Permutation_map, Permutation_sym, Hperm.
    - apply wf_mapping_keys_nodup, Hwf. }
  assert (Heq : raw_mapping
                  (_state_unflatten
                     (snd (_state_flatten_with_keys leb x))
                     (map snd (fst (_state_flatten_with_keys leb x))))
                = sorted_items leb (raw_mapping x)).
  { unfold _state_unflatten, State_of_pairs, _state_flatten_with_keys.
    simpl fst. simpl snd. simpl raw_mapping. rewrite map_map. simpl.
    rewrite combine_fst_snd. apply dict_update_nil, Hnd. }
  split; [exact Heq|].
  assert (Hwf' : wf_mapping (sorted_items leb (raw_mapping x)) = true).
  { eapply wf_mapping_perm; [exact Hwf|]. apply Permutation_sym, Hperm. }
  split; [unfold well_formed; rewrite Heq; exact Hwf'|].
  split.
  - unfold State_equal. rewrite Heq.
    apply (State_equal_perm _ (raw_mapping x) Hnd Hperm).
  - intros p. rewrite Heq. apply leaf_at_perm; auto.
Qed.

(** X10.  For a total, transitive key order, the keys returned by
    [_state_flatten_with_keys] are the keys of the state in ascending
    order, and the children carry these keys in the same order. *)
Theorem pytree_keys_sorted (leb : Key -> Key -> bool) (x : State) :
  (forall a b, leb a b = true \/ leb b a = true) ->
  (forall a b c, leb a b = true -> leb b c = true -> leb a c = true) ->
  StronglySorted (fun a b => leb a b = true)
                 (snd (_state_flatten_with_keys leb x))
  /\ Permutation (snd (_state_flatten_with_keys leb x))
                 (map fst (raw_mapping x))
  /\ map (fun child => match fst child with mkDictKey k => k end)
         (fst (_state_flatten_with_keys leb x))
     = snd (_state_flatten_with_keys leb x)
  /\ length (fst (_state_flatten_with_keys leb x)) = State_len x.
Proof.
  intros Htotal Htrans. unfold _state_flatten_with_keys. simpl fst. simpl snd.
  split; [|split; [|split]].
  - pose proof (sorted_items_sorted leb (raw_mapping x) Htotal Htrans) as Hs.
    induction Hs as [|kv rest Hs IH Hall]; simpl; constructor; auto.
    rewrite Forall_forall in *. intros k Hk.
    apply in_map_iff in Hk. destruct Hk as [kv' [<- Hin]]. auto.
  - apply Permutation_map, sorted_items_perm.
  - rewrite map_map. reflexivity.
  - rewrite length_map. unfold State_len.
    apply Permutation_length, sorted_items_perm.
Qed.

Lemma combine_keys_in {A B : Type} (s : list A) (l : list B) (a : A) :
  In a (map fst (combine s l)) -> In a s.
Proof.
  intros H. apply in_map_iff in H. destruct H as [[a' b] [<- Hin]].
  apply in_combine_l in Hin. exact Hin.
Qed.

Lemma combine_keys_nodup {A B : Type} (s : list A) (l : list B) :
  NoDup s -> NoDup (map fst (combine s l)).
Proof.
  intros Hnd. revert l. induction Hnd as [|a s Ha Hnd IH]; intros l.
  - constructor.
  - destruct l as [|b l]; simpl; constructor; auto.
    intros Hin. apply Ha. eapply combine_keys_in; eauto.
Qed.

Lemma dict_get_combine {V : Type} (static : list Key) (d : Key) (dv : V) :
  NoDup static ->
  forall (leaves : list V) (i : nat),
    i < length static -> i < length leaves ->
    dict_get Key_eq_dec (nth i static d) (combine static leaves)
    = Some (nth i leaves dv).
Proof.
  induction 1 as [|k st Hk Hnd IH]; intros leaves i Hi Hl; simpl in Hi; [lia|].
  destruct leaves as [|v lv]; simpl in Hl; [lia|].
  destruct i as [|i]; simpl.
  - destruct (Key_eq_dec k k); congruence.
  - destruct (Key_eq_dec (nth i st d) k) as [E|E].
    + exfalso. apply Hk. rewrite <- E. apply nth_In. lia.
    + apply IH; lia.
Qed.

(** X11.  [_state_unflatten] pairs keys and children by position: with
    distinct keys, the key at position [i] is mapped to the child at
    position [i], and what exceeds the shorter of the two sequences is
    dropped. *)
Theorem state_unflatten_by_position (static : list Key)
    (leaves : list Value) :
  NoDup static ->
  raw_mapping (_state_unflatten static leaves) = combine static leaves /\
  State_len (_state_unflatten static leaves)
  = Nat.min (length static) (length leaves) /\
  forall (i : nat) (d : Key) (dv : Value),
    i < length static -> i < length leaves ->
    dict_get Key_eq_dec (nth i static d)
             (raw_mapping (_state_unflatten static leaves))
    = Some (nth i leaves dv).
Proof.
  intros Hnd.
  assert (Heq : raw_mapping (_state_unflatten static leaves)
                = combine static leaves).
  { unfold _state_unflatten, State_of_pairs. simpl raw_mapping.
    apply dict_update_nil, combine_keys_nodup, Hnd. }
  split; [exact Heq|]. split.
  - unfold State_len. rewrite Heq. apply length_combine.
  - intros i d dv Hi Hl. rewrite Heq. apply dict_get_combine; auto.
Qed.

(* ================================================================= *)
(** ** Further properties: state objects *)

Lemma dict_del_none {V : Type} (k : Key) (d : list (Key * V)) :
  dict_del k d = None <-> dict_get Key_eq_dec k d = None.
Proof.
  induction d as [|[k' v] d IH]; simpl; [tauto|].
  destruct (Key_eq_dec k k'); [split; discriminate|].
  destruct (dict_del k d); rewrite <- IH; split; intros H; auto; discriminate.
Qed.

Lemma dict_del_some {V : Type} (k : Key) (d : list (Key * V)) :
  forall d',
    dict_del k d = Some d' ->
    length d = S (length d') /\
    (forall k', k' <> k ->
                dict_get Key_eq_dec k' d' = dict_get Key_eq_dec k' d) /\
    (NoDup (map fst d) ->
     dict_get Key_eq_dec k d' = None /\
     map fst d'
     = filter (fun k' => if Key_eq_dec k k' then false else true) (map fst d)).
Proof.
  induction d as [|[k0 v] d IH]; intros d' H; simpl in H; [discriminate|].
  destruct (Key_eq_dec k k0) as [<-|Hne].
  - inversion H; subst. split; [reflexivity|]. split.
    + intros k' Hk'. simpl. destruct (Key_eq_dec k' k); congruence.
    + intros Hnd. simpl in Hnd. inversion Hnd as [|? ? Hk Hnd']; subst. split.
      * apply dict_get_none_keys. exact Hk.
      * simpl. destruct (Key_eq_dec k k); [|congruence].
        symmetry. apply filter_all. intros k' Hk'.
        destruct (Key_eq_dec k k'); [subst; contradiction | reflexivity].
  - destruct (dict_del k d) as [d''|] eqn:E; [|discriminate].
    inversion H; subst. destruct (IH d'' eq_refl) as [Hlen [Hget Hnd]].
    split; [simpl; lia|]. split.
    + intros k' Hk'. simpl. destruct (Key_eq_dec k' k0); auto.
    + intros Hnd0. simpl in Hnd0. inversion Hnd0 as [|? ? Hk Hnd']; subst.
      destruct (Hnd Hnd') as [Hnone Hkeys]. split.
      * simpl. destruct (Key_eq_dec k k0); [contradiction | exact Hnone].
      * simpl. destruct (Key_eq_dec k k0); [contradiction|].
        rewrite Hkeys. reflexivity.
Qed.

(** X12.  Deleting a key that is absent fails with the lookup error.
    Deleting a key that is present removes exactly that key from the
    state's dictionary: the key is no longer contained and indexing it
    fails, the length drops by one, the other keys keep their values and
    their order, and no other object of the store changes. *)
Theorem delitem_removes_key (h : Store) (self : StateObj) (key : Key) :
  NoDup (StateObj_iter h self) ->
  (StateObj_contains h self key = false ->
   StateObj_delitem h self key = Err (KeyError key))
  /\
  (StateObj_contains h self key = true ->
   exists h',
     StateObj_delitem h self key = Ok h' /\
     StateObj_contains h' self key = false /\
     StateObj_getitem h' self key = Err (KeyError key) /\
     S (StateObj_len h' self) = StateObj_len h self /\
     StateObj_iter h' self
     = filter (fun k' => if Key_eq_dec key k' then false else true)
              (StateObj_iter h self) /\
     (forall k', k' <> key ->
        dict_get Key_eq_dec k' (entries (objects h' (_mapping self)))
        = dict_get Key_eq_dec k' (entries (objects h (_mapping self)))) /\
     (forall a, a <> _mapping self -> objects h' a = objects h a)).
Proof.
  unfold StateObj_contains, StateObj_delitem, StateObj_iter, StateObj_len,
    StateObj_getitem, dict_contains.
  intros Hnd. split.
  - intros Hc.
    destruct (dict_get Key_eq_dec key (entries (objects h (_mapping self))))
      eqn:E; [discriminate|].
    apply dict_del_none in E. rewrite E. reflexivity.
  - intros Hc.
    destruct (dict_del key (entries (objects h (_mapping self))))
      as [d'|] eqn:E.
    + destruct (dict_del_some key _ d' E) as [Hlen [Hget Hn]].
      destruct (Hn Hnd) as [Hnone Hkeys].
      exists (store_write h (_mapping self) d').
      rewrite store_write_same, Hnone.
      repeat split; auto.
      intros a Ha. apply store_write_other. exact Ha.
    + apply dict_del_none in E. rewrite E in Hc. discriminate.
Qed.

(** X13.  After [self[key] = value] the key is contained; indexing it
    returns the leaf that was stored, or, for a state whose mapping is a
    dictionary, a view on that very dictionary (the mapping is attached
    by reference); the other keys of the state and the other objects of
    the store are as before. *)
Theorem setitem_then_getitem (h : Store) (self : StateObj) (key : Key)
    (value : Item) :
  StateObj_contains (StateObj_setitem h self key value) self key = true
  /\
  (forall x,
      value = ItemLeaf x ->
      StateObj_getitem (StateObj_setitem h self key value) self key
      = Ok (StateObj_setitem h self key value, ItemLeaf x))
  /\
  (forall t,
      value = ItemState t ->
      class_of (objects h (_mapping t)) = DictClass ->
      exists view,
        StateObj_getitem (StateObj_setitem h self key value) self key
        = Ok (StateObj_setitem h self key value, ItemState view) /\
        _mapping view = _mapping t)
  /\
  (forall k',
      k' <> key ->
      dict_get Key_eq_dec k'
        (entries (objects (StateObj_setitem h self key value) (_mapping self)))
      = dict_get Key_eq_dec k' (entries (objects h (_mapping self))))
  /\
  (forall a,
      a <> _mapping self ->
      objects (StateObj_setitem h self key value) a = objects h a).
Proof.
  unfold StateObj_contains, StateObj_getitem, StateObj_setitem, dict_contains.
  rewrite store_write_same, dict_get_set_same.
  split; [reflexivity|]. split; [|split; [|split]].
  - intros x ->. reflexivity.
  - intros t -> Hc. exists (mkStateObj (_mapping t)).
    split; [|reflexivity].
    simpl slot_of. unfold StateObj_init.
    assert (Hclass :
      class_of (objects (store_write h (_mapping self)
                           (dict_set Key_eq_dec key (SlotMapping (_mapping t))
                                     (entries (objects h (_mapping self)))))
                        (_mapping t)) = DictClass).
    { simpl. destruct (Nat.eqb_spec (_mapping t) (_mapping self)) as [E|E].
      - simpl. rewrite <- E. exact Hc.
      - exact Hc. }
    rewrite Hclass. reflexivity.
  - intros k' Hk'. apply dict_get_set_other. congruence.
  - intros a Ha. apply store_write_other. exact Ha.
Qed.

(** X14.  Constructing a state with a copy allocates a fresh dictionary
    with the entries of the given mapping and changes no existing
    object.  The copy is shallow: assigning to a key of the new state
    leaves the given mapping as it was, while a nested dictionary is
    shared, indexing the new state yielding a view on the same
    object. *)
Theorem init_copy_is_shallow (h : Store) (mapping : addr) :
  mapping < next_addr h ->
  exists h' s,
    StateObj_init h mapping true = Ok (h', s) /\
    _mapping s = next_addr h /\
    class_of (objects h' (_mapping s)) = DictClass /\
    entries (objects h' (_mapping s)) = entries (objects h mapping) /\
    (forall a, a < next_addr h -> objects h' a = objects h a) /\
    (forall k v,
        objects (StateObj_setitem h' s k v) mapping = objects h mapping) /\
    (forall k a,
        dict_get Key_eq_dec k (entries (objects h mapping))
        = Some (SlotMapping a) ->
        a < next_addr h ->
        class_of (objects h a) = DictClass ->
        StateObj_getitem h' s k = Ok (h', ItemState (mkStateObj a)) /\
        StateObj_getitem h (mkStateObj mapping) k
        = Ok (h, ItemState (mkStateObj a))).
Proof.
  intros Hm. unfold StateObj_init, store_alloc.
  eexists. eexists. split; [reflexivity|]. simpl _mapping.
  split; [reflexivity|]. simpl objects. rewrite Nat.eqb_refl.
  split; [reflexivity|]. split; [reflexivity|].
  assert (Hold : forall a, a < next_addr h ->
                           (a =? next_addr h) = false).
  { intros a Ha. apply Nat.eqb_neq. lia. }
  split; [intros a Ha; rewrite (Hold a Ha); reflexivity|]. split.
  - intros k v. unfold StateObj_setitem, store_write. simpl.
    rewrite (Hold mapping Hm). reflexivity.
  - intros k a Hk Ha Hc. unfold StateObj_getitem, StateObj_init. simpl.
    rewrite Nat.eqb_refl. simpl. rewrite Hk, (Hold a Ha), Hc. split; reflexivity.
Qed.

(** X15.  The method [__getattr__], which Python calls for a name that
    ordinary attribute lookup does not resolve, never reports a lookup
    error: it raises its own attribute error exactly when the name is
    not a key of the mapping, and otherwise behaves as indexing does,
    which then does not fail on the lookup. *)
Theorem getattr_agrees_with_getitem (h : Store) (self : StateObj) (key : Key) :
  (StateObj_contains h self key = false <->
   StateObj_getattr h self key = inl (AttributeError key))
  /\
  (StateObj_contains h self key = true ->
   (forall r, StateObj_getitem h self key = Ok r <->
              StateObj_getattr h self key = inr r) /\
   (forall e, StateObj_getitem h self key = Err e <->
              StateObj_getattr h self key = inl (IndexingError e)))
  /\
  (forall k, StateObj_getattr h self key <> inl (IndexingError (KeyError k))).
Proof.
  unfold StateObj_contains, StateObj_getattr, StateObj_getitem, dict_contains.
  destruct (dict_get Key_eq_dec key (entries (objects h (_mapping self))))
    as [[x|a]|] eqn:E; simpl.
  - split; [split; discriminate|]. split; [|discriminate].
    intros _. split; intros r; split; intros H; inversion H; reflexivity.
  - unfold StateObj_init.
    destruct (class_of (objects h a)); simpl;
      (split; [split; discriminate|]); (split; [|discriminate]);
      intros _; split; intros r; split; intros H; inversion H; reflexivity.
  - split; [split; reflexivity|]. split; [discriminate|]. discriminate.
Qed.

(* ================================================================= *)
(** ** Further properties: filter and difference *)

(** Paths that all lead to leaves of one container are prefix-free. *)
Lemma prefix_free_of_leaves (m : Mapping) (paths : list PathParts) :
  (forall p, In p paths -> exists x, leaf_at m p = Some x) ->
  prefix_free paths = true.
Proof.
  intros H. apply prefix_free_spec. intros p q Hp Hq.
  destruct (H p Hp) as [x Hx]. destruct (H q Hq) as [y Hy].
  destruct (strict_prefix p q) eqn:E; auto.
  rewrite (leaf_at_below p m q x Hx E) in Hy. discriminate.
Qed.

(** The difference of a well-formed state with any state. *)
Lemma State_sub_leaf_at (a b : State) :
  well_formed a ->
  exists d,
    State_sub a b = Ok d /\
    well_formed d /\
    forall p,
      leaf_at (raw_mapping d) p
      = if dict_contains PathParts_eq_dec p (State_flat_state b)
        then None
        else leaf_at (raw_mapping a) p.
Proof.
  intros Hwf. unfold State_sub. destruct (State_bool b) eqn:Eb; simpl.
  - destruct (unflatten_dict_accept
                (filter (fun kv =>
                           negb (dict_contains PathParts_eq_dec (fst kv)
                                               (State_flat_state b)))
                        (State_flat_state a)))
      as [t [Ht [Hwt [_ [Hleaf _]]]]].
    { apply conforming_filter, flatten_dict_conforming, Hwf. }
    exists (mkState t). unfold State_from_flat_path. rewrite Ht.
    repeat split; auto.
    intros p. simpl raw_mapping. rewrite Hleaf.
    rewrite (dict_get_filter_keys
               (fun q => negb (dict_contains PathParts_eq_dec q
                                             (State_flat_state b)))).
    destruct (dict_contains PathParts_eq_dec p (State_flat_state b)); simpl;
      [reflexivity|].
    apply leaf_at_dict_get, Hwf.
  - exists a. repeat split; auto. intros p.
    assert (Hnil : raw_mapping b = []).
    { unfold State_bool, State_len in Eb.
      destruct (raw_mapping b); [reflexivity | discriminate]. }
    unfold State_flat_state. rewrite Hnil. reflexivity.
Qed.

(** X16.  Filter and difference are complementary.  If [s] is what
    [filter] with one filter returns for a well-formed state [a], then
    [a - s] succeeds and holds the leaves of [a] that [s] does not
    hold, and merging [s] with [a - s] succeeds and holds at every path
    what [a] holds there. *)
Theorem filter_difference_complement (a : State) (f : Filter) (r : States) :
  well_formed a ->
  State_filter a f [] = Ok r ->
  exists s d m,
    r = OneState s /\
    (forall p x,
        leaf_at (raw_mapping s) p = Some x <->
        leaf_at (raw_mapping a) p = Some x /\ to_predicate f p x = true) /\
    State_sub a s = Ok d /\
    (forall p x,
        leaf_at (raw_mapping d) p = Some x <->
        leaf_at (raw_mapping a) p = Some x /\ to_predicate f p x = false) /\
    State_merge s [d] = Ok m /\
    forall p, leaf_at (raw_mapping m) p = leaf_at (raw_mapping a) p.
Proof.
  intros Hwf Hr.
  assert (Hcheck : check_filters [f] = Ok tt).
  { apply check_filters_ok_iff. simpl. destruct (is_wildcard f); reflexivity. }
  destruct (split_state_ok a [f] Hwf Hcheck)
    as [states [rest [Hsplit [Hlen [Hbuckets _]]]]].
  rewrite (State_filter_of_parts a f [] states rest Hsplit) in Hr.
  inversion Hr; subst r. clear Hr.
  destruct states as [|s [|s' ss]]; try discriminate.
  destruct (Hbuckets 0 (Nat.lt_0_succ 0)) as [_ [Hws Hperm]].
  simpl nth in Hws, Hperm.
  assert (Hs : forall p x,
             leaf_at (raw_mapping s) p = Some x <->
             leaf_at (raw_mapping a) p = Some x /\ to_predicate f p x = true).
  { intros p x. rewrite <- (flatten_dict_leaf_at _ Hws).
    rewrite <- (flatten_dict_leaf_at _ Hwf).
    change (flatten_dict (raw_mapping s)) with (State_flat_state s).
    change (flatten_dict (raw_mapping a)) with (State_flat_state a).
    split.
    - intros H. apply (Permutation_in _ Hperm) in H.
      apply (in_bucket_of a [f] f) in H. destruct H as [H1 [_ [_ H2]]].
      split; [exact H1 | apply (H2 (Nat.lt_0_succ 0))].
    - intros [H1 H2]. apply (Permutation_in _ (Permutation_sym Hperm)).
      apply (in_bucket_of a [f] f). repeat split; auto; try lia;
        intros j Hj; lia. }
  destruct (State_sub_leaf_at a s Hwf) as [d [Hd [Hwd Hleaf_d]]].
  assert (Hcontains : forall p,
             dict_contains PathParts_eq_dec p (State_flat_state s)
             = match leaf_at (raw_mapping s) p with
               | Some _ => true
               | None => false
               end).
  { intros p. unfold dict_contains, State_flat_state.
    rewrite leaf_at_dict_get by exact Hws. reflexivity. }
  assert (Hdl : forall p x,
             leaf_at (raw_mapping d) p = Some x <->
             leaf_at (raw_mapping a) p = Some x /\ to_predicate f p x = false).
  { intros p x. rewrite Hleaf_d, Hcontains.
    destruct (leaf_at (raw_mapping s) p) as [y|] eqn:E.
    - apply Hs in E. destruct E as [E1 E2]. split; [discriminate|].
      intros [H1 H2]. rewrite E1 in H1. inversion H1; subst. congruence.
    - split.
      + intros H. split; auto.
        destruct (to_predicate f p x) eqn:Ep; auto.
        assert (Hsome : leaf_at (raw_mapping s) p = Some x) by (apply Hs; auto).
        congruence.
      + tauto. }
  assert (Hall : Forall well_formed [s; d]) by (repeat constructor; assumption).
  destruct (State_merge_accept s [d] Hall) as [m [Hm [_ Hleaf_m]]].
  { apply (prefix_free_of_leaves (raw_mapping a)). intros p Hp.
    apply (overlay_two_paths s d p Hws Hwd) in Hp.
    destruct Hp as [Hp|Hp]; apply in_paths in Hp; destruct Hp as [x Hx].
    - apply (flatten_dict_leaf_at _ Hws) in Hx. apply Hs in Hx.
      exists x. tauto.
    - apply (flatten_dict_leaf_at _ Hwd) in Hx. apply Hdl in Hx.
      exists x. tauto. }
  exists s, d, m. split; [reflexivity|]. split; [exact Hs|].
  split; [exact Hd|]. split; [exact Hdl|]. split; [exact Hm|].
  intros p. rewrite Hleaf_m. simpl map. rewrite last_write_two.
  unfold State_flat_state. rewrite !leaf_at_dict_get by assumption.
  rewrite Hleaf_d, Hcontains.
  destruct (leaf_at (raw_mapping s) p) as [y|] eqn:E.
  - apply Hs in E. symmetry. tauto.
  - destruct (leaf_at (raw_mapping a) p); reflexivity.
Qed.
End StateModel.

Arguments Leaf {Key StateLeaf} x.
Arguments Sub {Key StateLeaf} m.
Arguments Ok {Key StateLeaf A} a.
Arguments Err {Key StateLeaf A} e.
Arguments KeyError {Key StateLeaf} k.
Arguments OrderingError {Key StateLeaf} i.
Arguments NonExhaustiveError {Key StateLeaf} rest.
Arguments IndexError {Key StateLeaf}.
Arguments TypeError {Key StateLeaf} k.
Arguments ConstructionError {Key StateLeaf}.
Arguments Ellipsis {Key StateLeaf}.
Arguments TrueLit {Key StateLeaf}.
Arguments Predicate {Key StateLeaf} p.
Arguments SlotLeaf {StateLeaf} x.
Arguments SlotMapping {StateLeaf} a.
Arguments ItemState {StateLeaf} s.
Arguments ItemLeaf {StateLeaf} x.
Arguments AttributeError {Key StateLeaf} key.
Arguments IndexingError {Key StateLeaf} e.
Arguments mkDictKey {Key} key.

(* ================================================================= *)
(** ** Concrete containers used in the examples *)

Module Examples.

Open Scope string_scope.
Open Scope Z_scope.

Definition leaf (z : Z) : Value string Z := Leaf z.

(** [{"a": {"b": 1}, "c": 2}] *)
Definition nested : State string Z :=
  mkState [("a", Sub [("b", leaf 1)]); ("c", leaf 2)].

(** [{"a": {}}] *)
Definition hollow : State string Z :=
  mkState [("a", Sub [])].

(** [{"x": {"y": 1}}] and [{"x": {"y": 2}}] *)
Definition xy1 : State string Z := mkState [("x", Sub [("y", leaf 1)])].
Definition xy2 : State string Z := mkState [("x", Sub [("y", leaf 2)])].

(** [{"x": 1}], [{"z": 2}], [{"x": 1, "y": 2}], [{"y": 99}] *)
Definition x1 : State string Z := mkState [("x", leaf 1)].
Definition z2 : State string Z := mkState [("z", leaf 2)].
Definition x1y2 : State string Z := mkState [("x", leaf 1); ("y", leaf 2)].
Definition y99 : State string Z := mkState [("y", leaf 99)].


(** [{"c": 2, "a": 1}], the key ["c"] inserted first. *)
Definition c2a1 : State string Z := mkState [("c", leaf 2); ("a", leaf 1)].

(** The predicate "the path starts with [a]". *)
Definition starts_with_a : Filter string Z :=
  Predicate (fun path _ =>
    match path with
    | k :: _ => if string_dec k "a" then true else false
    | [] => false
    end).

(** A predicate no leaf satisfies. *)
Definition nothing : Filter string Z := Predicate (fun _ _ => false).

(** A store in which object 0 is the dictionary
    [{"sub": <object 1>, "w": 7, "frozen": <object 2>}], object 1 is the
    dictionary [{"b": 1}] and object 2 is a frozen mapping [{"c": 3}]. *)
Definition store0 : Store string Z :=
  mkStore
    (fun a =>
       match a with
       | O => mkMappingObj DictClass
                [("sub", SlotMapping 1%nat); ("w", SlotLeaf 7);
                 ("frozen", SlotMapping 2%nat)]
       | S O => mkMappingObj DictClass [("b", SlotLeaf 1)]
       | S (S O) => mkMappingObj OtherMappingClass [("c", SlotLeaf 3)]
       | _ => mkMappingObj DictClass []
       end)
    3%nat.

Definition parent0 : StateObj := mkStateObj 0%nat.

End Examples.

(* ================================================================= *)
(** ** The theorems at work on the concrete containers *)

Section Witnesses.

Import Examples.
Local Open Scope string_scope.
Local Open Scope Z_scope.

(** [{"a": {"b": 1}, "c": 2}] survives the round trip. *)
Lemma round_trip_no_empty_sub_witness :
  well_formed string_dec nested /\
  no_empty_sub (raw_mapping nested) = true /\
  exists c',
    State_from_flat_path string_dec (State_flat_state nested) = Ok c' /\
    c' = nested /\ State_equal string_dec c' nested.
Proof.
  split; [reflexivity|]. split; [reflexivity|].
  apply (round_trip_no_empty_sub string string_dec Z nested); reflexivity.
Defined.

(** [{"a": {}}] is well formed and has no leaf path that is a strict
    prefix of another, yet the round trip yields [{}], which lacks the
    key ["a"]. *)
Lemma round_trip_hollow_counterexample :
  well_formed string_dec hollow /\
  prefix_free string_dec (map fst (State_flat_state hollow)) = true /\
  State_from_flat_path string_dec (State_flat_state hollow)
  = Ok (mkState []) /\
  ~ (exists c',
        State_from_flat_path string_dec (State_flat_state hollow) = Ok c' /\
        State_equal string_dec c' hollow).
Proof.
  split; [reflexivity|]. split; [reflexivity|]. split; [reflexivity|].
  intros [c' [Hc Heq]]. inversion Hc; subst. inversion Heq as [|m1 m2 Hkeys _].
  specialize (Hkeys "a"). discriminate.
Qed.

(** Splitting [{"a": {"b": 1}, "c": 2}] with "path starts with a" and a
    wildcard. *)
Lemma split_partition_first_match_witness :
  well_formed string_dec nested /\
  check_filters [starts_with_a; Ellipsis] = Ok tt /\
  is_wildcard (last [starts_with_a; Ellipsis] starts_with_a) = true /\
  State_split string_dec nested starts_with_a [Ellipsis]
  = Ok (StateTuple [mkState [("a", Sub [("b", leaf 1)])];
                    mkState [("c", leaf 2)]]) /\
  exists states r,
    State_split string_dec nested starts_with_a [Ellipsis] = Ok r /\
    unpack_states r = states /\
    r = StateTuple states /\
    list_sum (map (fun s => length (State_flat_state s)) states)
    = count_leaves nested.
Proof.
  split; [reflexivity|]. split; [reflexivity|]. split; [reflexivity|].
  split; [reflexivity|].
  destruct (split_partition_first_match string string_dec Z nested
              starts_with_a [Ellipsis] eq_refl)
    as [_ [_ H]].
  destruct (H eq_refl) as [states [rest [_ [_ [_ [_ Hw]]]]]].
  destruct (Hw eq_refl) as [_ [[r [Hsplit [Hun Hshape]]] [_ Hsum]]].
  exists states, r. auto.
Defined.

(** Without a wildcard, [split] raises on the unmatched leaf [c] and
    [filter] returns the matched part. *)
Lemma split_non_exhaustive_filter_silent_witness :
  well_formed string_dec nested /\
  (exists rest,
      State_split string_dec nested starts_with_a []
      = Err (NonExhaustiveError rest)) /\
  State_filter string_dec nested starts_with_a []
  = Ok (OneState (mkState [("a", Sub [("b", leaf 1)])])) /\
  exists states rest r,
    length states = 1%nat /\
    State_filter string_dec nested starts_with_a [] = Ok r /\
    unpack_states r = states /\
    (exists s, states = [s] /\ r = OneState s) /\
    State_split string_dec nested starts_with_a []
    = if State_bool rest then Err (NonExhaustiveError rest) else Ok r.
Proof.
  split; [reflexivity|].
  destruct (split_non_exhaustive_filter_silent string string_dec Z nested
              starts_with_a [] eq_refl)
    as [Hiff [_ Hfilter]].
  split; [|split; [reflexivity|]].
  - apply Hiff. discriminate.
  - destruct (Hfilter (or_introl eq_refl))
      as [states [rest [r [_ [Hlen [Hf [Hun [Hshape [_ Hs]]]]]]]]].
    exists states, rest, r. auto.
Defined.

(** A wildcard in front of a predicate is an ordering violation. *)
Lemma wildcard_ordering_rule_witness :
  exists i',
    State_split string_dec nested Ellipsis [starts_with_a]
    = Err (OrderingError i').
Proof.
  destruct (wildcard_ordering_rule string string_dec Z Ellipsis
              [starts_with_a])
    as [H _].
  destruct (H 0%nat 1%nat) as [i' [_ [_ Hall]]];
    [lia | simpl; lia | reflexivity | reflexivity |].
  exists i'. apply (Hall nested).
Defined.

(** Two wildcards, the first of them not last: the list is accepted. *)
Lemma two_wildcards_accepted_counterexample :
  length (filter (@is_wildcard string Z) [Ellipsis; Ellipsis]) = 2%nat /\
  is_wildcard (nth 0 [@Ellipsis string Z; Ellipsis] Ellipsis) = true /\
  (0 < length [@Ellipsis string Z; Ellipsis] - 1)%nat /\
  State_split string_dec nested Ellipsis [Ellipsis]
  = Ok (StateTuple [nested; mkState []]).
Proof. repeat split. simpl. lia. Qed.



(** [{"x": 1, "y": 2} - {"y": 99}] is [{"x": 1}]. *)
Lemma difference_by_path_membership_witness :
  State_bool y99 = true /\
  well_formed string_dec x1y2 /\
  State_sub string_dec x1y2 y99 = Ok x1 /\
  exists d,
    State_sub string_dec x1y2 y99 = Ok d /\
    leaf_at string_dec (raw_mapping d) ["y"] = None /\
    leaf_at string_dec (raw_mapping d) ["x"] = Some 1.
Proof.
  split; [reflexivity|]. split; [reflexivity|]. split; [reflexivity|].
  destruct (difference_by_path_membership string string_dec Z x1y2 y99)
    as [_ [H _]].
  destruct (H eq_refl eq_refl) as [_ [d [Hd [_ Hleaf]]]].
  exists d. split; [exact Hd|]. split.
  - rewrite Hleaf. reflexivity.
  - rewrite Hleaf. reflexivity.
Defined.

(** Indexing the parent at ["sub"] returns a view on dictionary 1. *)
Lemma getitem_returns_view_witness :
  dict_get string_dec "sub" (entries (objects store0 (_mapping parent0)))
  = Some (SlotMapping 1%nat) /\
  class_of (objects store0 1%nat) = DictClass /\
  exists view,
    StateObj_getitem string_dec store0 parent0 "sub"
    = Ok (store0, ItemState view) /\
    _mapping view = 1%nat.
Proof.
  split; [reflexivity|]. split; [reflexivity|].
  destruct (getitem_returns_view string string_dec Z store0 parent0 "sub")
    as [_ [_ [H _]]].
  destruct (H 1%nat eq_refl eq_refl) as [view [Hget [Hm _]]].
  exists view. auto.
Defined.

(** The value stored under ["frozen"] is a mapping, but not a
    dictionary: indexing raises instead of returning a view. *)
Lemma getitem_frozen_counterexample :
  dict_get string_dec "frozen" (entries (objects store0 (_mapping parent0)))
  = Some (SlotMapping 2%nat) /\
  StateObj_getitem string_dec store0 parent0 "frozen" = Err ConstructionError /\
  ~ (exists h view,
        StateObj_getitem string_dec store0 parent0 "frozen"
        = Ok (h, ItemState view)).
Proof.
  split; [reflexivity|]. split; [reflexivity|].
  intros [h [view H]]. discriminate.
Qed.

(** The flat state of [{"a": {"b": 1}, "c": 2}], whose keys are stored
    in ascending order. *)
Lemma flat_state_one_entry_per_leaf_witness :
  well_formed string_dec nested /\
  keys_ascending String.leb (Sub (raw_mapping nested)) = true /\
  State_flat_state nested = [(["a"; "b"], 1); (["c"], 2)] /\
  length (State_flat_state nested) = count_leaves nested /\
  State_flat_state nested = traverse [] (Sub (raw_mapping nested)) /\
  State_flat_state nested = key_order_traversal String.leb nested.
Proof.
  split; [reflexivity|]. split; [reflexivity|]. split; [reflexivity|].
  destruct (flat_state_one_entry_per_leaf string string_dec Z nested eq_refl)
    as [_ [_ [Hlen [_ [Htrav Hkey]]]]].
  split; [exact Hlen|]. split; [exact Htrav|].
  apply (Hkey String.leb). reflexivity.
Defined.

(** [{"c": 2, "a": 1}], built by inserting ["c"] first: the flat state
    lists [c] before [a], the key-order traversal [a] before [c]. *)
Lemma flat_state_insertion_order_counterexample :
  well_formed string_dec c2a1 /\
  State_flat_state c2a1 = [(["c"], 2); (["a"], 1)] /\
  key_order_traversal String.leb c2a1 = [(["a"], 1); (["c"], 2)] /\
  State_flat_state c2a1 <> key_order_traversal String.leb c2a1.
Proof.
  split; [reflexivity|]. split; [reflexivity|]. split; [reflexivity|].
  discriminate.
Qed.



(** [True] in front of a predicate raises; predicates followed by
    [...] and [True] pass. *)
Lemma true_literal_is_wildcard_witness :
  (exists i',
      State_split string_dec nested TrueLit [starts_with_a]
      = Err (OrderingError i')) /\
  check_filters ([starts_with_a; nothing] ++ [Ellipsis; TrueLit; Ellipsis])
  = Ok tt.
Proof.
  destruct (true_literal_is_wildcard string string_dec Z)
    as [_ [_ [Hraise Hpass]]].
  split.
  - destruct (Hraise nested TrueLit [starts_with_a] 0%nat 1%nat)
      as [i' [Hs _]]; [lia | simpl; lia | reflexivity | reflexivity |].
    exists i'. exact Hs.
  - apply Hpass; reflexivity.
Defined.


(** Splitting [{"a": {"b": 1}, "c": 2}] and merging the two parts. *)
Lemma split_then_merge_witness :
  well_formed string_dec nested /\
  State_split string_dec nested starts_with_a [Ellipsis]
  = Ok (StateTuple [mkState [("a", Sub [("b", leaf 1)])];
                    mkState [("c", leaf 2)]]) /\
  exists s ss merged,
    s :: ss = [mkState [("a", Sub [("b", leaf 1)])]; mkState [("c", leaf 2)]] /\
    State_merge string_dec s ss = Ok merged /\
    forall p, leaf_at string_dec (raw_mapping merged) p
              = leaf_at string_dec (raw_mapping nested) p.
Proof.
  split; [reflexivity|]. split; [reflexivity|].
  destruct (split_then_merge string string_dec Z nested starts_with_a
              [Ellipsis] _ eq_refl eq_refl)
    as [s [ss [merged [Hu [Hm [_ Hleaf]]]]]].
  exists s, ss, merged. split; [symmetry; exact Hu|]. split; assumption.
Defined.

Lemma split_filter_result_shape_witness :
  State_filter string_dec nested starts_with_a []
  = Ok (OneState (mkState [("a", Sub [("b", leaf 1)])])) /\
  length (unpack_states (OneState (mkState [("a", Sub [("b", leaf 1)])])))
  = 1%nat.
Proof.
  split; [reflexivity|].
  apply (split_filter_result_shape string string_dec Z nested starts_with_a []
           (OneState (mkState [("a", Sub [("b", leaf 1)])]))).
  right. reflexivity.
Defined.

Lemma split_state_conserves_leaves_witness :
  well_formed string_dec nested /\
  _split_state string_dec nested [starts_with_a]
  = Ok [mkState [("a", Sub [("b", leaf 1)])]; mkState [("c", leaf 2)]] /\
  list_sum (map (fun s => length (State_flat_state s))
                [mkState [("a", Sub [("b", leaf 1)])];
                 mkState [("c", leaf 2)]])
  = count_leaves nested.
Proof.
  split; [reflexivity|]. split; [reflexivity|].
  apply (split_state_conserves_leaves string string_dec Z nested
           [starts_with_a]); reflexivity.
Defined.

(** [{"x": {"y": 1}} | {"x": {"y": 2}}] holds [2] at [x.y]. *)
Lemma union_right_biased_witness :
  well_formed string_dec xy1 /\ well_formed string_dec xy2 /\
  prefix_free string_dec
    (map fst (State_flat_state xy1 ++ State_flat_state xy2)) = true /\
  State_or string_dec xy1 xy2 = Ok xy2 /\
  exists u,
    State_or string_dec xy1 xy2 = Ok u /\
    leaf_at string_dec (raw_mapping u) ["x"; "y"] = Some 2.
Proof.
  split; [reflexivity|]. split; [reflexivity|]. split; [reflexivity|].
  split; [reflexivity|].
  destruct (union_right_biased string string_dec Z xy1 xy2
              eq_refl eq_refl eq_refl) as [u [Hu [_ Hleaf]]].
  exists u. split; [exact Hu|]. rewrite Hleaf. reflexivity.
Defined.

Lemma disjoint_x1_z2 :
  forall p : list string,
    leaf_at string_dec (raw_mapping x1) p = None
    \/ leaf_at string_dec (raw_mapping z2) p = None.
Proof.
  intros [|k p]; [left; reflexivity|].
  destruct (string_dec k "x") as [->|Hx].
  - right. destruct p; reflexivity.
  - left. unfold leaf_at. simpl.
    destruct (string_dec k "x"); [contradiction | reflexivity].
Defined.

(** [merge({"x": 1}, {"z": 2})] and [merge({"z": 2}, {"x": 1})]. *)
Lemma merge_disjoint_commutes_witness :
  well_formed string_dec x1 /\ well_formed string_dec z2 /\
  prefix_free string_dec
    (map fst (State_flat_state x1 ++ State_flat_state z2)) = true /\
  State_merge string_dec x1 [z2]
  = Ok (mkState [("x", leaf 1); ("z", leaf 2)]) /\
  State_merge string_dec z2 [x1]
  = Ok (mkState [("z", leaf 2); ("x", leaf 1)]) /\
  exists u v,
    State_merge string_dec x1 [z2] = Ok u /\
    State_merge string_dec z2 [x1] = Ok v /\
    forall p, leaf_at string_dec (raw_mapping v) p
              = leaf_at string_dec (raw_mapping u) p.
Proof.
  split; [reflexivity|]. split; [reflexivity|]. split; [reflexivity|].
  split; [reflexivity|]. split; [reflexivity|].
  destruct (merge_disjoint_commutes string string_dec Z x1 z2
              eq_refl eq_refl disjoint_x1_z2 eq_refl)
    as [u [v [Hu [Hv [Hsame _]]]]].
  exists u, v. auto.
Defined.

Lemma merge_with_itself_witness :
  well_formed string_dec nested /\
  no_empty_sub (raw_mapping nested) = true /\
  State_merge string_dec nested [nested] = Ok nested.
Proof.
  split; [reflexivity|]. split; [reflexivity|].
  apply (merge_with_itself string string_dec Z nested eq_refl). reflexivity.
Defined.

(** The round trip of [{"a": {}}]. *)
Lemma round_trip_normalises_witness :
  well_formed string_dec hollow /\
  exists c',
    State_from_flat_path string_dec (State_flat_state hollow) = Ok c' /\
    no_empty_sub (raw_mapping c') = true /\
    State_from_flat_path string_dec (State_flat_state c') = Ok c'.
Proof.
  split; [reflexivity|].
  destruct (round_trip_normalises string string_dec Z hollow eq_refl)
    as [c' [H1 [_ [H2 [_ [_ H3]]]]]].
  exists c'. auto.
Defined.

(** [{"c": 2, "a": {"b": 1}}] through the traversal protocol. *)
Lemma pytree_round_trip_witness :
  well_formed string_dec
    (mkState [("c", leaf 2); ("a", Sub [("b", leaf 1)])]) /\
  raw_mapping
    (_state_unflatten string_dec
       (snd (_state_flatten_with_keys String.leb
               (mkState [("c", leaf 2); ("a", Sub [("b", leaf 1)])])))
       (map snd
          (fst (_state_flatten_with_keys String.leb
                  (mkState [("c", leaf 2); ("a", Sub [("b", leaf 1)])])))))
  = [("a", Sub [("b", leaf 1)]); ("c", leaf 2)] /\
  State_equal string_dec
    (_state_unflatten string_dec
       (snd (_state_flatten_with_keys String.leb
               (mkState [("c", leaf 2); ("a", Sub [("b", leaf 1)])])))
       (map snd
          (fst (_state_flatten_with_keys String.leb
                  (mkState [("c", leaf 2); ("a", Sub [("b", leaf 1)])])))))
    (mkState [("c", leaf 2); ("a", Sub [("b", leaf 1)])]).
Proof.
  split; [reflexivity|]. split; [reflexivity|].
  apply (pytree_round_trip string string_dec Z String.leb
           (mkState [("c", leaf 2); ("a", Sub [("b", leaf 1)])]) eq_refl).
Defined.

(** Integer keys, in the order of [<=]. *)
Lemma pytree_keys_sorted_witness :
  (forall a b : nat, (a <=? b)%nat = true \/ (b <=? a)%nat = true) /\
  snd (_state_flatten_with_keys Nat.leb
         (mkState [(2%nat, Leaf 20); (1%nat, Leaf 10); (3%nat, Leaf 30)]))
  = [1%nat; 2%nat; 3%nat] /\
  StronglySorted (fun a b => (a <=? b)%nat = true)
    (snd (_state_flatten_with_keys Nat.leb
            (mkState [(2%nat, Leaf 20); (1%nat, Leaf 10); (3%nat, Leaf 30)]))).
Proof.
  assert (Htotal : forall a b : nat,
             (a <=? b)%nat = true \/ (b <=? a)%nat = true).
  { intros a b. rewrite !Nat.leb_le. lia. }
  assert (Htrans : forall a b c : nat,
             (a <=? b)%nat = true -> (b <=? c)%nat = true ->
             (a <=? c)%nat = true).
  { intros a b c. rewrite !Nat.leb_le. lia. }
  split; [exact Htotal|]. split; [reflexivity|].
  apply (pytree_keys_sorted nat Z Nat.leb
           (mkState [(2%nat, Leaf 20); (1%nat, Leaf 10); (3%nat, Leaf 30)])
           Htotal Htrans).
Defined.

(** Three keys and two children: the third key is dropped. *)
Lemma state_unflatten_by_position_witness :
  NoDup ["a"; "b"; "c"] /\
  raw_mapping (_state_unflatten string_dec ["a"; "b"; "c"] [leaf 1; leaf 2])
  = [("a", leaf 1); ("b", leaf 2)] /\
  State_len (_state_unflatten string_dec ["a"; "b"; "c"] [leaf 1; leaf 2])
  = 2%nat.
Proof.
  assert (Hnd : NoDup ["a"; "b"; "c"]).
  { repeat constructor; simpl; intuition discriminate. }
  split; [exact Hnd|].
  destruct (state_unflatten_by_position string string_dec Z
              ["a"; "b"; "c"] [leaf 1; leaf 2] Hnd) as [H1 [H2 _]].
  split; [exact H1 | exact H2].
Defined.

(** Deleting ["w"] from the parent dictionary. *)
Lemma delitem_removes_key_witness :
  NoDup (StateObj_iter store0 parent0) /\
  exists h',
    StateObj_delitem string_dec store0 parent0 "w" = Ok h' /\
    StateObj_iter h' parent0 = ["sub"; "frozen"] /\
    StateObj_getitem string_dec h' parent0 "w" = Err (KeyError "w").
Proof.
  assert (Hnd : NoDup (StateObj_iter store0 parent0)).
  { repeat constructor; simpl; intuition discriminate. }
  split; [exact Hnd|].
  destruct (delitem_removes_key string string_dec Z store0 parent0 "w" Hnd)
    as [_ H].
  destruct (H eq_refl) as [h' [Hd [_ [Hg [_ [Hi _]]]]]].
  exists h'. split; [exact Hd|]. split; [exact Hi | exact Hg].
Defined.

(** Attaching the state on dictionary 1 under a new key. *)
Lemma setitem_then_getitem_witness :
  class_of (objects store0 1%nat) = DictClass /\
  exists view,
    StateObj_getitem string_dec
      (StateObj_setitem string_dec store0 parent0 "again"
                        (ItemState (mkStateObj 1%nat)))
      parent0 "again"
    = Ok (StateObj_setitem string_dec store0 parent0 "again"
                           (ItemState (mkStateObj 1%nat)),
          ItemState view) /\
    _mapping view = 1%nat.
Proof.
  split; [reflexivity|].
  destruct (setitem_then_getitem string string_dec Z store0 parent0 "again"
              (ItemState (mkStateObj 1%nat))) as [_ [_ [H _]]].
  apply (H (mkStateObj 1%nat) eq_refl eq_refl).
Defined.

(** Copying the parent dictionary. *)
Lemma init_copy_is_shallow_witness :
  (0 < next_addr store0)%nat /\
  exists h' s,
    StateObj_init store0 0%nat true = Ok (h', s) /\
    _mapping s = 3%nat /\
    StateObj_getitem string_dec h' s "sub"
    = Ok (h', ItemState (mkStateObj 1%nat)).
Proof.
  assert (Hlt : (0 < next_addr store0)%nat) by (simpl; lia).
  split; [exact Hlt|].
  destruct (init_copy_is_shallow string string_dec Z store0 0%nat Hlt)
    as [h' [s [Hi [Hm [_ [_ [_ [_ Hshare]]]]]]]].
  exists h', s. split; [exact Hi|]. split; [exact Hm|].
  apply (Hshare "sub" 1%nat); [reflexivity | simpl; lia | reflexivity].
Defined.

Lemma getattr_agrees_with_getitem_witness :
  StateObj_contains string_dec store0 parent0 "missing" = false /\
  StateObj_getattr string_dec store0 parent0 "missing"
  = inl (AttributeError "missing").
Proof.
  split; [reflexivity|].
  apply (getattr_agrees_with_getitem string string_dec Z store0 parent0
           "missing").
  reflexivity.
Defined.

(** Filtering [{"a": {"b": 1}, "c": 2}] on "starts with a", and the
    rest. *)
Lemma filter_difference_complement_witness :
  well_formed string_dec nested /\
  State_filter string_dec nested starts_with_a []
  = Ok (OneState (mkState [("a", Sub [("b", leaf 1)])])) /\
  exists s d m,
    State_sub string_dec nested s = Ok d /\
    State_merge string_dec s [d] = Ok m /\
    forall p, leaf_at string_dec (raw_mapping m) p
              = leaf_at string_dec (raw_mapping nested) p.
Proof.
  split; [reflexivity|]. split; [reflexivity|].
  destruct (filter_difference_complement string string_dec Z nested
              starts_with_a _ eq_refl eq_refl)
    as [s [d [m [_ [_ [Hd [_ [Hm Hleaf]]]]]]]].
  exists s, d, m. auto.
Defined.

End Witnesses.
